(** * safehtml: the JSON safe-string type (json.go)

    A shallow embedding of [package safehtml], file [json.go], and of the
    parts of the Go standard library it calls ([bytes.Buffer],
    [unicode/utf8], [encoding/json] for targets of type [any]).

    Conventions.  A Go [string] is a Rocq [string] (a sequence of 8-bit
    characters); a Go [[]byte] is a [list ascii]; the conversions
    [[]byte(s)] and [string(b)] are [list_ascii_of_string] and
    [string_of_list_ascii].  A [rune] and the value of a byte are [Z]s. *)

From Stdlib Require Import ZArith Lia List Bool Ascii String Sorted.
Import ListNotations.

Local Open Scope Z_scope.

(** ** Bytes *)

(** The numeric value of a byte, [0 <= byteZ c < 256]. *)
Definition byteZ (c : ascii) : Z := Z.of_N (N_of_ascii c).

(** The conversion [byte(x)]: the low eight bits. *)
Definition Zbyte (z : Z) : ascii := ascii_of_N (Z.to_N (z mod 256)).

(** The conversion [int32(x)] of an unsigned 32-bit pattern. *)
Definition int32 (z : Z) : Z := (z + 2 ^ 31) mod 2 ^ 32 - 2 ^ 31.

(** ** unicode/utf8 *)
Module utf8.

Definition RuneError : Z := 0xFFFD.
Definition RuneSelf : Z := 0x80.
Definition MaxRune : Z := 0x10FFFF.
Definition UTFMax : nat := 4.

Definition surrogateMin : Z := 0xD800.
Definition surrogateMax : Z := 0xDFFF.

Definition tx : Z := 0x80.
Definition t2 : Z := 0xC0.
Definition t3 : Z := 0xE0.
Definition t4 : Z := 0xF0.

Definition maskx : Z := 0x3F.
Definition mask2 : Z := 0x1F.
Definition mask3 : Z := 0x0F.
Definition mask4 : Z := 0x07.

Definition rune1Max : Z := 0x7F.
Definition rune2Max : Z := 0x7FF.
Definition rune3Max : Z := 0xFFFF.

Definition locb : Z := 0x80.
Definition hicb : Z := 0xBF.

(** Information about the first byte of an encoding: [xx] is an illegal
    starter, [as_] is ASCII, the others give the size in their low three
    bits and an index into [acceptRanges] in their high four. *)
Definition xx : Z := 0xF1.
Definition as_ : Z := 0xF0.
Definition s1 : Z := 0x02.
Definition s2 : Z := 0x13.
Definition s3 : Z := 0x03.
Definition s4 : Z := 0x23.
Definition s5 : Z := 0x34.
Definition s6 : Z := 0x04.
Definition s7 : Z := 0x44.

(** The table [first[256]], by the ranges of its rows. *)
Definition first (b : Z) : Z :=
  if b <? 0x80 then as_
  else if b <? 0xC2 then xx
  else if b <? 0xE0 then s1
  else if b =? 0xE0 then s2
  else if b <? 0xED then s3
  else if b =? 0xED then s4
  else if b <? 0xF0 then s3
  else if b =? 0xF0 then s5
  else if b <? 0xF4 then s6
  else if b =? 0xF4 then s7
  else xx.

(** The table [acceptRanges]: the range of a valid second byte. *)
Definition acceptRanges (i : Z) : Z * Z :=
  if i =? 0 then (locb, hicb)
  else if i =? 1 then (0xA0, hicb)
  else if i =? 2 then (locb, 0x9F)
  else if i =? 3 then (0x90, hicb)
  else if i =? 4 then (locb, 0x8F)
  else (0, 0).

(** [s[i]] for an index the code has checked to be in range. *)
Definition at_ (s : list ascii) (i : nat) : Z := byteZ (nth i s zero).

(** [func DecodeRuneInString(s string) (rune, int)] (and [DecodeRune]):
    the first rune of [s] and its width in bytes; [(RuneError, 1)] for
    an invalid encoding, [(RuneError, 0)] for the empty string. *)
Definition DecodeRune (s : list ascii) : Z * nat :=
  let n := List.length s in
  if (n <? 1)%nat then (RuneError, 0%nat) else
  let s0 := at_ s 0 in
  let x := first s0 in
  if as_ <=? x then
    let mask := Z.shiftr (int32 (Z.shiftl x 31)) 31 in
    (Z.lor (Z.ldiff s0 mask) (Z.land RuneError mask), 1%nat)
  else
  let sz := Z.to_nat (Z.land x 7) in
  let accept := acceptRanges (Z.shiftr x 4) in
  if (n <? sz)%nat then (RuneError, 1%nat) else
  let b1 := at_ s 1 in
  if (b1 <? fst accept) || (snd accept <? b1) then (RuneError, 1%nat) else
  if (sz <=? 2)%nat then
    (Z.lor (Z.shiftl (Z.land s0 mask2) 6) (Z.land b1 maskx), 2%nat)
  else
  let b2 := at_ s 2 in
  if (b2 <? locb) || (hicb <? b2) then (RuneError, 1%nat) else
  if (sz <=? 3)%nat then
    (Z.lor (Z.lor (Z.shiftl (Z.land s0 mask3) 12)
                  (Z.shiftl (Z.land b1 maskx) 6))
           (Z.land b2 maskx), 3%nat)
  else
  let b3 := at_ s 3 in
  if (b3 <? locb) || (hicb <? b3) then (RuneError, 1%nat) else
  (Z.lor (Z.lor (Z.lor (Z.shiftl (Z.land s0 mask4) 18)
                       (Z.shiftl (Z.land b1 maskx) 12))
                (Z.shiftl (Z.land b2 maskx) 6))
         (Z.land b3 maskx), 4%nat).

(** [func AppendRune(p []byte, r rune) []byte], as the bytes appended:
    the UTF-8 encoding of [r]; a rune out of range or a surrogate is
    encoded as [RuneError].  [uint32(r)] is [r mod 2^32]. *)
Definition EncodeRune (r : Z) : list ascii :=
  let i := r mod 2 ^ 32 in
  if i <=? rune1Max then [Zbyte r]
  else if i <=? rune2Max then
    [Zbyte (Z.lor t2 (byteZ (Zbyte (Z.shiftr r 6))));
     Zbyte (Z.lor tx (Z.land (byteZ (Zbyte r)) maskx))]
  else
    let three (r : Z) :=
      [Zbyte (Z.lor t3 (byteZ (Zbyte (Z.shiftr r 12))));
       Zbyte (Z.lor tx (Z.land (byteZ (Zbyte (Z.shiftr r 6))) maskx));
       Zbyte (Z.lor tx (Z.land (byteZ (Zbyte r)) maskx))] in
    if (MaxRune <? i) || ((surrogateMin <=? i) && (i <=? surrogateMax))
    then three RuneError
    else if i <=? rune3Max then three r
    else
      [Zbyte (Z.lor t4 (byteZ (Zbyte (Z.shiftr r 18))));
       Zbyte (Z.lor tx (Z.land (byteZ (Zbyte (Z.shiftr r 12))) maskx));
       Zbyte (Z.lor tx (Z.land (byteZ (Zbyte (Z.shiftr r 6))) maskx));
       Zbyte (Z.lor tx (Z.land (byteZ (Zbyte r)) maskx))].

(** The loop of [func ValidString(s string) bool] from index 0: [fuel]
    bounds the iterations (each one advances by at least one byte). *)
Fixpoint validFrom (fuel : nat) (s : list ascii) : bool :=
  match fuel with
  | O => match s with [] => true | _ => false end
  | S fuel' =>
    match s with
    | [] => true
    | c :: rest =>
      let si := byteZ c in
      if si <? RuneSelf then validFrom fuel' rest else
      let x := first si in
      if x =? xx then false else
      let size := Z.to_nat (Z.land x 7) in
      if (List.length s <? size)%nat then false else
      let accept := acceptRanges (Z.shiftr x 4) in
      let c1 := at_ s 1 in
      if (c1 <? fst accept) || (snd accept <? c1) then false
      else if (size =? 2)%nat then validFrom fuel' (skipn size s)
      else
        let c2 := at_ s 2 in
        if (c2 <? locb) || (hicb <? c2) then false
        else if (size =? 3)%nat then validFrom fuel' (skipn size s)
        else
          let c3 := at_ s 3 in
          if (c3 <? locb) || (hicb <? c3) then false
          else validFrom fuel' (skipn size s)
    end
  end.

(** [func ValidString(s string) bool]: [s] consists entirely of valid
    UTF-8-encoded runes. *)
Definition ValidString (s : list ascii) : bool := validFrom (List.length s) s.

(** [for _, r := range s]: the runes of a string, one [DecodeRune] after
    the other, an invalid byte giving [RuneError] and a step of one. *)
Fixpoint rangeFrom (fuel : nat) (s : list ascii) : list Z :=
  match fuel with
  | O => []
  | S fuel' =>
    match s with
    | [] => []
    | _ :: _ =>
      let (r, size) := DecodeRune s in
      r :: rangeFrom fuel' (skipn size s)
    end
  end.

Definition runes (s : list ascii) : list Z := rangeFrom (List.length s) s.

(** [string(rs)] for [rs []rune]: the encodings, concatenated. *)
Definition stringOfRunes (rs : list Z) : list ascii :=
  flat_map EncodeRune rs.

(** A Unicode scalar value: a code point that is not a surrogate. *)
Definition scalar (r : Z) : Prop :=
  0 <= r <= MaxRune /\ ~ (surrogateMin <= r <= surrogateMax).

(** The well-formed UTF-8 byte sequences of the Unicode Standard
    (Table 3-7), each with the scalar value it encodes.  This is the
    specification the codec above is compared with. *)
Inductive wellFormed1 : list ascii -> Z -> Prop :=
| wf1 c0 :
    byteZ c0 <= 0x7F ->
    wellFormed1 [c0] (byteZ c0)
| wf2 c0 c1 :
    0xC2 <= byteZ c0 <= 0xDF ->
    0x80 <= byteZ c1 <= 0xBF ->
    wellFormed1 [c0; c1] ((byteZ c0 - 0xC0) * 64 + (byteZ c1 - 0x80))
| wf3 c0 c1 c2 :
    0xE0 <= byteZ c0 <= 0xEF ->
    0x80 <= byteZ c1 <= 0xBF ->
    (byteZ c0 = 0xE0 -> 0xA0 <= byteZ c1) ->
    (byteZ c0 = 0xED -> byteZ c1 <= 0x9F) ->
    0x80 <= byteZ c2 <= 0xBF ->
    wellFormed1 [c0; c1; c2]
      ((byteZ c0 - 0xE0) * 4096 + (byteZ c1 - 0x80) * 64 + (byteZ c2 - 0x80))
| wf4 c0 c1 c2 c3 :
    0xF0 <= byteZ c0 <= 0xF4 ->
    0x80 <= byteZ c1 <= 0xBF ->
    (byteZ c0 = 0xF0 -> 0x90 <= byteZ c1) ->
    (byteZ c0 = 0xF4 -> byteZ c1 <= 0x8F) ->
    0x80 <= byteZ c2 <= 0xBF ->
    0x80 <= byteZ c3 <= 0xBF ->
    wellFormed1 [c0; c1; c2; c3]
      ((byteZ c0 - 0xF0) * 262144 + (byteZ c1 - 0x80) * 4096
       + (byteZ c2 - 0x80) * 64 + (byteZ c3 - 0x80)).

(** Well-formed UTF-8: a sequence of well-formed byte sequences, with
    the scalar values it encodes. *)
Inductive wellFormed : list ascii -> list Z -> Prop :=
| wf_nil : wellFormed [] []
| wf_cons u r s rs :
    wellFormed1 u r -> wellFormed s rs -> wellFormed (u ++ s) (r :: rs).

End utf8.


(** ** unicode/utf16, as far as the JSON decoder uses it *)
Module utf16.

Definition surr1 : Z := 0xd800.
Definition surr2 : Z := 0xdc00.
Definition surr3 : Z := 0xe000.
Definition surrSelf : Z := 0x10000.
Definition replacementChar : Z := 0xFFFD.

(** [func IsSurrogate(r rune) bool] *)
Definition IsSurrogate (r : Z) : bool := (surr1 <=? r) && (r <? surr3).

(** [func DecodeRune(r1, r2 rune) rune]: the code point of a surrogate
    pair, U+FFFD when the pair is not valid. *)
Definition DecodeRune (r1 r2 : Z) : Z :=
  if (surr1 <=? r1) && (r1 <? surr2) && (surr2 <=? r2) && (r2 <? surr3)
  then Z.lor (Z.shiftl (r1 - surr1) 10) (r2 - surr2) + surrSelf
  else replacementChar.

End utf16.

(** ** encoding/json, for a target of type [any]

    [json.Unmarshal(data, &x)] with [x] a nil [any], and
    [json.Marshal(x)] of the value it stored.  The conversion of number
    literals to [float64] and back belongs to [strconv]; it is a
    parameter of the model ([float64], [ParseFloat], [floatEncoder]). *)
Module json.

(** *** Characters *)

Definition dquote : ascii := "034"%char.
Definition backslash : ascii := "\"%char.

Definition la (s : string) : list ascii := list_ascii_of_string s.

(** [func isSpace(c byte) bool] *)
Definition isSpace (c : ascii) : bool :=
  (c =? " ")%char || (c =? "009")%char || (c =? "013")%char
  || (c =? "010")%char.

Definition isDigit (c : ascii) : bool :=
  (byteZ "0" <=? byteZ c) && (byteZ c <=? byteZ "9").

Definition isDigit19 (c : ascii) : bool :=
  (byteZ "1" <=? byteZ c) && (byteZ c <=? byteZ "9").

(** The value of a hexadecimal digit, as [getu4] and the scanner's
    [stateInStringEscU] read it. *)
Definition hexValue (c : ascii) : option Z :=
  let b := byteZ c in
  if (byteZ "0" <=? b) && (b <=? byteZ "9") then Some (b - byteZ "0")
  else if (byteZ "a" <=? b) && (b <=? byteZ "f") then Some (b - byteZ "a" + 10)
  else if (byteZ "A" <=? b) && (b <=? byteZ "F") then Some (b - byteZ "A" + 10)
  else None.

Definition isHex (c : ascii) : bool :=
  match hexValue c with Some _ => true | None => false end.

(** The characters that may follow a backslash, [u] apart
    ([stateInStringEsc]). *)
Definition isSimpleEscape (c : ascii) : bool :=
  (c =? "b")%char || (c =? "f")%char || (c =? "n")%char || (c =? "r")%char
  || (c =? "t")%char || (c =? backslash)%char || (c =? "/")%char
  || (c =? dquote)%char.

(** [const maxNestingDepth = 10000] (scanner.go) *)
Definition maxNestingDepth : Z := 10000.

(** *** Errors *)

(** The errors of the package that these paths produce, by kind:
    [*SyntaxError], [*UnmarshalTypeError] with the number literal of its
    [Value], [*UnsupportedValueError].  The message and the [Offset] of
    an error are left out, so two errors of one kind that differ only
    there are one error here.  A Go panic of the decoder
    ([phasePanicMsg]) and the exhaustion of the model's fuel are
    outcomes of their own; neither is reachable (see the proofs). *)
Inductive error : Type :=
| SyntaxError
| UnmarshalTypeError (value : list ascii)
| UnsupportedValueError
| phasePanic
| outOfFuel.

(** *** Scanning tokens *)

Fixpoint skipSpace (s : list ascii) : list ascii :=
  match s with
  | c :: t => if isSpace c then skipSpace t else s
  | [] => []
  end.

(** The longest prefix of digits, and what follows it. *)
Fixpoint digits (s : list ascii) : list ascii * list ascii :=
  match s with
  | c :: t =>
    if isDigit c then let (ds, rest) := digits t in (c :: ds, rest)
    else ([], s)
  | [] => ([], [])
  end.

(** The exponent of a number ([stateE], [stateESign], [stateE0]),
    when one starts here. *)
Definition scanExp (s : list ascii) : option (list ascii * list ascii) :=
  match s with
  | e :: t =>
    if (e =? "e")%char || (e =? "E")%char then
      let (sign, t1) :=
        match t with
        | c :: t' =>
          if (c =? "+")%char || (c =? "-")%char then ([c], t') else ([], t)
        | [] => ([], t)
        end in
      match digits t1 with
      | ([], _) => None
      | (ds, rest) => Some (e :: sign ++ ds, rest)
      end
    else Some ([], s)
  | [] => Some ([], [])
  end.

(** The fraction of a number ([stateDot], [stateDot0]), when one
    starts here. *)
Definition scanFrac (s : list ascii) : option (list ascii * list ascii) :=
  match s with
  | d :: t =>
    if (d =? ".")%char then
      match digits t with
      | ([], _) => None
      | (ds, rest) => Some (d :: ds, rest)
      end
    else Some ([], s)
  | [] => Some ([], [])
  end.

(** The integer part ([state0], [state1]). *)
Definition scanInt (s : list ascii) : option (list ascii * list ascii) :=
  match s with
  | c :: t =>
    if (c =? "0")%char then Some ([c], t)
    else if isDigit19 c then let (ds, rest) := digits t in Some (c :: ds, rest)
    else None
  | [] => None
  end.

(** A number literal at the start of [s], and what follows it: the
    scanner's states [stateNeg] to [stateE0]. *)
Definition scanNumber (s : list ascii) : option (list ascii * list ascii) :=
  let (sign, s1) :=
    match s with
    | c :: t => if (c =? "-")%char then ([c], t) else ([], s)
    | [] => ([], s)
    end in
  match scanInt s1 with
  | None => None
  | Some (i, s2) =>
    match scanFrac s2 with
    | None => None
    | Some (f, s3) =>
      match scanExp s3 with
      | None => None
      | Some (e, s4) => Some (sign ++ i ++ f ++ e, s4)
      end
    end
  end.

(** A string literal after its opening quote: the bytes up to the
    closing quote, and what follows it ([stateInString],
    [stateInStringEsc], [stateInStringEscU] to [...U123]). *)
Fixpoint scanString (s : list ascii) : option (list ascii * list ascii) :=
  match s with
  | [] => None
  | c :: t =>
    if (c =? dquote)%char then Some ([], t)
    else if (c =? backslash)%char then
      match t with
      | [] => None
      | e :: t' =>
        if isSimpleEscape e then
          match scanString t' with
          | Some (raw, rest) => Some (c :: e :: raw, rest)
          | None => None
          end
        else if (e =? "u")%char then
          match t' with
          | h1 :: h2 :: h3 :: h4 :: t'' =>
            if isHex h1 && isHex h2 && isHex h3 && isHex h4 then
              match scanString t'' with
              | Some (raw, rest) =>
                Some (c :: e :: h1 :: h2 :: h3 :: h4 :: raw, rest)
              | None => None
              end
            else None
          | _ => None
          end
        else None
      end
    else if byteZ c <? 0x20 then None
    else
      match scanString t with
      | Some (raw, rest) => Some (c :: raw, rest)
      | None => None
      end
  end.

(** *** Unquoting a string literal (decode.go) *)

(** [func getu4(s []byte) rune]: the rune of a [\uXXXX] at the start of
    [s], or -1. *)
Definition getu4 (s : list ascii) : Z :=
  match s with
  | b :: u :: h1 :: h2 :: h3 :: h4 :: _ =>
    if (b =? backslash)%char && (u =? "u")%char then
      match hexValue h1, hexValue h2, hexValue h3, hexValue h4 with
      | Some v1, Some v2, Some v3, Some v4 =>
        ((v1 * 16 + v2) * 16 + v3) * 16 + v4
      | _, _, _, _ => -1
      end
    else -1
  | _ => -1
  end.

(** The first loop of [unquoteBytes]: the prefix that needs no
    unquoting ([s[0:r]]) and the rest ([s[r:]]). *)
Fixpoint simplePrefix (fuel : nat) (s : list ascii)
  : list ascii * list ascii :=
  match fuel with
  | O => ([], s)
  | S fuel' =>
    match s with
    | [] => ([], [])
    | c :: t =>
      if (c =? backslash)%char || (c =? dquote)%char || (byteZ c <? 0x20)
      then ([], s)
      else if byteZ c <? utf8.RuneSelf then
        let (pre, rest) := simplePrefix fuel' t in (c :: pre, rest)
      else
        let (rr, size) := utf8.DecodeRune s in
        if (rr =? utf8.RuneError) && (size =? 1)%nat then ([], s)
        else
          let (pre, rest) := simplePrefix fuel' (skipn size s) in
          (firstn size s ++ pre, rest)
    end
  end.

(** The second loop of [unquoteBytes], from [s[r:]]: the bytes it
    appends to [b], or [None] where it returns [ok = false]. *)
Fixpoint unquoteLoop (fuel : nat) (s : list ascii) : option (list ascii) :=
  match fuel with
  | O => match s with [] => Some [] | _ => None end
  | S fuel' =>
    match s with
    | [] => Some []
    | c :: t =>
      if (c =? backslash)%char then
        match t with
        | [] => None
        | e :: t' =>
          let single (b : ascii) :=
            option_map (cons b) (unquoteLoop fuel' t') in
          if (e =? dquote)%char || (e =? backslash)%char || (e =? "/")%char
             || (e =? "'")%char then single e
          else if (e =? "b")%char then single "008"%char
          else if (e =? "f")%char then single "012"%char
          else if (e =? "n")%char then single "010"%char
          else if (e =? "r")%char then single "013"%char
          else if (e =? "t")%char then single "009"%char
          else if (e =? "u")%char then
            let rr := getu4 s in
            if rr <? 0 then None
            else
              let s6 := skipn 6 s in
              if utf16.IsSurrogate rr then
                let rr1 := getu4 s6 in
                let dec := utf16.DecodeRune rr rr1 in
                if negb (dec =? utf16.replacementChar) then
                  option_map (app (utf8.EncodeRune dec))
                             (unquoteLoop fuel' (skipn 6 s6))
                else
                  option_map (app (utf8.EncodeRune utf16.replacementChar))
                             (unquoteLoop fuel' s6)
              else
                option_map (app (utf8.EncodeRune rr)) (unquoteLoop fuel' s6)
          else None
        end
      else if (c =? dquote)%char || (byteZ c <? 0x20) then None
      else if byteZ c <? utf8.RuneSelf then
        option_map (cons c) (unquoteLoop fuel' t)
      else
        let (rr, size) := utf8.DecodeRune s in
        option_map (app (utf8.EncodeRune rr))
                   (unquoteLoop fuel' (skipn size s))
    end
  end.

(** [unquoteBytes] on the bytes between the quotes. *)
Definition unquoteBody (s : list ascii) : option (list ascii) :=
  let (pre, rest) := simplePrefix (List.length s) s in
  match rest with
  | [] => Some s
  | _ => option_map (app pre) (unquoteLoop (List.length rest) rest)
  end.

(** [func unquoteBytes(s []byte) (t []byte, ok bool)] *)
Definition unquoteBytes (s : list ascii) : option (list ascii) :=
  match s with
  | q :: t =>
    if (List.length s <? 2)%nat || negb (q =? dquote)%char
       || negb (last s zero =? dquote)%char
    then None
    else unquoteBody (removelast t)
  | [] => None
  end.

(** *** Quoting a string (encode.go) *)

(** [htmlSafeSet]: the ASCII characters written without escaping when
    [escapeHTML] is set: the printable ones other than the double quote,
    the backslash, [<], [>] and [&]. *)
Definition htmlSafeSet (c : ascii) : bool :=
  (0x20 <=? byteZ c) && (byteZ c <? utf8.RuneSelf)
  && negb ((c =? dquote)%char || (c =? backslash)%char || (c =? "<")%char
           || (c =? ">")%char || (c =? "&")%char).

(** [const hex = "0123456789abcdef"], indexed. *)
Definition hex (i : Z) : ascii := nth (Z.to_nat i) (la "0123456789abcdef") zero.

(** What [appendString] writes for an ASCII byte outside [htmlSafeSet]. *)
Definition escapeByte (c : ascii) : list ascii :=
  if (c =? backslash)%char || (c =? dquote)%char then [backslash; c]
  else if (c =? "008")%char then [backslash; "b"%char]
  else if (c =? "012")%char then [backslash; "f"%char]
  else if (c =? "010")%char then [backslash; "n"%char]
  else if (c =? "013")%char then [backslash; "r"%char]
  else if (c =? "009")%char then [backslash; "t"%char]
  else
    [backslash; "u"%char; "0"%char; "0"%char;
     hex (Z.shiftr (byteZ c) 4); hex (Z.land (byteZ c) 0xF)].

(** The six bytes that [appendString] writes for an invalid byte: the
    escape of U+FFFD. *)
Definition replacementEscape : list ascii := backslash :: la "ufffd".

(** The loop of [appendString] with [escapeHTML] set: the bytes written
    between the quotes for [src[i:]]. *)
Fixpoint appendStringLoop (fuel : nat) (s : list ascii) : list ascii :=
  match fuel with
  | O => []
  | S fuel' =>
    match s with
    | [] => []
    | c :: t =>
      if byteZ c <? utf8.RuneSelf then
        if htmlSafeSet c then c :: appendStringLoop fuel' t
        else escapeByte c ++ appendStringLoop fuel' t
      else
        let (r, size) := utf8.DecodeRune (firstn utf8.UTFMax s) in
        if (r =? utf8.RuneError) && (size =? 1)%nat then
          replacementEscape ++ appendStringLoop fuel' (skipn size s)
        else if (r =? 0x2028) || (r =? 0x2029) then
          la "\u202" ++ [hex (Z.land r 0xF)]
             ++ appendStringLoop fuel' (skipn size s)
        else firstn size s ++ appendStringLoop fuel' (skipn size s)
    end
  end.

(** [func appendString(dst []byte, src string, escapeHTML bool) []byte]
    with [escapeHTML = true], as the bytes appended. *)
Definition appendString (s : list ascii) : list ascii :=
  dquote :: appendStringLoop (List.length s) s ++ [dquote].

(** *** Values *)

(** Byte-wise comparison of strings ([strings.Compare]). *)
Fixpoint compareBytes (a b : list ascii) : comparison :=
  match a, b with
  | [], [] => Eq
  | [], _ :: _ => Lt
  | _ :: _, [] => Gt
  | x :: a', y :: b' =>
    match byteZ x ?= byteZ y with
    | Eq => compareBytes a' b'
    | o => o
    end
  end.

Section Codec.

(** [float64] and the two [strconv] conversions the codec uses:
    [strconv.ParseFloat(s, 64)] ([None] for its error), and the
    formatting of the float encoder ([None] where it raises
    [UnsupportedValueError], for an infinity or a NaN). *)
Variable float64 : Type.
Variable ParseFloat : list ascii -> option float64.
Variable floatEncoder : float64 -> option (list ascii).

(** What [Unmarshal] stores in an [any]: [nil], [bool], [float64],
    [string], [[]any] and [map[string]any].  A map is kept as the list
    of its entries in increasing order of the keys (byte-wise), one
    entry per key: the order [Marshal] writes them in. *)
Inductive any : Type :=
| Nil
| Bool (b : bool)
| Float64 (f : float64)
| Str (s : list ascii)
| Slice (l : list any)
| Map (m : list (list ascii * any)).

(** [m[key] = v] *)
Fixpoint mapassign (m : list (list ascii * any)) (key : list ascii) (v : any)
  : list (list ascii * any) :=
  match m with
  | [] => [(key, v)]
  | (k, x) :: m' =>
    match compareBytes key k with
    | Lt => (key, v) :: m
    | Eq => (key, v) :: m'
    | Gt => (k, x) :: mapassign m' key v
    end
  end.

(** *** Decoding *)

(** The result of a decoding step: the value, the error saved so far
    ([d.savedError]) and the input left; or the error that stops the
    decoding. *)
Definition step : Type := error + (any * option error * list ascii).

(** [func (d *decodeState) saveError(err error)]: the first one is kept. *)
Definition saveError (saved : option error) (err : error) : option error :=
  match saved with
  | None => Some err
  | Some _ => saved
  end.

Definition hasPrefix (p s : list ascii) : bool :=
  if list_eq_dec ascii_dec (firstn (List.length p) s) p then true else false.

(** [func (d *decodeState) literalInterface() any], with the scanning
    of the literal: [null], [true], [false], a string or a number. *)
Definition literalInterface (saved : option error) (s : list ascii) : step :=
  match s with
  | [] => inl SyntaxError
  | c :: t =>
    if (c =? "n")%char then
      if hasPrefix (la "null") s then inr (Nil, saved, skipn 4 s)
      else inl SyntaxError
    else if (c =? "t")%char then
      if hasPrefix (la "true") s then inr (Bool true, saved, skipn 4 s)
      else inl SyntaxError
    else if (c =? "f")%char then
      if hasPrefix (la "false") s then inr (Bool false, saved, skipn 5 s)
      else inl SyntaxError
    else if (c =? dquote)%char then
      match scanString t with
      | None => inl SyntaxError
      | Some (raw, rest) =>
        match unquoteBytes (dquote :: raw ++ [dquote]) with
        | None => inl phasePanic
        | Some str => inr (Str str, saved, rest)
        end
      end
    else
      match scanNumber s with
      | None => inl SyntaxError
      | Some (item, rest) =>
        match ParseFloat item with
        | Some f => inr (Float64 f, saved, rest)
        | None => inr (Nil, saveError saved (UnmarshalTypeError item), rest)
        end
      end
  end.

(** [valueInterface], [arrayInterface] and [objectInterface], together
    with the scanner's checks on the way.  [depth] is the number of
    arrays and objects open around the value ([len(s.parseState)]);
    opening one more than [maxNestingDepth] is a syntax error
    ([pushParseState]).  [value] is called at the first byte of a
    value, [arrayRest] at the first byte of an element, with the
    elements before it in [acc], and [objectRest] at the first byte of
    a key, with the entries before it in [m].  [fuel] bounds the calls;
    [Unmarshal] gives enough. *)
Fixpoint value (fuel : nat) (depth : Z) (saved : option error)
  (s : list ascii) : step :=
  match fuel with
  | O => inl outOfFuel
  | S fuel' =>
    match s with
    | [] => inl SyntaxError
    | c :: t =>
      if (c =? "[")%char then
        if depth + 1 <=? maxNestingDepth then
          match skipSpace t with
          | [] => inl SyntaxError
          | c1 :: t1 =>
            if (c1 =? "]")%char then inr (Slice [], saved, t1)
            else arrayRest fuel' (depth + 1) saved [] (c1 :: t1)
          end
        else inl SyntaxError
      else if (c =? "{")%char then
        if depth + 1 <=? maxNestingDepth then
          match skipSpace t with
          | [] => inl SyntaxError
          | c1 :: t1 =>
            if (c1 =? "}")%char then inr (Map [], saved, t1)
            else objectRest fuel' (depth + 1) saved [] (c1 :: t1)
          end
        else inl SyntaxError
      else literalInterface saved s
    end
  end
with arrayRest (fuel : nat) (depth : Z) (saved : option error)
  (acc : list any) (s : list ascii) : step :=
  match fuel with
  | O => inl outOfFuel
  | S fuel' =>
    match value fuel' depth saved s with
    | inl e => inl e
    | inr (v, saved', t) =>
      match skipSpace t with
      | [] => inl SyntaxError
      | c :: t' =>
        if (c =? ",")%char then
          arrayRest fuel' depth saved' (acc ++ [v]) (skipSpace t')
        else if (c =? "]")%char then inr (Slice (acc ++ [v]), saved', t')
        else inl SyntaxError
      end
    end
  end
with objectRest (fuel : nat) (depth : Z) (saved : option error)
  (m : list (list ascii * any)) (s : list ascii) : step :=
  match fuel with
  | O => inl outOfFuel
  | S fuel' =>
    match s with
    | [] => inl SyntaxError
    | q :: t =>
      if (q =? dquote)%char then
        match scanString t with
        | None => inl SyntaxError
        | Some (raw, t1) =>
          match unquoteBytes (dquote :: raw ++ [dquote]) with
          | None => inl phasePanic
          | Some key =>
            match skipSpace t1 with
            | [] => inl SyntaxError
            | c :: t2 =>
              if (c =? ":")%char then
                match value fuel' depth saved (skipSpace t2) with
                | inl e => inl e
                | inr (v, saved', t3) =>
                  match skipSpace t3 with
                  | [] => inl SyntaxError
                  | c' :: t4 =>
                    if (c' =? ",")%char then
                      objectRest fuel' depth saved' (mapassign m key v)
                                 (skipSpace t4)
                    else if (c' =? "}")%char then
                      inr (Map (mapassign m key v), saved', t4)
                    else inl SyntaxError
                  end
                end
              else inl SyntaxError
            end
          end
        end
      else inl SyntaxError
    end
  end.

(** [func Unmarshal(data []byte, v any) error] for [v = &x], [x] a nil
    [any]: the value stored in [x] and the error.  A syntax error
    anywhere in [data] is returned before anything is stored
    ([checkValid] runs first); an error saved while decoding is returned
    at the end. *)
Definition Unmarshal (data : list ascii) : any * option error :=
  match value (2 * List.length data + 1) 0 None (skipSpace data) with
  | inl e => (Nil, Some e)
  | inr (v, saved, rest) =>
    match skipSpace rest with
    | [] => (v, saved)
    | _ :: _ => (Nil, Some SyntaxError)
    end
  end.

(** *** Encoding *)

Definition comma : list ascii := [","%char].

Section Elements.

(** The encoder of the elements. *)
Variable elemEnc : any -> error + list ascii.

(** The loop of [arrayEncoder.encode]: a comma before every element
    but the first ([first] stands for [i == 0]). *)
Fixpoint encodeList (first : bool) (l : list any) : error + list ascii :=
  match l with
  | [] => inr []
  | x :: l' =>
    match elemEnc x with
    | inl e => inl e
    | inr b =>
      match encodeList false l' with
      | inl e => inl e
      | inr bs => inr ((if first then [] else comma) ++ b ++ bs)
      end
    end
  end.

(** The loop of [mapEncoder.encode] over the entries, sorted by key:
    the key as a string, a colon, the value. *)
Fixpoint encodeMap (first : bool) (m : list (list ascii * any))
  : error + list ascii :=
  match m with
  | [] => inr []
  | (k, x) :: m' =>
    match elemEnc x with
    | inl e => inl e
    | inr b =>
      match encodeMap false m' with
      | inl e => inl e
      | inr bs =>
        inr ((if first then [] else comma)
             ++ appendString k ++ ":"%char :: b ++ bs)
      end
    end
  end.

End Elements.

(** The encoders of [any] values ([interfaceEncoder] and what it
    dispatches to): the bytes written, or the error that stops the
    encoding. *)
Fixpoint encode (v : any) : error + list ascii :=
  match v with
  | Nil => inr (la "null")
  | Bool true => inr (la "true")
  | Bool false => inr (la "false")
  | Float64 f =>
    match floatEncoder f with
    | Some b => inr b
    | None => inl UnsupportedValueError
    end
  | Str s => inr (appendString s)
  | Slice l =>
    match encodeList encode true l with
    | inl e => inl e
    | inr bs => inr ("["%char :: bs ++ ["]"%char])
    end
  | Map m =>
    match encodeMap encode true m with
    | inl e => inl e
    | inr bs => inr ("{"%char :: bs ++ ["}"%char])
    end
  end.

(** [func Marshal(v any) ([]byte, error)], with HTML escaping (its
    default). *)
Definition Marshal (v : any) : list ascii * option error :=
  match encode v with
  | inl e => ([], Some e)
  | inr b => (b, None)
  end.

End Codec.

End json.


(** ** The JSON grammar (RFC 8259), read over bytes

    A text is syntactically valid when it is the rendering of a syntax
    tree: the tree records the literals as written and the whitespace
    between the tokens, so that every valid text has exactly the trees
    that render to it.  The grammar is read over bytes, as
    [encoding/json] reads it: a string may hold any byte from 0x20 up
    other than the quote and the backslash. *)
Module grammar.

Definition ws (w : list ascii) : Prop :=
  Forall (fun c => json.isSpace c = true) w.

Definition allDigits (ds : list ascii) : Prop :=
  Forall (fun c => json.isDigit c = true) ds.

(** [int = zero / ( digit1-9 *DIGIT )] *)
Definition intPart (i : list ascii) : Prop :=
  i = ["0"%char] \/
  exists c ds, i = c :: ds /\ json.isDigit19 c = true /\ allDigits ds.

(** [frac = decimal-point 1*DIGIT], or nothing *)
Definition fracPart (f : list ascii) : Prop :=
  f = [] \/ exists ds, f = "."%char :: ds /\ ds <> [] /\ allDigits ds.

(** [exp = e [ minus / plus ] 1*DIGIT], or nothing *)
Definition expPart (e : list ascii) : Prop :=
  e = [] \/
  exists c sign ds,
    e = c :: sign ++ ds /\ (c = "e"%char \/ c = "E"%char) /\
    (sign = [] \/ sign = ["+"%char] \/ sign = ["-"%char]) /\
    ds <> [] /\ allDigits ds.

(** [number = [ minus ] int [ frac ] [ exp ]] *)
Definition numberLit (lit : list ascii) : Prop :=
  exists sign i f e,
    lit = sign ++ i ++ f ++ e /\ (sign = [] \/ sign = ["-"%char]) /\
    intPart i /\ fracPart f /\ expPart e.

(** The bytes of a string, between its quotes, as the scanner of
    [encoding/json] reads them: unescaped bytes, two-character escapes
    and [\uXXXX].  An unescaped byte is any byte from [0x20] on other
    than the quote and the backslash, so bytes that are not UTF-8 pass
    (the decoder replaces them by U+FFFD).  RFC 8259 asks in addition
    for UTF-8: see [ValidJSON]. *)
Inductive stringBody : list ascii -> Prop :=
| body_nil : stringBody []
| body_char c s :
    0x20 <= byteZ c -> c <> json.dquote -> c <> json.backslash ->
    stringBody s -> stringBody (c :: s)
| body_escape e s :
    json.isSimpleEscape e = true ->
    stringBody s -> stringBody (json.backslash :: e :: s)
| body_unicode h1 h2 h3 h4 s :
    json.isHex h1 = true -> json.isHex h2 = true ->
    json.isHex h3 = true -> json.isHex h4 = true ->
    stringBody s ->
    stringBody (json.backslash :: "u"%char :: h1 :: h2 :: h3 :: h4 :: s).

(** Syntax trees.  [w] stands for the whitespace at that place. *)
Inductive cst : Type :=
| CNull
| CTrue
| CFalse
| CNumber (lit : list ascii)
| CString (raw : list ascii)
| CArray0 (w : list ascii)
| CArray (w : list ascii) (es : elements)
| CObject0 (w : list ascii)
| CObject (w : list ascii) (ms : members)
with elements : Type :=
| ELast (v : cst) (w : list ascii)
| ECons (v : cst) (w w' : list ascii) (es : elements)
with members : Type :=
| MLast (key w1 w2 : list ascii) (v : cst) (w3 : list ascii)
| MCons (key w1 w2 : list ascii) (v : cst) (w3 w4 : list ascii)
        (ms : members).

Scheme cst_mut := Induction for cst Sort Prop
with elements_mut := Induction for elements Sort Prop
with members_mut := Induction for members Sort Prop.

Combined Scheme cst_mutind from cst_mut, elements_mut, members_mut.

Definition quoted (raw : list ascii) : list ascii :=
  json.dquote :: raw ++ [json.dquote].

(** The text of a tree. *)
Fixpoint render (c : cst) : list ascii :=
  match c with
  | CNull => json.la "null"
  | CTrue => json.la "true"
  | CFalse => json.la "false"
  | CNumber lit => lit
  | CString raw => quoted raw
  | CArray0 w => "["%char :: w ++ ["]"%char]
  | CArray w es => "["%char :: w ++ renderElements es ++ ["]"%char]
  | CObject0 w => "{"%char :: w ++ ["}"%char]
  | CObject w ms => "{"%char :: w ++ renderMembers ms ++ ["}"%char]
  end
with renderElements (es : elements) : list ascii :=
  match es with
  | ELast v w => render v ++ w
  | ECons v w w' es' =>
    render v ++ w ++ ","%char :: w' ++ renderElements es'
  end
with renderMembers (ms : members) : list ascii :=
  match ms with
  | MLast key w1 w2 v w3 =>
    quoted key ++ w1 ++ ":"%char :: w2 ++ render v ++ w3
  | MCons key w1 w2 v w3 w4 ms' =>
    quoted key ++ w1 ++ ":"%char :: w2 ++ render v ++ w3
      ++ ","%char :: w4 ++ renderMembers ms'
  end.

(** The trees of the grammar: whitespace where whitespace stands,
    numbers and strings as the grammar writes them. *)
Fixpoint wf (c : cst) : Prop :=
  match c with
  | CNull | CTrue | CFalse => True
  | CNumber lit => numberLit lit
  | CString raw => stringBody raw
  | CArray0 w => ws w
  | CArray w es => ws w /\ wfElements es
  | CObject0 w => ws w
  | CObject w ms => ws w /\ wfMembers ms
  end
with wfElements (es : elements) : Prop :=
  match es with
  | ELast v w => wf v /\ ws w
  | ECons v w w' es' => wf v /\ ws w /\ ws w' /\ wfElements es'
  end
with wfMembers (ms : members) : Prop :=
  match ms with
  | MLast key w1 w2 v w3 =>
    stringBody key /\ ws w1 /\ ws w2 /\ wf v /\ ws w3
  | MCons key w1 w2 v w3 w4 ms' =>
    stringBody key /\ ws w1 /\ ws w2 /\ wf v /\ ws w3 /\ ws w4
    /\ wfMembers ms'
  end.

(** The nesting depth: how many arrays and objects are open at the
    deepest place. *)
Fixpoint depth (c : cst) : Z :=
  match c with
  | CNull | CTrue | CFalse | CNumber _ | CString _ => 0
  | CArray0 _ | CObject0 _ => 1
  | CArray _ es => 1 + depthElements es
  | CObject _ ms => 1 + depthMembers ms
  end
with depthElements (es : elements) : Z :=
  match es with
  | ELast v _ => depth v
  | ECons v _ _ es' => Z.max (depth v) (depthElements es')
  end
with depthMembers (ms : members) : Z :=
  match ms with
  | MLast _ _ _ v _ => depth v
  | MCons _ _ _ v _ _ ms' => Z.max (depth v) (depthMembers ms')
  end.

(** The number literals of a tree, in the order of the text. *)
Fixpoint numbers (c : cst) : list (list ascii) :=
  match c with
  | CNumber lit => [lit]
  | CNull | CTrue | CFalse | CString _ | CArray0 _ | CObject0 _ => []
  | CArray _ es => numbersElements es
  | CObject _ ms => numbersMembers ms
  end
with numbersElements (es : elements) : list (list ascii) :=
  match es with
  | ELast v _ => numbers v
  | ECons v _ _ es' => numbers v ++ numbersElements es'
  end
with numbersMembers (ms : members) : list (list ascii) :=
  match ms with
  | MLast _ _ _ v _ => numbers v
  | MCons _ _ _ v _ _ ms' => numbers v ++ numbersMembers ms'
  end.

(** A JSON text: [ws value ws]. *)
Definition text (w1 : list ascii) (c : cst) (w2 : list ascii) : list ascii :=
  w1 ++ render c ++ w2.

(** [data] is a text of the grammar, read byte by byte: syntactically
    valid JSON up to the encoding of its strings, which may hold bytes
    that are not UTF-8. *)
Definition Valid (data : list ascii) : Prop :=
  exists w1 c w2, ws w1 /\ wf c /\ ws w2 /\ data = text w1 c w2.

(** [data] is a JSON text by RFC 8259: a text of the grammar that is
    well-formed UTF-8. *)
Definition ValidJSON (data : list ascii) : Prop :=
  Valid data /\ exists rs, utf8.wellFormed data rs.

Section Meaning.

Variable float64 : Type.
Variable ParseFloat : list ascii -> option float64.

(** The string a literal stands for. *)
Definition unquoted (raw : list ascii) : list ascii :=
  match json.unquoteBody raw with
  | Some s => s
  | None => []
  end.

(** The value a tree stands for when decoded into an [any], and the
    error saved on the way (a number out of range leaves [nil] and saves
    an error): arrays in order, objects with the last value of a
    repeated key. *)
Fixpoint build (c : cst) (saved : option json.error)
  : json.any float64 * option json.error :=
  match c with
  | CNull => (json.Nil _, saved)
  | CTrue => (json.Bool _ true, saved)
  | CFalse => (json.Bool _ false, saved)
  | CNumber lit =>
    match ParseFloat lit with
    | Some f => (json.Float64 _ f, saved)
    | None => (json.Nil _, json.saveError saved (json.UnmarshalTypeError lit))
    end
  | CString raw => (json.Str _ (unquoted raw), saved)
  | CArray0 _ => (json.Slice _ [], saved)
  | CArray _ es =>
    let (l, saved') := buildElements es saved in (json.Slice _ l, saved')
  | CObject0 _ => (json.Map _ [], saved)
  | CObject _ ms =>
    let (m, saved') := buildMembers ms [] saved in (json.Map _ m, saved')
  end
with buildElements (es : elements) (saved : option json.error)
  : list (json.any float64) * option json.error :=
  match es with
  | ELast v _ => let (x, saved') := build v saved in ([x], saved')
  | ECons v _ _ es' =>
    let (x, saved1) := build v saved in
    let (l, saved2) := buildElements es' saved1 in
    (x :: l, saved2)
  end
with buildMembers (ms : members) (m : list (list ascii * json.any float64))
  (saved : option json.error)
  : list (list ascii * json.any float64) * option json.error :=
  match ms with
  | MLast key _ _ v _ =>
    let (x, saved') := build v saved in
    (json.mapassign _ m (unquoted key) x, saved')
  | MCons key _ _ v _ _ ms' =>
    let (x, saved1) := build v saved in
    buildMembers ms' (json.mapassign _ m (unquoted key) x) saved1
  end.

End Meaning.

End grammar.


(** ** bytes.Buffer, as far as [JSONConcat] uses it *)
Module Buffer.

(** The bytes written so far. *)
Definition t : Type := string.

(** [var b bytes.Buffer] *)
Definition empty : t := EmptyString.

(** [func (b *Buffer) WriteString(s string)] *)
Definition WriteString (b : t) (s : string) : t := (b ++ s)%string.

(** [func (b *Buffer) String() string] *)
Definition String (b : t) : string := b.

End Buffer.

(** ** package safehtml: json.go *)

(** [type JSON struct { str string }] *)
Record JSON : Type := mkJSON { str : string }.

(** The zero value [JSON{}]. *)
Definition zeroJSON : JSON := mkJSON EmptyString.

(** [func (h JSON) String() string] *)
Definition String (h : JSON) : string := str h.

(** [type stringConstant string] is declared in another file of the
    package: an unexported string type, so that only untyped string
    constants convert to it.  [string(c)] is the projection. *)
Record stringConstant : Type := mkStringConstant { stringOf : string }.

(** [func JSONFromConstant(str stringConstant) JSON] *)
Definition JSONFromConstant (c : stringConstant) : JSON :=
  mkJSON (stringOf c).

Section JSONFromValue.

Variable float64 : Type.
Variable ParseFloat : list ascii -> option float64.
Variable floatEncoder : float64 -> option (list ascii).

(** [func JSONFromValue(input string) (out JSON, err error)]: [out]
    starts as the zero value and is assigned only when both calls
    return a nil error. *)
Definition JSONFromValue (input : string) : JSON * option json.error :=
  let out := zeroJSON in
  let (x, err) := json.Unmarshal float64 ParseFloat
                    (list_ascii_of_string input) in
  match err with
  | Some e => (out, Some e)
  | None =>
    let (j, err) := json.Marshal float64 floatEncoder x in
    match err with
    | Some e => (out, Some e)
    | None => (mkJSON (string_of_list_ascii j), None)
    end
  end.

End JSONFromValue.

Section JSONEscaped.

(** The code points that are not legal in interchange (a range table
    of the package, declared in another file). *)
Variable controlAndNonCharacter : Z -> bool.

(** Modelled from the spec: [coerceToUTF8InterchangeValid] is declared
    in another file of the package.  The spec has it coerce the text to
    valid, interchange-safe UTF-8, replacing what is invalid.  The model
    reads the text rune by rune as a [range] loop does (an invalid byte
    reads as U+FFFD), replaces the code points of the table by U+FFFD,
    and encodes the runes again. *)
Definition coerceToUTF8InterchangeValid (s : string) : string :=
  string_of_list_ascii
    (utf8.stringOfRunes
       (map (fun r => if controlAndNonCharacter r then utf8.RuneError else r)
            (utf8.runes (list_ascii_of_string s)))).

(** [func JSONEscaped(text string) JSON] *)
Definition JSONEscaped (text : string) : JSON :=
  mkJSON (coerceToUTF8InterchangeValid text).

End JSONEscaped.

(** [func EmptyObjectJSON() JSON] *)
Definition EmptyObjectJSON : JSON := mkJSON "{}".

(** [func EmptyArrayJSON() JSON] *)
Definition EmptyArrayJSON : JSON := mkJSON "[]".

(** [func JSONConcat(jsons ...JSON) JSON]: the loop over [jsons]
    threads the buffer from left to right. *)
Definition JSONConcat (jsons : list JSON) : JSON :=
  mkJSON (Buffer.String
            (fold_left (fun b json => Buffer.WriteString b (String json))
                       jsons Buffer.empty)).

(** ** What the theorems compare the code with *)

(** The literal concatenation of strings, in order. *)
Fixpoint concatStrings (ss : list string) : string :=
  match ss with
  | [] => EmptyString
  | s :: rest => (s ++ concatStrings rest)%string
  end.

(** The byte [c] occurs in [s]. *)
Definition occurs (c : ascii) (s : string) : Prop :=
  In c (list_ascii_of_string s).

(** The Unicode control characters and noncharacters: a table for
    [controlAndNonCharacter]. *)
Definition unicodeControlAndNonCharacter (r : Z) : bool :=
  (r <? 0x20) || ((0x7F <=? r) && (r <=? 0x9F))
  || ((0xFDD0 <=? r) && (r <=? 0xFDEF))
  || (0xFFFE <=? Z.land r 0xFFFF).

(** Numbers kept as their literals (as [json.Number] does): an
    instance of the [strconv] parameters. *)
Definition literalParseFloat (lit : list ascii) : option (list ascii) :=
  Some lit.

Definition literalFloatEncoder (f : list ascii) : option (list ascii) :=
  Some f.

(** The characters an HTML or JSON escaper would rewrite. *)
Definition specials : string :=
  string_of_list_ascii
    ["&"; "<"; ">"; "'"; json.dquote; json.backslash]%char.



(** ** Predicates of the proofs *)

(** [s] is empty or starts with a byte that is no whitespace. *)
Definition noSpaceAhead (s : list ascii) : Prop :=
  match s with
  | [] => True
  | c :: _ => json.isSpace c = false
  end.

(** [s] is empty or starts with a byte that is no digit. *)
Definition noDigitAhead (s : list ascii) : Prop :=
  match s with
  | [] => True
  | c :: _ => json.isDigit c = false
  end.

(** A byte that ends a value: whitespace, a comma, or a closing bracket
    or brace. *)
Definition isDelimiter (c : ascii) : bool :=
  json.isSpace c || (c =? ",")%char || (c =? "]")%char || (c =? "}")%char.

(** [s] is empty or starts with a delimiter. *)
Definition delimited (s : list ascii) : Prop :=
  match s with
  | [] => True
  | c :: _ => isDelimiter c = true
  end.

(** The three characters that [escapeHTML] keeps out of the output. *)
Definition isHTMLChar (c : ascii) : bool :=
  (c =? "<")%char || (c =? ">")%char || (c =? "&")%char.

(** What [appendString] writes for one well-formed sequence [u] of
    value [r]. *)
Definition quoteRune (u : list ascii) (r : Z) : list ascii :=
  match u with
  | [c] => if json.htmlSafeSet c then [c] else json.escapeByte c
  | _ =>
    if (r =? 0x2028) || (r =? 0x2029)
    then json.la "\u202" ++ [json.hex (Z.land r 0xF)]
    else u
  end.

(** Well-formed UTF-8 with neither U+2028 nor U+2029 among its code
    points, and with no control byte below [0x20]. *)
Definition cleanText (b : list ascii) : Prop :=
  (exists rs,
     utf8.wellFormed b rs
     /\ Forall (fun r => r <> 0x2028 /\ r <> 0x2029) rs)
  /\ Forall (fun c => 0x20 <= byteZ c) b.

(** [n + 1] slices, one inside the other: the value of [nestedArray n]. *)
Fixpoint nestedSlice (float64 : Type) (n : nat) : json.any float64 :=
  match n with
  | O => json.Slice _ []
  | S n' => json.Slice _ [nestedSlice float64 n']
  end.

(** The calls the decoder makes, one inside the other, to read a tree:
    a bound on the fuel it takes. *)
Fixpoint need (c : grammar.cst) : nat :=
  match c with
  | grammar.CArray _ es => S (needElements es)
  | grammar.CObject _ ms => S (needMembers ms)
  | _ => 1
  end
with needElements (es : grammar.elements) : nat :=
  match es with
  | grammar.ELast v _ => S (need v)
  | grammar.ECons v _ _ es' => S (Nat.max (need v) (needElements es'))
  end
with needMembers (ms : grammar.members) : nat :=
  match ms with
  | grammar.MLast _ _ _ v _ => S (need v)
  | grammar.MCons _ _ _ v _ _ ms' => S (Nat.max (need v) (needMembers ms'))
  end.

(** The order of the entries of a map: by key, byte-wise. *)
Definition keyLt {V : Type} (a b : list ascii * V) : Prop :=
  json.compareBytes (fst a) (fst b) = Lt.

Section Values.

Variable float64 : Type.
Variable ParseFloat : list ascii -> option float64.

(** The values [Unmarshal] stores with a nil error: numbers read from
    number literals, strings of well-formed UTF-8, maps with their
    entries in the strict order of the keys. *)
Inductive good : json.any float64 -> Prop :=
| good_nil : good (json.Nil _)
| good_bool b : good (json.Bool _ b)
| good_float f lit :
    grammar.numberLit lit -> ParseFloat lit = Some f ->
    good (json.Float64 _ f)
| good_str s rs : utf8.wellFormed s rs -> good (json.Str _ s)
| good_slice l : Forall good l -> good (json.Slice _ l)
| good_map m :
    Sorted.StronglySorted keyLt m ->
    Forall (fun kv => (exists rs, utf8.wellFormed (fst kv) rs)
                      /\ good (snd kv)) m ->
    good (json.Map _ m).

(** The nesting depth of a value. *)
Fixpoint depthAny (x : json.any float64) : Z :=
  match x with
  | json.Slice _ l => 1 + fold_right (fun y d => Z.max (depthAny y) d) 0 l
  | json.Map _ m =>
    1 + fold_right (fun kv d => Z.max (depthAny (snd kv)) d) 0 m
  | _ => 0
  end.

(** What the three functions of the decoder return is read from a
    tree of the grammar: the statements of the soundness proof, by the
    fuel. *)
Definition soundValue (fuel : nat) : Prop :=
  forall d saved s v saved' rest,
    0 <= d <= json.maxNestingDepth ->
    json.value float64 ParseFloat fuel d saved s = inr (v, saved', rest) ->
    exists c,
      grammar.wf c /\ s = grammar.render c ++ rest /\
      grammar.build float64 ParseFloat c saved = (v, saved') /\
      d + grammar.depth c <= json.maxNestingDepth.

Definition soundArray (fuel : nat) : Prop :=
  forall d saved acc s v saved' rest,
    0 <= d <= json.maxNestingDepth ->
    json.arrayRest float64 ParseFloat fuel d saved acc s
    = inr (v, saved', rest) ->
    exists es l,
      grammar.wfElements es /\
      s = grammar.renderElements es ++ "]"%char :: rest /\
      grammar.buildElements float64 ParseFloat es saved = (l, saved') /\
      v = json.Slice _ (acc ++ l) /\
      d + grammar.depthElements es <= json.maxNestingDepth.

Definition soundObject (fuel : nat) : Prop :=
  forall d saved m s v saved' rest,
    0 <= d <= json.maxNestingDepth ->
    json.objectRest float64 ParseFloat fuel d saved m s
    = inr (v, saved', rest) ->
    exists ms m',
      grammar.wfMembers ms /\
      s = grammar.renderMembers ms ++ "}"%char :: rest /\
      grammar.buildMembers float64 ParseFloat ms m saved = (m', saved') /\
      v = json.Map _ m' /\
      d + grammar.depthMembers ms <= json.maxNestingDepth.

(** The error saved while a tree is built: the [UnmarshalTypeError] of
    the first number literal that [ParseFloat] refuses. *)
Definition rangeError (lits : list (list ascii)) : option json.error :=
  match find (fun lit => match ParseFloat lit with
                         | None => true
                         | Some _ => false
                         end) lits with
  | Some lit => Some (json.UnmarshalTypeError lit)
  | None => None
  end.

End Values.

(** The trees of the literals: no array, no object. *)
Definition isLiteral (c : grammar.cst) : Prop :=
  match c with
  | grammar.CNull | grammar.CTrue | grammar.CFalse
  | grammar.CNumber _ | grammar.CString _ => True
  | _ => False
  end.

Section Encoding.

Variable float64 : Type.
Variable ParseFloat : list ascii -> option float64.
Variable floatEncoder : float64 -> option (list ascii).

(** What the codec relies on from [strconv]: the float read from a
    number literal is written as a number literal that reads as the same
    float ([ParseFloat] refuses what is out of range, and the float
    encoder writes the shortest text that reads back). *)
Definition floatContract : Prop :=
  forall lit f,
    grammar.numberLit lit -> ParseFloat lit = Some f ->
    exists out,
      floatEncoder f = Some out /\ grammar.numberLit out
      /\ ParseFloat out = Some f.

(** [x] is encoded as the text of the tree [c]: a tree of the grammar
    that builds [x], as deep as [x], with none of the bytes [<], [>] and
    [&]. *)
Definition encodesAs (x : json.any float64) (c : grammar.cst) : Prop :=
  json.encode float64 floatEncoder x = inr (grammar.render c)
  /\ grammar.wf c
  /\ grammar.build float64 ParseFloat c None = (x, None)
  /\ grammar.depth c = depthAny float64 x
  /\ Forall (fun ch => isHTMLChar ch = false) (grammar.render c).

End Encoding.

(** [n + 1] arrays, one inside the other. *)
Fixpoint nestedArray (n : nat) : grammar.cst :=
  match n with
  | O => grammar.CArray0 []
  | S n' => grammar.CArray [] (grammar.ELast (nestedArray n') [])
  end.

(** The text of 10001 arrays, one inside the other. *)
Definition deepArray : string :=
  string_of_list_ascii (repeat "["%char 10001 ++ repeat "]"%char 10001).

(** A text with whitespace, keys out of order, a number with a fraction
    and an exponent, and the byte [<] in a string; and its tree. *)
Definition sampleTree : grammar.cst :=
  grammar.CObject [" "%char]
    (grammar.MCons (json.la "b") [] [" "%char]
       (grammar.CArray []
          (grammar.ECons (grammar.CNumber (json.la "-1.5e3")) [] [" "%char]
             (grammar.ELast (grammar.CString (json.la "a<b")) [])))
       [] [" "%char]
       (grammar.MLast (json.la "a") [] [] grammar.CNull [" "%char])).

Definition sampleText : string :=
  string_of_list_ascii (grammar.text [" "%char] sampleTree ["010"%char]).

(** Numbers kept as their literals, those of more than four bytes
    refused: an instance of [ParseFloat] with a range. *)
Definition boundedParseFloat (lit : list ascii) : option (list ascii) :=
  if (List.length lit <=? 4)%nat then Some lit else None.

(** An array whose second and third numbers [boundedParseFloat]
    refuses; and its tree. *)
Definition rangeTree : grammar.cst :=
  grammar.CArray []
    (grammar.ECons (grammar.CNumber (json.la "1")) [] []
       (grammar.ECons (grammar.CNumber (json.la "1e400")) [] []
          (grammar.ELast (grammar.CNumber (json.la "2e500")) []))).

Definition rangeText : string := "[1,1e400,2e500]".

(** A string of one byte that is not UTF-8. *)
Definition invalidUTF8Text : string :=
  string_of_list_ascii [json.dquote; "255"%char; json.dquote].


(** * Proofs *)

(** ** Bytes and bit operations as arithmetic *)

Local Open Scope Z_scope.

Lemma byteZ_range (c : ascii) : 0 <= byteZ c < 256.
Proof.
  unfold byteZ. pose proof (N_ascii_bounded c) as H.
  split; [apply N2Z.is_nonneg|].
  change 256 with (Z.of_N 256). now apply N2Z.inj_lt.
Qed.

Lemma Zbyte_byteZ (c : ascii) : Zbyte (byteZ c) = c.
Proof.
  unfold Zbyte. rewrite Z.mod_small by apply byteZ_range.
  unfold byteZ. rewrite N2Z.id. apply ascii_N_embedding.
Qed.

Lemma byteZ_Zbyte (z : Z) : byteZ (Zbyte z) = z mod 256.
Proof.
  unfold byteZ, Zbyte.
  assert (0 <= z mod 256 < 256) as H by (apply Z.mod_pos_bound; lia).
  rewrite N_ascii_embedding.
  - rewrite Z2N.id; lia.
  - change 256%N with (Z.to_N 256). apply Z2N.inj_lt; lia.
Qed.

Lemma byteZ_inj (c d : ascii) : byteZ c = byteZ d -> c = d.
Proof.
  intros H. rewrite <- (Zbyte_byteZ c), <- (Zbyte_byteZ d). now rewrite H.
Qed.

(** [x & (2^k - 1)] keeps the low [k] bits. *)
Lemma land_low (x k : Z) : 0 <= k -> Z.land x (2 ^ k - 1) = x mod 2 ^ k.
Proof.
  intros Hk. rewrite <- Z.land_ones by assumption.
  f_equal. rewrite Z.ones_equiv. lia.
Qed.

(** Or-ing a value below [2^k] into a multiple of [2^k] adds it. *)
Lemma lor_high_low (a b k : Z) :
  0 <= k -> 0 <= b < 2 ^ k -> Z.lor (a * 2 ^ k) b = a * 2 ^ k + b.
Proof.
  intros Hk Hb.
  assert (Z.land (a * 2 ^ k) b = 0) as H0.
  { apply Z.bits_inj'. intros n Hn. rewrite Z.land_spec, Z.bits_0.
    destruct (Z.lt_ge_cases n k) as [Hlt | Hge].
    - rewrite Z.mul_pow2_bits_low by assumption. reflexivity.
    - rewrite andb_comm.
      destruct (Z.eq_dec b 0) as [-> | Hnz]; [now rewrite Z.bits_0|].
      rewrite Z.bits_above_log2; [reflexivity | lia |].
      assert (2 ^ k <= 2 ^ n) by (apply Z.pow_le_mono_r; lia).
      apply Z.log2_lt_pow2; lia. }
  rewrite <- Z.lxor_lor by assumption.
  symmetry. now apply Z.add_nocarry_lxor.
Qed.

Lemma lor_low (x b k : Z) :
  0 <= k -> x mod 2 ^ k = 0 -> 0 <= b < 2 ^ k -> Z.lor x b = x + b.
Proof.
  intros Hk Hx Hb.
  assert (0 < 2 ^ k) by (apply Z.pow_pos_nonneg; lia).
  rewrite (Z.div_mod x (2 ^ k)) by lia.
  rewrite Hx, Z.add_0_r, (Z.mul_comm (2 ^ k)).
  now apply lor_high_low.
Qed.

Lemma shiftl_mul (a k : Z) : 0 <= k -> Z.shiftl a k = a * 2 ^ k.
Proof. intros. now apply Z.shiftl_mul_pow2. Qed.

Lemma shiftr_div (a k : Z) : 0 <= k -> Z.shiftr a k = a / 2 ^ k.
Proof. intros. now apply Z.shiftr_div_pow2. Qed.

(** The bit operations of the UTF-8 codec, on the ranges they are used
    at, in terms of [+], [*], [/] and [mod]. *)
Lemma land_maskx (x : Z) : Z.land x utf8.maskx = x mod 64.
Proof. exact (land_low x 6 ltac:(lia)). Qed.

Lemma land_mask2 (x : Z) : Z.land x utf8.mask2 = x mod 32.
Proof. exact (land_low x 5 ltac:(lia)). Qed.

Lemma land_mask3 (x : Z) : Z.land x utf8.mask3 = x mod 16.
Proof. exact (land_low x 4 ltac:(lia)). Qed.

Lemma land_mask4 (x : Z) : Z.land x utf8.mask4 = x mod 8.
Proof. exact (land_low x 3 ltac:(lia)). Qed.

Lemma land_7 (x : Z) : Z.land x 7 = x mod 8.
Proof. exact (land_low x 3 ltac:(lia)). Qed.

Lemma lor_tx (y : Z) : 0 <= y < 64 -> Z.lor utf8.tx y = 128 + y.
Proof. intros. exact (lor_high_low 2 y 6 ltac:(lia) ltac:(lia)). Qed.

Lemma lor_t2 (y : Z) : 0 <= y < 32 -> Z.lor utf8.t2 y = 192 + y.
Proof. intros. exact (lor_high_low 6 y 5 ltac:(lia) ltac:(lia)). Qed.

Lemma lor_t3 (y : Z) : 0 <= y < 16 -> Z.lor utf8.t3 y = 224 + y.
Proof. intros. exact (lor_high_low 14 y 4 ltac:(lia) ltac:(lia)). Qed.

Lemma lor_t4 (y : Z) : 0 <= y < 8 -> Z.lor utf8.t4 y = 240 + y.
Proof. intros. exact (lor_high_low 30 y 3 ltac:(lia) ltac:(lia)). Qed.

Lemma lor_shift6 (a b : Z) :
  0 <= b < 64 -> Z.lor (Z.shiftl a 6) b = a * 64 + b.
Proof.
  intros. rewrite shiftl_mul by lia.
  exact (lor_high_low a b 6 ltac:(lia) ltac:(lia)).
Qed.

Lemma lor_shift12 (a b : Z) :
  0 <= b < 4096 -> Z.lor (Z.shiftl a 12) b = a * 4096 + b.
Proof.
  intros. rewrite shiftl_mul by lia.
  exact (lor_high_low a b 12 ltac:(lia) ltac:(lia)).
Qed.

Lemma lor_shift18 (a b : Z) :
  0 <= b < 262144 -> Z.lor (Z.shiftl a 18) b = a * 262144 + b.
Proof.
  intros. rewrite shiftl_mul by lia.
  exact (lor_high_low a b 18 ltac:(lia) ltac:(lia)).
Qed.

(** ** The UTF-8 codec against the Unicode Standard's table *)

Ltac cmp_cases :=
  repeat match goal with
  | |- context [?a <? ?b] => destruct (Z.ltb_spec a b)
  | |- context [?a <=? ?b] => destruct (Z.leb_spec a b)
  | |- context [?a =? ?b] => destruct (Z.eqb_spec a b)
  end.

Ltac arith := Z.div_mod_to_equations; lia.

Lemma first_ascii (b : Z) : b < 0x80 -> utf8.first b = utf8.as_.
Proof. intros. unfold utf8.first. cmp_cases; lia. Qed.

Lemma first_2 (b : Z) : 0xC2 <= b <= 0xDF -> utf8.first b = utf8.s1.
Proof. intros. unfold utf8.first. cmp_cases; lia. Qed.

Lemma first_3 (b : Z) :
  0xE0 <= b <= 0xEF ->
  utf8.first b = (if b =? 0xE0 then utf8.s2
                  else if b =? 0xED then utf8.s4 else utf8.s3).
Proof. intros. unfold utf8.first. cmp_cases; lia. Qed.

Lemma first_4 (b : Z) :
  0xF0 <= b <= 0xF4 ->
  utf8.first b = (if b =? 0xF0 then utf8.s5
                  else if b =? 0xF4 then utf8.s7 else utf8.s6).
Proof. intros. unfold utf8.first. cmp_cases; lia. Qed.

Lemma first_invalid (b : Z) :
  0x80 <= b < 0xC2 \/ 0xF5 <= b -> utf8.first b = utf8.xx.
Proof. intros. unfold utf8.first. cmp_cases; lia. Qed.

(** Reduce what [DecodeRune] computes from the table entry [x]. *)
Ltac first_consts x :=
  let b := eval vm_compute in (utf8.as_ <=? x) in
  change (utf8.as_ <=? x) with b;
  let sz := eval vm_compute in (Z.to_nat (Z.land x 7)) in
  change (Z.to_nat (Z.land x 7)) with sz;
  let ar := eval vm_compute in (utf8.acceptRanges (Z.shiftr x 4)) in
  change (utf8.acceptRanges (Z.shiftr x 4)) with ar;
  cbn [fst snd Nat.ltb Nat.leb List.length nth app].

Ltac decode_unfold :=
  unfold utf8.DecodeRune, utf8.at_; cbv zeta;
  cbn [app List.length Nat.ltb Nat.leb nth].

Ltac take_branch :=
  unfold utf8.locb, utf8.hicb; cmp_cases; cbn [orb andb negb]; try lia.

(** [DecodeRune] reads a well-formed sequence as the table says. *)
Lemma DecodeRune_wf (u : list ascii) (r : Z) (rest : list ascii) :
  utf8.wellFormed1 u r ->
  utf8.DecodeRune (u ++ rest) = (r, List.length u).
Proof.
  intros H. destruct H as
    [c0 H0 | c0 c1 H0 H1 | c0 c1 c2 H0 H1 Hlo Hhi H2
     | c0 c1 c2 c3 H0 H1 Hlo Hhi H2 H3];
  pose proof (byteZ_range c0) as R0; decode_unfold.
  - rewrite first_ascii by lia. first_consts utf8.as_.
    change (Z.shiftr (int32 (Z.shiftl utf8.as_ 31)) 31) with 0.
    now rewrite Z.ldiff_0_r, Z.land_0_r, Z.lor_0_r.
  - rewrite first_2 by lia. first_consts utf8.s1. take_branch.
    rewrite land_mask2, land_maskx, lor_shift6 by arith.
    f_equal. arith.
  - rewrite first_3 by lia.
    assert (0 <= byteZ c1 mod 64 < 64) by arith.
    assert (0 <= byteZ c2 mod 64 < 64) by arith.
    destruct (Z.eqb_spec (byteZ c0) 0xE0);
      [first_consts utf8.s2
      | destruct (Z.eqb_spec (byteZ c0) 0xED);
        [first_consts utf8.s4 | first_consts utf8.s3]];
    take_branch;
    rewrite land_mask3, !land_maskx, (shiftl_mul _ 6), lor_shift12,
      (lor_low _ _ 6) by arith;
    f_equal; arith.
  - rewrite first_4 by lia.
    assert (0 <= byteZ c1 mod 64 < 64) by arith.
    assert (0 <= byteZ c2 mod 64 < 64) by arith.
    assert (0 <= byteZ c3 mod 64 < 64) by arith.
    destruct (Z.eqb_spec (byteZ c0) 0xF0);
      [first_consts utf8.s5
      | destruct (Z.eqb_spec (byteZ c0) 0xF4);
        [first_consts utf8.s7 | first_consts utf8.s6]];
    take_branch;
    rewrite land_mask4, !land_maskx, (shiftl_mul _ 6), (shiftl_mul _ 12),
      lor_shift18, (lor_low _ (_ * 2 ^ 6) 12), (lor_low _ _ 6) by arith;
    f_equal; arith.
Qed.

(** The rows of [first]. *)
Lemma first_cases (b : Z) :
  0 <= b < 256 ->
  (b <= 0x7F /\ utf8.first b = utf8.as_) \/
  ((0x80 <= b < 0xC2 \/ 0xF5 <= b) /\ utf8.first b = utf8.xx) \/
  (0xC2 <= b <= 0xDF /\ utf8.first b = utf8.s1) \/
  (b = 0xE0 /\ utf8.first b = utf8.s2) \/
  ((0xE1 <= b <= 0xEC \/ 0xEE <= b <= 0xEF) /\ utf8.first b = utf8.s3) \/
  (b = 0xED /\ utf8.first b = utf8.s4) \/
  (b = 0xF0 /\ utf8.first b = utf8.s5) \/
  (0xF1 <= b <= 0xF3 /\ utf8.first b = utf8.s6) \/
  (b = 0xF4 /\ utf8.first b = utf8.s7).
Proof.
  intros Hb. unfold utf8.first. cmp_cases; intuition lia.
Qed.

Ltac split_range lo b hi :=
  destruct (Z_lt_le_dec b lo); [| destruct (Z_lt_le_dec hi b)].

(** A branch of [DecodeRune] that rejects. *)
Ltac rejects Hf x :=
  right; decode_unfold; rewrite Hf; first_consts x; take_branch; reflexivity.

(** Every non-empty string starts with a well-formed sequence, or
    [DecodeRune] reports an invalid byte. *)
Lemma DecodeRune_cases (s : list ascii) :
  s <> [] ->
  (exists u rest r, s = u ++ rest /\ utf8.wellFormed1 u r) \/
  utf8.DecodeRune s = (utf8.RuneError, 1%nat).
Proof.
  destruct s as [| c0 s]; [congruence | intros _].
  pose proof (byteZ_range c0) as R0.
  destruct (first_cases (byteZ c0) R0)
    as [[H0 Hf] | [[H0 Hf] | [[H0 Hf] | [[H0 Hf] | [[H0 Hf]
       | [[H0 Hf] | [[H0 Hf] | [[H0 Hf] | [H0 Hf]]]]]]]]].
  - left. exists [c0], s, (byteZ c0). split; [reflexivity | now constructor].
  - right. decode_unfold. rewrite Hf. first_consts utf8.xx.
    change (Z.shiftr (int32 (Z.shiftl utf8.xx 31)) 31) with (-1).
    rewrite Z.ldiff_m1_r. reflexivity.
  - destruct s as [| c1 s]; [rejects Hf utf8.s1 |].
    split_range 0x80 (byteZ c1) 0xBF; try rejects Hf utf8.s1.
    left. exists [c0; c1], s. eexists. split; [reflexivity |].
    constructor; lia.
  - destruct s as [| c1 [| c2 s]]; try rejects Hf utf8.s2.
    split_range 0xA0 (byteZ c1) 0xBF; try rejects Hf utf8.s2.
    split_range 0x80 (byteZ c2) 0xBF; try rejects Hf utf8.s2.
    left. exists [c0; c1; c2], s. eexists. split; [reflexivity |].
    constructor; lia.
  - destruct s as [| c1 [| c2 s]]; try rejects Hf utf8.s3.
    split_range 0x80 (byteZ c1) 0xBF; try rejects Hf utf8.s3.
    split_range 0x80 (byteZ c2) 0xBF; try rejects Hf utf8.s3.
    left. exists [c0; c1; c2], s. eexists. split; [reflexivity |].
    constructor; lia.
  - destruct s as [| c1 [| c2 s]]; try rejects Hf utf8.s4.
    split_range 0x80 (byteZ c1) 0x9F; try rejects Hf utf8.s4.
    split_range 0x80 (byteZ c2) 0xBF; try rejects Hf utf8.s4.
    left. exists [c0; c1; c2], s. eexists. split; [reflexivity |].
    constructor; lia.
  - destruct s as [| c1 [| c2 [| c3 s]]]; try rejects Hf utf8.s5.
    split_range 0x90 (byteZ c1) 0xBF; try rejects Hf utf8.s5.
    split_range 0x80 (byteZ c2) 0xBF; try rejects Hf utf8.s5.
    split_range 0x80 (byteZ c3) 0xBF; try rejects Hf utf8.s5.
    left. exists [c0; c1; c2; c3], s. eexists. split; [reflexivity |].
    constructor; lia.
  - destruct s as [| c1 [| c2 [| c3 s]]]; try rejects Hf utf8.s6.
    split_range 0x80 (byteZ c1) 0xBF; try rejects Hf utf8.s6.
    split_range 0x80 (byteZ c2) 0xBF; try rejects Hf utf8.s6.
    split_range 0x80 (byteZ c3) 0xBF; try rejects Hf utf8.s6.
    left. exists [c0; c1; c2; c3], s. eexists. split; [reflexivity |].
    constructor; lia.
  - destruct s as [| c1 [| c2 [| c3 s]]]; try rejects Hf utf8.s7.
    split_range 0x80 (byteZ c1) 0x8F; try rejects Hf utf8.s7.
    split_range 0x80 (byteZ c2) 0xBF; try rejects Hf utf8.s7.
    split_range 0x80 (byteZ c3) 0xBF; try rejects Hf utf8.s7.
    left. exists [c0; c1; c2; c3], s. eexists. split; [reflexivity |].
    constructor; lia.
Qed.

Lemma DecodeRune_inv (s : list ascii) (r : Z) (n : nat) :
  s <> [] ->
  utf8.DecodeRune s = (r, n) ->
  (r = utf8.RuneError /\ n = 1%nat) \/
  (exists u rest, s = u ++ rest /\ utf8.wellFormed1 u r /\ n = List.length u).
Proof.
  intros Hs Hd.
  destruct (DecodeRune_cases s Hs) as [(u & rest & r' & -> & Hwf) | Hbad].
  - right. exists u, rest. rewrite (DecodeRune_wf u r' rest Hwf) in Hd.
    inversion Hd; subst. auto.
  - left. rewrite Hbad in Hd. inversion Hd; auto.
Qed.

Lemma wellFormed1_length (u : list ascii) (r : Z) :
  utf8.wellFormed1 u r -> (1 <= List.length u <= 4)%nat.
Proof. destruct 1; cbn; lia. Qed.

(** A well-formed sequence encodes a scalar value. *)
Lemma wellFormed1_scalar (u : list ascii) (r : Z) :
  utf8.wellFormed1 u r -> utf8.scalar r.
Proof.
  unfold utf8.scalar, utf8.MaxRune, utf8.surrogateMin, utf8.surrogateMax.
  destruct 1 as [c0 H0 | c0 c1 H0 H1 | c0 c1 c2 H0 H1 Hlo Hhi H2
                | c0 c1 c2 c3 H0 H1 Hlo Hhi H2 H3];
    pose proof (byteZ_range c0); lia.
Qed.

Ltac byte_eq c := rewrite <- (Zbyte_byteZ c) at 1; f_equal.

(** [EncodeRune] writes the well-formed sequence of the value. *)
Lemma EncodeRune_wf (u : list ascii) (r : Z) :
  utf8.wellFormed1 u r -> utf8.EncodeRune r = u.
Proof.
  intros H.
  destruct H as [c0 H0 | c0 c1 H0 H1 | c0 c1 c2 H0 H1 Hlo Hhi H2
                | c0 c1 c2 c3 H0 H1 Hlo Hhi H2 H3];
    pose proof (byteZ_range c0) as R0; unfold utf8.EncodeRune; cbv zeta;
    unfold utf8.rune1Max, utf8.rune2Max, utf8.rune3Max, utf8.MaxRune,
      utf8.surrogateMin, utf8.surrogateMax;
    match goal with |- context [?r mod 2 ^ 32] =>
      rewrite (Z.mod_small r (2 ^ 32)) by lia end.
  - take_branch. now rewrite Zbyte_byteZ.
  - take_branch. f_equal; [| f_equal].
    + symmetry. byte_eq c0. symmetry.
      rewrite byteZ_Zbyte, shiftr_div, lor_t2 by arith. arith.
    + symmetry. byte_eq c1. symmetry.
      rewrite byteZ_Zbyte, land_maskx, lor_tx by arith. arith.
  - take_branch; (f_equal; [| f_equal; [| f_equal]]).
    all: try (symmetry; byte_eq c0; symmetry;
              rewrite byteZ_Zbyte, shiftr_div, lor_t3 by arith; arith).
    all: try (symmetry; byte_eq c1; symmetry;
              rewrite byteZ_Zbyte, shiftr_div, land_maskx, lor_tx by arith;
              arith).
    all: try (symmetry; byte_eq c2; symmetry;
              rewrite byteZ_Zbyte, land_maskx, lor_tx by arith; arith).
  - take_branch; (f_equal; [| f_equal; [| f_equal; [| f_equal]]]).
    all: try (symmetry; byte_eq c0; symmetry;
              rewrite byteZ_Zbyte, shiftr_div, lor_t4 by arith; arith).
    all: try (symmetry; byte_eq c1; symmetry;
              rewrite byteZ_Zbyte, shiftr_div, land_maskx, lor_tx by arith;
              arith).
    all: try (symmetry; byte_eq c2; symmetry;
              rewrite byteZ_Zbyte, shiftr_div, land_maskx, lor_tx by arith;
              arith).
    all: try (symmetry; byte_eq c3; symmetry;
              rewrite byteZ_Zbyte, land_maskx, lor_tx by arith; arith).
Qed.

(** Every scalar value has a well-formed sequence. *)
Lemma scalar_wellFormed1 (r : Z) :
  utf8.scalar r -> exists u, utf8.wellFormed1 u r.
Proof.
  unfold utf8.scalar, utf8.MaxRune, utf8.surrogateMin, utf8.surrogateMax.
  intros [Hr Hs].
  destruct (Z_le_gt_dec r 0x7F);
    [| destruct (Z_le_gt_dec r 0x7FF); [| destruct (Z_le_gt_dec r 0xFFFF)]].
  - exists [Zbyte r].
    replace r with (byteZ (Zbyte r)) at 2 by (rewrite byteZ_Zbyte; arith).
    constructor. rewrite byteZ_Zbyte; arith.
  - exists [Zbyte (0xC0 + r / 64); Zbyte (0x80 + r mod 64)].
    match goal with |- utf8.wellFormed1 [?a; ?b] _ =>
      replace r with ((byteZ a - 0xC0) * 64 + (byteZ b - 0x80)) at 3
        by (rewrite !byteZ_Zbyte; arith) end.
    constructor; rewrite byteZ_Zbyte; arith.
  - exists [Zbyte (0xE0 + r / 4096); Zbyte (0x80 + (r / 64) mod 64);
            Zbyte (0x80 + r mod 64)].
    match goal with |- utf8.wellFormed1 [?a; ?b; ?c] _ =>
      replace r with ((byteZ a - 0xE0) * 4096 + (byteZ b - 0x80) * 64
                      + (byteZ c - 0x80)) at 4
        by (rewrite !byteZ_Zbyte; arith) end.
    constructor; rewrite ?byteZ_Zbyte; arith.
  - exists [Zbyte (0xF0 + r / 262144); Zbyte (0x80 + (r / 4096) mod 64);
            Zbyte (0x80 + (r / 64) mod 64); Zbyte (0x80 + r mod 64)].
    match goal with |- utf8.wellFormed1 [?a; ?b; ?c; ?d] _ =>
      replace r with ((byteZ a - 0xF0) * 262144 + (byteZ b - 0x80) * 4096
                      + (byteZ c - 0x80) * 64 + (byteZ d - 0x80)) at 5
        by (rewrite !byteZ_Zbyte; arith) end.
    constructor; rewrite ?byteZ_Zbyte; arith.
Qed.

Lemma EncodeRune_scalar (r : Z) :
  utf8.scalar r -> utf8.wellFormed1 (utf8.EncodeRune r) r.
Proof.
  intros H. destruct (scalar_wellFormed1 r H) as [u Hu].
  now rewrite (EncodeRune_wf u r Hu).
Qed.

(** The codec round trip on scalar values. *)
Lemma DecodeRune_EncodeRune (r : Z) (rest : list ascii) :
  utf8.scalar r ->
  utf8.DecodeRune (utf8.EncodeRune r ++ rest)
  = (r, List.length (utf8.EncodeRune r)).
Proof. intros H. apply DecodeRune_wf. now apply EncodeRune_scalar. Qed.

Lemma scalar_RuneError : utf8.scalar utf8.RuneError.
Proof.
  unfold utf8.scalar, utf8.RuneError, utf8.MaxRune, utf8.surrogateMin,
    utf8.surrogateMax. lia.
Qed.

(** A rune that is no scalar value (as an [int32]) is encoded as
    [RuneError]. *)
Lemma EncodeRune_invalid (r : Z) :
  - 2 ^ 31 <= r < 2 ^ 31 -> ~ utf8.scalar r ->
  utf8.EncodeRune r = utf8.EncodeRune utf8.RuneError.
Proof.
  unfold utf8.scalar, utf8.MaxRune, utf8.surrogateMin, utf8.surrogateMax.
  intros Hr Hs. unfold utf8.EncodeRune at 1. cbv zeta.
  unfold utf8.rune1Max, utf8.rune2Max, utf8.rune3Max, utf8.MaxRune,
    utf8.surrogateMin, utf8.surrogateMax.
  destruct (Z_lt_le_dec r 0).
  - replace (r mod 2 ^ 32) with (r + 2 ^ 32) by arith.
    take_branch. reflexivity.
  - rewrite Z.mod_small by lia. take_branch; reflexivity.
Qed.

(** [DecodeRune] always yields a scalar value, and a width within the
    string. *)
Lemma DecodeRune_scalar (s : list ascii) :
  utf8.scalar (fst (utf8.DecodeRune s)).
Proof.
  destruct s as [| c s]; [apply scalar_RuneError |].
  destruct (utf8.DecodeRune (c :: s)) as [r n] eqn:E.
  destruct (DecodeRune_inv (c :: s) r n ltac:(discriminate) E)
    as [[-> _] | (u & rest & _ & Hwf & _)]; cbn.
  - apply scalar_RuneError.
  - eapply wellFormed1_scalar; eassumption.
Qed.

Lemma DecodeRune_width (s : list ascii) :
  s <> [] ->
  (1 <= snd (utf8.DecodeRune s) <= List.length s)%nat.
Proof.
  intros Hs. destruct (utf8.DecodeRune s) as [r n] eqn:E.
  destruct (DecodeRune_inv s r n Hs E)
    as [[_ ->] | (u & rest & -> & Hwf & ->)]; cbn.
  - destruct s; [congruence | cbn; lia].
  - pose proof (wellFormed1_length u r Hwf). rewrite length_app. lia.
Qed.

(** ** Strings of well-formed sequences *)

Ltac valid_consts x :=
  let b := eval vm_compute in (x =? utf8.xx) in
  change (x =? utf8.xx) with b;
  let sz := eval vm_compute in (Z.to_nat (Z.land x 7)) in
  change (Z.to_nat (Z.land x 7)) with sz;
  let ar := eval vm_compute in (utf8.acceptRanges (Z.shiftr x 4)) in
  change (utf8.acceptRanges (Z.shiftr x 4)) with ar;
  unfold utf8.at_;
  cbn [fst snd Nat.ltb Nat.leb Nat.eqb List.length nth app skipn].

Lemma validFrom_unfold (fuel : nat) (c : ascii) (rest : list ascii) :
  utf8.validFrom (S fuel) (c :: rest) =
  let s := c :: rest in
  let si := byteZ c in
  if si <? utf8.RuneSelf then utf8.validFrom fuel rest else
  let x := utf8.first si in
  if x =? utf8.xx then false else
  let size := Z.to_nat (Z.land x 7) in
  if (List.length s <? size)%nat then false else
  let accept := utf8.acceptRanges (Z.shiftr x 4) in
  let c1 := utf8.at_ s 1 in
  if (c1 <? fst accept) || (snd accept <? c1) then false
  else if (size =? 2)%nat then utf8.validFrom fuel (skipn size s)
  else
    let c2 := utf8.at_ s 2 in
    if (c2 <? utf8.locb) || (utf8.hicb <? c2) then false
    else if (size =? 3)%nat then utf8.validFrom fuel (skipn size s)
    else
      let c3 := utf8.at_ s 3 in
      if (c3 <? utf8.locb) || (utf8.hicb <? c3) then false
      else utf8.validFrom fuel (skipn size s).
Proof. reflexivity. Qed.

(** One step of [ValidString] over a well-formed sequence. *)
Lemma validFrom_wf1 (fuel : nat) (u : list ascii) (r : Z) (s : list ascii) :
  utf8.wellFormed1 u r ->
  utf8.validFrom (S fuel) (u ++ s) = utf8.validFrom fuel s.
Proof.
  intros H. destruct H as
    [c0 H0 | c0 c1 H0 H1 | c0 c1 c2 H0 H1 Hlo Hhi H2
     | c0 c1 c2 c3 H0 H1 Hlo Hhi H2 H3];
  pose proof (byteZ_range c0) as R0;
  cbn [app]; rewrite validFrom_unfold; cbv zeta; unfold utf8.RuneSelf.
  - take_branch. reflexivity.
  - destruct (Z.ltb_spec (byteZ c0) 128); [lia |].
    rewrite first_2 by lia. valid_consts utf8.s1. take_branch. reflexivity.
  - destruct (Z.ltb_spec (byteZ c0) 128); [lia |].
    rewrite first_3 by lia.
    destruct (Z.eqb_spec (byteZ c0) 0xE0);
      [valid_consts utf8.s2
      | destruct (Z.eqb_spec (byteZ c0) 0xED);
        [valid_consts utf8.s4 | valid_consts utf8.s3]];
    take_branch; reflexivity.
  - destruct (Z.ltb_spec (byteZ c0) 128); [lia |].
    rewrite first_4 by lia.
    destruct (Z.eqb_spec (byteZ c0) 0xF0);
      [valid_consts utf8.s5
      | destruct (Z.eqb_spec (byteZ c0) 0xF4);
        [valid_consts utf8.s7 | valid_consts utf8.s6]];
    take_branch; reflexivity.
Qed.

Lemma wellFormed_validFrom (s : list ascii) (rs : list Z) :
  utf8.wellFormed s rs ->
  forall fuel, (List.length rs <= fuel)%nat -> utf8.validFrom fuel s = true.
Proof.
  induction 1 as [| u r s rs Hu Hs IH]; intros fuel Hf.
  - destruct fuel; reflexivity.
  - destruct fuel as [| fuel]; [cbn in Hf; lia |].
    rewrite (validFrom_wf1 fuel u r s Hu). apply IH. cbn in Hf. lia.
Qed.

Lemma wellFormed_length (s : list ascii) (rs : list Z) :
  utf8.wellFormed s rs -> (List.length rs <= List.length s)%nat.
Proof.
  induction 1 as [| u r s rs Hu Hs IH]; [reflexivity |].
  pose proof (wellFormed1_length u r Hu). rewrite length_app. cbn. lia.
Qed.

(** Well-formed UTF-8 is what [ValidString] accepts. *)
Lemma wellFormed_ValidString (s : list ascii) (rs : list Z) :
  utf8.wellFormed s rs -> utf8.ValidString s = true.
Proof.
  intros H. unfold utf8.ValidString.
  eapply wellFormed_validFrom; [eassumption |].
  now apply wellFormed_length.
Qed.

Lemma wellFormed_app (s1 s2 : list ascii) (rs1 rs2 : list Z) :
  utf8.wellFormed s1 rs1 -> utf8.wellFormed s2 rs2 ->
  utf8.wellFormed (s1 ++ s2) (rs1 ++ rs2).
Proof.
  induction 1 as [| u r s rs Hu Hs IH]; intros H2; [exact H2 |].
  rewrite <- app_assoc. cbn. constructor; auto.
Qed.

Lemma wellFormed_scalars (s : list ascii) (rs : list Z) :
  utf8.wellFormed s rs -> Forall utf8.scalar rs.
Proof.
  induction 1; constructor; eauto using wellFormed1_scalar.
Qed.

(** The encoding of scalar values is well formed, and encodes them. *)
Lemma stringOfRunes_wellFormed (rs : list Z) :
  Forall utf8.scalar rs -> utf8.wellFormed (utf8.stringOfRunes rs) rs.
Proof.
  induction 1 as [| r rs Hr Hrs IH]; cbn; [constructor |].
  constructor; [now apply EncodeRune_scalar | exact IH].
Qed.

(** What a [range] loop reads are scalar values. *)
Lemma rangeFrom_scalar (fuel : nat) (s : list ascii) :
  Forall utf8.scalar (utf8.rangeFrom fuel s).
Proof.
  revert s. induction fuel as [| fuel IH]; intros s; cbn; [constructor |].
  destruct s as [| c s]; [constructor |].
  pose proof (DecodeRune_scalar (c :: s)) as Hs.
  destruct (utf8.DecodeRune (c :: s)) as [r n]. constructor; [exact Hs | apply IH].
Qed.

Lemma skipn_app_length {A : Type} (u s : list A) :
  skipn (List.length u) (u ++ s) = s.
Proof. induction u; cbn; auto. Qed.

Lemma firstn_app_length {A : Type} (u s : list A) :
  firstn (List.length u) (u ++ s) = u.
Proof. induction u; cbn; f_equal; auto. Qed.

(** A [range] loop over well-formed UTF-8 reads the values encoded. *)
Lemma rangeFrom_wellFormed (s : list ascii) (rs : list Z) :
  utf8.wellFormed s rs ->
  forall fuel, (List.length rs <= fuel)%nat -> utf8.rangeFrom fuel s = rs.
Proof.
  induction 1 as [| u r s rs Hu Hs IH]; intros fuel Hf.
  - destruct fuel; reflexivity.
  - destruct fuel as [| fuel]; [cbn in Hf; lia |].
    pose proof (wellFormed1_length u r Hu) as Hl.
    cbn [utf8.rangeFrom]. destruct (u ++ s) as [| c t] eqn:E.
    + destruct u; cbn in *; [lia | discriminate].
    + rewrite <- E, (DecodeRune_wf u r s Hu), skipn_app_length.
      f_equal. apply IH. cbn in Hf. lia.
Qed.

Lemma runes_wellFormed (s : list ascii) (rs : list Z) :
  utf8.wellFormed s rs -> utf8.runes s = rs.
Proof.
  intros H. apply rangeFrom_wellFormed; [assumption |].
  now apply wellFormed_length.
Qed.

Lemma stringOfRunes_wellFormed_inv (s : list ascii) (rs : list Z) :
  utf8.wellFormed s rs -> utf8.stringOfRunes rs = s.
Proof.
  unfold utf8.stringOfRunes.
  induction 1 as [| u r s rs Hu Hs IH]; [reflexivity |].
  cbn. now rewrite (EncodeRune_wf u r Hu), IH.
Qed.

(** ASCII text is well formed, each byte a value of its own. *)
Lemma ascii_wellFormed (s : list ascii) :
  Forall (fun c => byteZ c <= 0x7F) s -> utf8.wellFormed s (map byteZ s).
Proof.
  induction 1 as [| c s Hc Hs IH]; cbn; [constructor |].
  change (c :: s) with ([c] ++ s). constructor; [now constructor | exact IH].
Qed.


(** ** json.go: constants, empty literals, concatenation *)

Lemma append_assoc (a b c : string) :
  ((a ++ b) ++ c = a ++ (b ++ c))%string.
Proof. induction a; cbn; congruence. Qed.

Lemma append_nil_r (a : string) : (a ++ EmptyString)%string = a.
Proof. induction a; cbn; congruence. Qed.

(** The buffer after the loop of [JSONConcat], from any starting
    contents. *)
Lemma JSONConcat_loop (jsons : list JSON) (b : Buffer.t) :
  fold_left (fun b json => Buffer.WriteString b (String json)) jsons b
  = (b ++ concatStrings (map String jsons))%string.
Proof.
  revert b. induction jsons as [| j jsons IH]; intros b; cbn.
  - now rewrite append_nil_r.
  - rewrite IH. unfold Buffer.WriteString. apply append_assoc.
Qed.

Lemma JSONConcat_String (jsons : list JSON) :
  String (JSONConcat jsons) = concatStrings (map String jsons).
Proof.
  unfold JSONConcat, Buffer.String, String at 1. cbn [str].
  now rewrite JSONConcat_loop.
Qed.

Lemma concatStrings_app (xs ys : list string) :
  concatStrings (xs ++ ys)
  = (concatStrings xs ++ concatStrings ys)%string.
Proof.
  induction xs as [| x xs IH]; cbn; [reflexivity |].
  now rewrite IH, append_assoc.
Qed.

(** C5: [JSONConcat(v1, ..., vn).String()] is the concatenation of the
    [vi.String()] in order, with nothing between them; with no argument
    it is the empty string, and
    [JSONConcat(EmptyObjectJSON(), EmptyArrayJSON()).String()] is [{}[]]. *)
Theorem C5_JSONConcat_concatenates :
  (forall jsons : list JSON,
      String (JSONConcat jsons) = concatStrings (map String jsons))
  /\ String (JSONConcat []) = EmptyString
  /\ String (JSONConcat [EmptyObjectJSON; EmptyArrayJSON]) = "{}[]"%string.
Proof.
  split; [exact JSONConcat_String | split; reflexivity].
Qed.

(** C6: [JSONFromConstant(c).String()] is the text of [c], verbatim,
    and [String()] returns the wrapped text unchanged. *)
Theorem C6_JSONFromConstant_verbatim :
  (forall c : stringConstant, String (JSONFromConstant c) = stringOf c)
  /\ (forall s : string, String (mkJSON s) = s).
Proof. split; reflexivity. Qed.

(** C7: [EmptyObjectJSON().String()] is [{}] and
    [EmptyArrayJSON().String()] is [[]]; neither takes an input nor
    returns an error. *)
Theorem C7_empty_literals :
  String EmptyObjectJSON = "{}"%string /\ String EmptyArrayJSON = "[]"%string.
Proof. split; reflexivity. Qed.

(** C10: [JSONConcat] is associative on the string forms, a single
    argument is returned as it is, and the zero value [JSON{}] is an
    identity on either side. *)
Theorem C10_JSONConcat_monoid (a b c : JSON) :
  String (JSONConcat [JSONConcat [a; b]; c])
  = String (JSONConcat [a; JSONConcat [b; c]])
  /\ String (JSONConcat [a]) = String a
  /\ String (JSONConcat [zeroJSON; a]) = String a
  /\ String (JSONConcat [a; zeroJSON]) = String a.
Proof.
  rewrite !JSONConcat_String. cbn [map concatStrings].
  rewrite !JSONConcat_String. cbn [map concatStrings].
  unfold zeroJSON, String. cbn [str].
  rewrite !append_nil_r. repeat split.
  now rewrite append_assoc.
Qed.

(** ** json.go: JSONEscaped *)

Lemma map_id_on {A : Type} (f : A -> A) (l : list A) :
  Forall (fun x => f x = x) l -> map f l = l.
Proof. induction 1; cbn; congruence. Qed.

(** Text that is well-formed UTF-8 with no code point of the table
    comes out of the coercion as it went in. *)
Lemma coerce_clean (tbl : Z -> bool) (text : string) (rs : list Z) :
  utf8.wellFormed (list_ascii_of_string text) rs ->
  Forall (fun r => tbl r = false) rs ->
  coerceToUTF8InterchangeValid tbl text = text.
Proof.
  intros Hwf Hclean. unfold coerceToUTF8InterchangeValid.
  rewrite (runes_wellFormed _ _ Hwf).
  rewrite map_id_on.
  - rewrite (stringOfRunes_wellFormed_inv _ _ Hwf).
    apply string_of_list_ascii_of_string.
  - eapply Forall_impl; [| exact Hclean]. cbn. now intros r ->.
Qed.

(** The runes the coercion encodes are scalar values. *)
Lemma coerce_runes_scalar (tbl : Z -> bool) (s : list ascii) :
  Forall utf8.scalar
    (map (fun r => if tbl r then utf8.RuneError else r) (utf8.runes s)).
Proof.
  apply Forall_map. eapply Forall_impl; [| apply rangeFrom_scalar].
  cbn. intros r Hr. destruct (tbl r); [apply scalar_RuneError | exact Hr].
Qed.

(** C3: [JSONEscaped(text).String()] is the coercion of [text] and
    nothing else: no character is escaped.  In particular a text of
    ASCII characters outside the table, [&], [<], [>], ['], the double
    quote and the backslash among them, is returned verbatim. *)
Theorem C3_JSONEscaped_does_not_escape (tbl : Z -> bool) (text : string) :
  String (JSONEscaped tbl text) = coerceToUTF8InterchangeValid tbl text
  /\ (Forall (fun c => byteZ c <= 0x7F /\ tbl (byteZ c) = false)
             (list_ascii_of_string text) ->
      String (JSONEscaped tbl text) = text).
Proof.
  split; [reflexivity |]. intros Hall.
  unfold JSONEscaped, String. cbn [str].
  apply (coerce_clean tbl text (map byteZ (list_ascii_of_string text))).
  - apply ascii_wellFormed. eapply Forall_impl; [| exact Hall].
    cbn. tauto.
  - apply Forall_map. eapply Forall_impl; [| exact Hall]. cbn. tauto.
Qed.

Lemma ascii_clean_check (tbl : Z -> bool) (l : list ascii) :
  forallb (fun c => (byteZ c <=? 0x7F) && negb (tbl (byteZ c))) l = true ->
  Forall (fun c => byteZ c <= 0x7F /\ tbl (byteZ c) = false) l.
Proof.
  intros H. apply Forall_forall. intros c Hc.
  rewrite forallb_forall in H. specialize (H c Hc).
  apply andb_prop in H. destruct H as [H1 H2].
  split; [now apply Z.leb_le | now apply negb_true_iff].
Qed.

Lemma C3_JSONEscaped_specials_verbatim :
  String (JSONEscaped unicodeControlAndNonCharacter specials) = specials.
Proof.
  apply (C3_JSONEscaped_does_not_escape unicodeControlAndNonCharacter specials).
  apply (ascii_clean_check unicodeControlAndNonCharacter).
  vm_compute. reflexivity.
Defined.

(** C4: for every text, also one with invalid UTF-8 or encoded
    surrogates, [JSONEscaped(text).String()] is valid UTF-8: a sequence
    of well-formed encodings of scalar values (no surrogate among
    them), which [utf8.ValidString] accepts. *)
Theorem C4_JSONEscaped_valid_UTF8 (tbl : Z -> bool) (text : string) :
  utf8.ValidString (list_ascii_of_string (String (JSONEscaped tbl text)))
  = true
  /\ exists rs,
       utf8.wellFormed
         (list_ascii_of_string (String (JSONEscaped tbl text))) rs
       /\ Forall utf8.scalar rs.
Proof.
  unfold JSONEscaped, String, coerceToUTF8InterchangeValid. cbn [str].
  rewrite list_ascii_of_string_of_list_ascii.
  pose proof (coerce_runes_scalar tbl (list_ascii_of_string text)) as Hs.
  pose proof (stringOfRunes_wellFormed _ Hs) as Hwf.
  split; [eapply wellFormed_ValidString; exact Hwf |].
  eexists. split; [exact Hwf | exact Hs].
Qed.


(** ** Scanning: whitespace and numbers against the grammar *)

Lemma skipSpace_noSpaceAhead (s : list ascii) :
  noSpaceAhead (json.skipSpace s).
Proof.
  induction s as [| c s IH]; cbn; [exact I |].
  destruct (json.isSpace c) eqn:E; [exact IH | exact E].
Qed.

Lemma skipSpace_split (s : list ascii) :
  exists w, grammar.ws w /\ s = w ++ json.skipSpace s.
Proof.
  induction s as [| c s (w & Hw & IH)]; cbn.
  - exists []. split; [constructor | reflexivity].
  - destruct (json.isSpace c) eqn:E.
    + exists (c :: w). split; [now constructor | cbn; now f_equal].
    + exists []. split; [constructor | reflexivity].
Qed.

Lemma skipSpace_ws (w rest : list ascii) :
  grammar.ws w -> noSpaceAhead rest -> json.skipSpace (w ++ rest) = rest.
Proof.
  intros Hw Hr. induction Hw as [| c w Hc Hw IH]; cbn.
  - destruct rest as [| c r]; [reflexivity |]. cbn in *. now rewrite Hr.
  - now rewrite Hc.
Qed.

Lemma skipSpace_id (s : list ascii) :
  noSpaceAhead s -> json.skipSpace s = s.
Proof. intros H. exact (skipSpace_ws [] s (Forall_nil _) H). Qed.

Lemma skipSpace_length (s : list ascii) :
  (List.length (json.skipSpace s) <= List.length s)%nat.
Proof.
  induction s as [| c s IH]; cbn; [lia |].
  destruct (json.isSpace c); cbn; lia.
Qed.

Lemma digits_sound (s : list ascii) :
  forall ds rest, json.digits s = (ds, rest) ->
  s = ds ++ rest /\ grammar.allDigits ds /\ noDigitAhead rest.
Proof.
  induction s as [| c s IH]; cbn [json.digits]; intros ds rest H.
  - inversion H; subst. repeat split; constructor.
  - destruct (json.isDigit c) eqn:E.
    + destruct (json.digits s) as [ds' rest'] eqn:D. inversion H; subst.
      destruct (IH ds' rest eq_refl) as (-> & Hd & Hr).
      repeat split; [now constructor | exact Hr].
    + inversion H; subst. repeat split; [constructor | exact E].
Qed.

Lemma digits_complete (ds rest : list ascii) :
  grammar.allDigits ds -> noDigitAhead rest ->
  json.digits (ds ++ rest) = (ds, rest).
Proof.
  intros Hd Hr. induction Hd as [| c ds Hc Hd IH]; cbn [json.digits app].
  - destruct rest as [| c r]; [reflexivity |]. cbn [json.digits].
    unfold noDigitAhead in Hr. now rewrite Hr.
  - now rewrite Hc, IH.
Qed.

(** Case analysis on the byte comparisons of a goal. *)
Ltac ascii_cases :=
  repeat match goal with
  | |- context [(?a =? ?b)%char] => destruct (Ascii.eqb_spec a b); subst
  end.

Lemma isDelimiter_cases (c : ascii) :
  isDelimiter c = true ->
  c = " "%char \/ c = "009"%char \/ c = "013"%char \/ c = "010"%char
  \/ c = ","%char \/ c = "]"%char \/ c = "}"%char.
Proof.
  unfold isDelimiter, json.isSpace. ascii_cases; cbn; intros H;
    try discriminate; tauto.
Qed.

(** A delimiter continues no number. *)
Lemma delimiter_not_number (c : ascii) :
  isDelimiter c = true ->
  json.isDigit c = false /\ c <> "."%char /\ c <> "e"%char /\ c <> "E"%char.
Proof.
  intros H. destruct (isDelimiter_cases c H) as [-> | [-> | [-> | [-> | [-> | [-> | ->]]]]]];
    repeat split; (reflexivity || discriminate).
Qed.

Lemma scanInt_sound (s i rest : list ascii) :
  json.scanInt s = Some (i, rest) -> s = i ++ rest /\ grammar.intPart i.
Proof.
  unfold json.scanInt. destruct s as [| c s]; [discriminate |].
  destruct (Ascii.eqb_spec c "0") as [-> | Hc].
  - intros H. inversion H; subst. split; [reflexivity | now left].
  - destruct (json.isDigit19 c) eqn:E; [| discriminate].
    destruct (json.digits s) as [ds r] eqn:D. intros H. inversion H; subst.
    destruct (digits_sound s ds rest D) as (-> & Hd & _).
    split; [reflexivity |]. right. exists c, ds. auto.
Qed.

Lemma scanInt_complete (i rest : list ascii) :
  grammar.intPart i -> noDigitAhead rest ->
  json.scanInt (i ++ rest) = Some (i, rest).
Proof.
  intros [-> | (c & ds & -> & Hc & Hd)] Hr; [reflexivity |].
  cbn [app json.scanInt].
  destruct (Ascii.eqb_spec c "0") as [-> | Hn]; [discriminate |].
  now rewrite Hc, (digits_complete ds rest Hd Hr).
Qed.

Lemma scanFrac_sound (s f rest : list ascii) :
  json.scanFrac s = Some (f, rest) -> s = f ++ rest /\ grammar.fracPart f.
Proof.
  unfold json.scanFrac. destruct s as [| c s].
  - intros H. inversion H; subst. split; [reflexivity | now left].
  - destruct (Ascii.eqb_spec c ".") as [-> | Hc].
    + destruct (json.digits s) as [ds r] eqn:D.
      destruct (digits_sound s ds r D) as (-> & Hd & _).
      destruct ds as [| d ds]; [discriminate |].
      intros H. inversion H; subst. split; [reflexivity |].
      right. exists (d :: ds). repeat split; [discriminate | exact Hd].
    + intros H. inversion H; subst. split; [reflexivity | now left].
Qed.

Lemma scanFrac_complete (f rest : list ascii) :
  grammar.fracPart f -> noDigitAhead rest ->
  (f = [] -> match rest with c :: _ => c <> "."%char | [] => True end) ->
  json.scanFrac (f ++ rest) = Some (f, rest).
Proof.
  intros [-> | (ds & -> & Hne & Hd)] Hr Hdot.
  - cbn [app]. unfold json.scanFrac. destruct rest as [| c r]; [reflexivity |].
    specialize (Hdot eq_refl).
    destruct (Ascii.eqb_spec c "."); [contradiction | reflexivity].
  - cbn [app json.scanFrac]. cbn [Ascii.eqb Bool.eqb andb].
    rewrite (digits_complete ds rest Hd Hr).
    destruct ds; [contradiction | reflexivity].
Qed.

Lemma scanExp_sound (s e rest : list ascii) :
  json.scanExp s = Some (e, rest) -> s = e ++ rest /\ grammar.expPart e.
Proof.
  unfold json.scanExp. destruct s as [| c s].
  - intros H. inversion H; subst. split; [reflexivity | now left].
  - destruct ((c =? "e")%char || (c =? "E")%char) eqn:E.
    + assert (c = "e"%char \/ c = "E"%char) as Hc.
      { apply orb_prop in E. destruct E as [E | E];
          apply Ascii.eqb_eq in E; auto. }
      assert (exists sign t1,
        (match s with
         | c0 :: t' =>
           if ((c0 =? "+")%char || (c0 =? "-")%char)%bool
           then ([c0], t') else ([], s)
         | [] => ([], s)
         end) = (sign, t1) /\ s = sign ++ t1 /\
        (sign = [] \/ sign = ["+"%char] \/ sign = ["-"%char])) as
        (sign & t1 & -> & -> & Hsign).
      { destruct s as [| c0 t']; [exists [], []; auto |].
        destruct (Ascii.eqb_spec c0 "+") as [-> | H1];
          [exists ["+"%char], t'; auto |].
        destruct (Ascii.eqb_spec c0 "-") as [-> | H2];
          [exists ["-"%char], t'; auto |].
        exists [], (c0 :: t'); auto. }
      destruct (json.digits t1) as [ds r] eqn:D.
      destruct (digits_sound t1 ds r D) as (-> & Hd & _).
      destruct ds as [| d ds]; [discriminate |].
      intros H. inversion H; subst. split.
      * cbn. now rewrite <- app_assoc.
      * right. exists c, sign, (d :: ds).
        repeat split; auto. discriminate.
    + intros H. inversion H; subst. split; [reflexivity | now left].
Qed.

Lemma scanExp_complete (e rest : list ascii) :
  grammar.expPart e -> noDigitAhead rest ->
  (e = [] ->
   match rest with
   | c :: _ => c <> "e"%char /\ c <> "E"%char
   | [] => True
   end) ->
  json.scanExp (e ++ rest) = Some (e, rest).
Proof.
  intros [-> | (c & sign & ds & -> & Hc & Hsign & Hne & Hd)] Hr He.
  - cbn [app]. unfold json.scanExp. destruct rest as [| c r]; [reflexivity |].
    destruct (He eq_refl) as [H1 H2].
    destruct (Ascii.eqb_spec c "e"); [contradiction |].
    destruct (Ascii.eqb_spec c "E"); [contradiction | reflexivity].
  - cbn [app json.scanExp].
    assert (((c =? "e")%char || (c =? "E")%char)%bool = true) as ->.
    { destruct Hc as [-> | ->]; reflexivity. }
    destruct ds as [| d ds]; [contradiction |].
    assert (json.isDigit d = true) as Hdd by now inversion Hd.
    assert (json.digits ((d :: ds) ++ rest) = (d :: ds, rest)) as Hds
      by now apply digits_complete.
    cbn [app] in Hds.
    destruct Hsign as [-> | [-> | ->]]; cbn [app].
    + assert (((d =? "+")%char || (d =? "-")%char)%bool = false) as ->.
      { destruct (Ascii.eqb_spec d "+") as [-> | ?]; [discriminate |].
        destruct (Ascii.eqb_spec d "-") as [-> | ?]; [discriminate |].
        reflexivity. }
      now rewrite Hds.
    + cbn [Ascii.eqb Bool.eqb andb orb]. now rewrite Hds.
    + cbn [Ascii.eqb Bool.eqb andb orb]. now rewrite Hds.
Qed.

Lemma delimited_noDigitAhead (rest : list ascii) :
  delimited rest -> noDigitAhead rest.
Proof.
  destruct rest as [| c r]; [trivial |]. cbn. intros H.
  now destruct (delimiter_not_number c H).
Qed.

Lemma expPart_noDigitAhead (e rest : list ascii) :
  grammar.expPart e -> delimited rest -> noDigitAhead (e ++ rest).
Proof.
  intros [-> | (c & sign & ds & -> & [-> | ->] & _)] Hr;
    [now apply delimited_noDigitAhead | reflexivity | reflexivity].
Qed.

Lemma expPart_noDotAhead (e rest : list ascii) :
  grammar.expPart e -> delimited rest ->
  match e ++ rest with c :: _ => c <> "."%char | [] => True end.
Proof.
  intros [-> | (c & sign & ds & -> & [-> | ->] & _)] Hr; cbn [app];
    try discriminate.
  destruct rest as [| c r]; [trivial |].
  now destruct (delimiter_not_number c Hr) as (_ & ? & _).
Qed.

(** [scanNumber] reads number literals only. *)
Lemma scanNumber_sound (s lit rest : list ascii) :
  json.scanNumber s = Some (lit, rest) ->
  s = lit ++ rest /\ grammar.numberLit lit.
Proof.
  unfold json.scanNumber.
  assert (exists sign s1,
    (match s with
     | c :: t => if (c =? "-")%char then ([c], t) else ([], s)
     | [] => ([], s)
     end) = (sign, s1) /\ s = sign ++ s1 /\
    (sign = [] \/ sign = ["-"%char])) as (sign & s1 & -> & -> & Hsign).
  { destruct s as [| c t]; [exists [], []; auto |].
    destruct (Ascii.eqb_spec c "-") as [-> | ?];
      [exists ["-"%char], t | exists [], (c :: t)]; auto. }
  destruct (json.scanInt s1) as [[i s2] |] eqn:Ei; [| discriminate].
  destruct (json.scanFrac s2) as [[f s3] |] eqn:Ef; [| discriminate].
  destruct (json.scanExp s3) as [[e s4] |] eqn:Ee; [| discriminate].
  intros H. inversion H; subst.
  destruct (scanInt_sound _ _ _ Ei) as (-> & Hi).
  destruct (scanFrac_sound _ _ _ Ef) as (-> & Hf).
  destruct (scanExp_sound _ _ _ Ee) as (-> & He).
  split; [now rewrite <- !app_assoc |].
  exists sign, i, f, e. auto.
Qed.

(** [scanNumber] reads every number literal that a delimiter follows,
    whole. *)
Lemma scanNumber_complete (lit rest : list ascii) :
  grammar.numberLit lit -> delimited rest ->
  json.scanNumber (lit ++ rest) = Some (lit, rest).
Proof.
  intros (sign & i & f & e & -> & Hsign & Hi & Hf & He) Hr.
  unfold json.scanNumber.
  assert ((match (sign ++ i ++ f ++ e) ++ rest with
           | c :: t =>
             if (c =? "-")%char then ([c], t)
             else ([], (sign ++ i ++ f ++ e) ++ rest)
           | [] => ([], (sign ++ i ++ f ++ e) ++ rest)
           end) = (sign, i ++ f ++ e ++ rest)) as ->.
  { rewrite <- !app_assoc. destruct Hsign as [-> | ->];
      [| reflexivity].
    cbn [app]. destruct Hi as [-> | (c & ds & -> & Hc & _)]; [reflexivity |].
    cbn [app]. destruct (Ascii.eqb_spec c "-") as [-> | ?];
      [discriminate | reflexivity]. }
  assert (noDigitAhead (f ++ e ++ rest)) as Hnf.
  { destruct Hf as [-> | (ds & -> & _)]; [| reflexivity].
    cbn [app]. now apply expPart_noDigitAhead. }
  rewrite (scanInt_complete i _ Hi Hnf).
  rewrite (scanFrac_complete f (e ++ rest) Hf
             (expPart_noDigitAhead e rest He Hr)
             (fun _ => expPart_noDotAhead e rest He Hr)).
  rewrite (scanExp_complete e rest He (delimited_noDigitAhead rest Hr)).
  - reflexivity.
  - intros _. destruct rest as [| c r]; [trivial |].
    destruct (delimiter_not_number c Hr) as (_ & _ & ? & ?). auto.
Qed.

Lemma numberLit_nonempty (lit : list ascii) :
  grammar.numberLit lit -> lit <> [].
Proof.
  intros (sign & i & f & e & -> & _ & Hi & _) H.
  apply app_eq_nil in H. destruct H as [_ H].
  apply app_eq_nil in H. destruct H as [H _].
  destruct Hi as [-> | (c & ds & -> & _)]; discriminate.
Qed.

(** The first byte of a number literal: a minus sign or a digit. *)
Lemma numberLit_head (lit : list ascii) :
  grammar.numberLit lit ->
  exists c t, lit = c :: t /\ (c = "-"%char \/ json.isDigit c = true).
Proof.
  intros (sign & i & f & e & -> & Hsign & Hi & _).
  destruct Hsign as [-> | ->]; [| cbn; eauto].
  destruct Hi as [-> | (c & ds & -> & Hc & _)]; cbn; [eauto |].
  exists c. eexists. split; [reflexivity |]. right.
  unfold json.isDigit19 in Hc. unfold json.isDigit.
  apply andb_prop in Hc. destruct Hc as [H1 H2].
  apply Z.leb_le in H1. rewrite H2, andb_true_r. apply Z.leb_le.
  change (byteZ "0") with 48. change (byteZ "1") with 49 in H1. lia.
Qed.

(** ** Scanning: strings against the grammar *)

Lemma isSimpleEscape_not_u : json.isSimpleEscape "u" = false.
Proof. reflexivity. Qed.

(** [scanString] stops at the closing quote of a string of the
    grammar. *)
Lemma scanString_sound (s : list ascii) :
  forall raw rest, json.scanString s = Some (raw, rest) ->
  s = raw ++ json.dquote :: rest /\ grammar.stringBody raw.
Proof.
  remember (List.length s) as n eqn:Hn.
  assert (List.length s <= n)%nat as Hle by lia. clear Hn. revert s Hle.
  induction n as [| n IHn]; intros s Hle raw rest;
    (destruct s as [| c t]; [discriminate |]); [cbn in Hle; lia |].
  cbn in Hle.
  assert (forall t', (List.length t' <= n)%nat -> forall raw rest,
             json.scanString t' = Some (raw, rest) ->
             t' = raw ++ json.dquote :: rest /\ grammar.stringBody raw)
    as IH by exact IHn.
  clear IHn.
  cbn [json.scanString].
  destruct (Ascii.eqb_spec c json.dquote) as [-> | Hq].
  { intros H. inversion H; subst. split; [reflexivity | constructor]. }
  destruct (Ascii.eqb_spec c json.backslash) as [-> | Hb].
  - destruct t as [| e t']; [discriminate |].
    destruct (json.isSimpleEscape e) eqn:Ee.
    + destruct (json.scanString t') as [[raw' rest'] |] eqn:E; [| discriminate].
      intros H. inversion H; subst.
      destruct (IH t' ltac:(cbn in *; lia) _ _ E) as (-> & Hraw).
      split; [reflexivity | now constructor].
    + destruct (Ascii.eqb_spec e "u") as [-> | ?]; [| discriminate].
      destruct t' as [| h1 [| h2 [| h3 [| h4 t'']]]]; try discriminate.
      destruct (json.isHex h1) eqn:E1; [| discriminate].
      destruct (json.isHex h2) eqn:E2; [| discriminate].
      destruct (json.isHex h3) eqn:E3; [| discriminate].
      destruct (json.isHex h4) eqn:E4; [| discriminate].
      cbn [andb].
      destruct (json.scanString t'') as [[raw' rest'] |] eqn:E; [| discriminate].
      intros H. inversion H; subst.
      destruct (IH t'' ltac:(cbn in *; lia) _ _ E) as (-> & Hraw).
      split; [reflexivity | now constructor].
  - destruct (Z.ltb_spec (byteZ c) 0x20) as [Hlt | Hge]; [discriminate |].
    destruct (json.scanString t) as [[raw' rest'] |] eqn:E; [| discriminate].
    intros H. inversion H; subst.
    destruct (IH t ltac:(cbn in *; lia) _ _ E) as (-> & Hraw).
    split; [reflexivity | constructor; auto].
Qed.

(** [scanString] reads every string of the grammar up to its closing
    quote. *)
Lemma scanString_complete (raw rest : list ascii) :
  grammar.stringBody raw ->
  json.scanString (raw ++ json.dquote :: rest) = Some (raw, rest).
Proof.
  induction 1 as [| c s Hc Hq Hb Hs IH | e s He Hs IH
                 | h1 h2 h3 h4 s H1 H2 H3 H4 Hs IH];
    cbn [app json.scanString].
  - now rewrite Ascii.eqb_refl.
  - destruct (Ascii.eqb_spec c json.dquote); [contradiction |].
    destruct (Ascii.eqb_spec c json.backslash); [contradiction |].
    destruct (Z.ltb_spec (byteZ c) 0x20); [lia |]. now rewrite IH.
  - change ((json.backslash =? json.dquote)%char) with false.
    rewrite Ascii.eqb_refl, He, IH. reflexivity.
  - change ((json.backslash =? json.dquote)%char) with false.
    rewrite Ascii.eqb_refl, isSimpleEscape_not_u, H1, H2, H3, H4, IH.
    reflexivity.
Qed.

Lemma stringBody_app (a b : list ascii) :
  grammar.stringBody a -> grammar.stringBody b -> grammar.stringBody (a ++ b).
Proof.
  intros Ha Hb. induction Ha; cbn [app];
    [exact Hb | apply grammar.body_char | apply grammar.body_escape
     | apply grammar.body_unicode]; auto.
Qed.


(** ** Unquoting *)

Lemma option_map_id {A : Type} (o : option (list A)) :
  option_map (app []) o = o.
Proof. destruct o; reflexivity. Qed.

Lemma option_map_app {A : Type} (a b : list A) (o : option (list A)) :
  option_map (app a) (option_map (app b) o) = option_map (app (a ++ b)) o.
Proof. destruct o; cbn; [now rewrite app_assoc | reflexivity]. Qed.

Lemma option_map_cons_app {A : Type} (a : A) (b : list A) (o : option (list A)) :
  option_map (cons a) (option_map (app b) o) = option_map (app (a :: b)) o.
Proof. destruct o; reflexivity. Qed.

Lemma unquoteLoop_unfold (fuel : nat) (c : ascii) (t : list ascii) :
  json.unquoteLoop (S fuel) (c :: t) =
  let s := c :: t in
  if (c =? json.backslash)%char then
    match t with
    | [] => None
    | e :: t' =>
      let single (b : ascii) :=
        option_map (cons b) (json.unquoteLoop fuel t') in
      if (e =? json.dquote)%char || (e =? json.backslash)%char
         || (e =? "/")%char || (e =? "'")%char then single e
      else if (e =? "b")%char then single "008"%char
      else if (e =? "f")%char then single "012"%char
      else if (e =? "n")%char then single "010"%char
      else if (e =? "r")%char then single "013"%char
      else if (e =? "t")%char then single "009"%char
      else if (e =? "u")%char then
        let rr := json.getu4 s in
        if rr <? 0 then None
        else
          let s6 := skipn 6 s in
          if utf16.IsSurrogate rr then
            let rr1 := json.getu4 s6 in
            let dec := utf16.DecodeRune rr rr1 in
            if negb (dec =? utf16.replacementChar) then
              option_map (app (utf8.EncodeRune dec))
                         (json.unquoteLoop fuel (skipn 6 s6))
            else
              option_map (app (utf8.EncodeRune utf16.replacementChar))
                         (json.unquoteLoop fuel s6)
          else
            option_map (app (utf8.EncodeRune rr)) (json.unquoteLoop fuel s6)
      else None
    end
  else if (c =? json.dquote)%char || (byteZ c <? 0x20) then None
  else if byteZ c <? utf8.RuneSelf then
    option_map (cons c) (json.unquoteLoop fuel t)
  else
    let (rr, size) := utf8.DecodeRune s in
    option_map (app (utf8.EncodeRune rr))
               (json.unquoteLoop fuel (skipn size s)).
Proof. reflexivity. Qed.

Lemma length_skipn_le {A : Type} (n : nat) (l : list A) :
  (List.length (skipn n l) <= List.length l)%nat.
Proof. rewrite length_skipn. lia. Qed.

(** The second loop of [unquoteBytes] ends within [len(s)] rounds:
    more fuel changes nothing. *)
Lemma unquoteLoop_fuel (f1 : nat) :
  forall f2 s, (List.length s <= f1)%nat -> (List.length s <= f2)%nat ->
  json.unquoteLoop f1 s = json.unquoteLoop f2 s.
Proof.
  induction f1 as [| f1 IH]; intros f2 s H1 H2.
  - destruct s; [| cbn in H1; lia]. destruct f2; reflexivity.
  - destruct s as [| c t]; [destruct f2; reflexivity |].
    destruct f2 as [| f2]; [cbn in H2; lia |].
    cbn [List.length] in H1, H2.
    rewrite !unquoteLoop_unfold. cbv zeta.
    destruct (c =? json.backslash)%char.
    + destruct t as [| e t']; [reflexivity |]. cbn [List.length] in H1, H2.
      assert (json.unquoteLoop f1 t' = json.unquoteLoop f2 t') as ->
        by (apply IH; lia).
      pose proof (length_skipn_le 6 (c :: e :: t')) as L6.
      pose proof (length_skipn_le 6 (skipn 6 (c :: e :: t'))) as L12.
      assert (List.length (skipn 6 (c :: e :: t')) <= List.length t')%nat as L6'.
      { rewrite length_skipn. cbn [List.length]. lia. }
      assert (json.unquoteLoop f1 (skipn 6 (c :: e :: t'))
              = json.unquoteLoop f2 (skipn 6 (c :: e :: t'))) as ->
        by (apply IH; lia).
      assert (json.unquoteLoop f1 (skipn 6 (skipn 6 (c :: e :: t')))
              = json.unquoteLoop f2 (skipn 6 (skipn 6 (c :: e :: t')))) as ->
        by (apply IH; lia).
      reflexivity.
    + destruct ((c =? json.dquote)%char || (byteZ c <? 0x20)); [reflexivity |].
      destruct (byteZ c <? utf8.RuneSelf).
      * f_equal. apply IH; lia.
      * pose proof (DecodeRune_width (c :: t) ltac:(discriminate)) as W.
        destruct (utf8.DecodeRune (c :: t)) as [rr size]. cbn [snd] in W.
        f_equal. apply IH; rewrite length_skipn; cbn [List.length] in *; lia.
Qed.

Lemma high_byte_plain (c : ascii) :
  0x80 <= byteZ c ->
  (c =? json.backslash)%char = false /\ (c =? json.dquote)%char = false
  /\ (byteZ c <? 0x20) = false /\ (byteZ c <? utf8.RuneSelf) = false.
Proof.
  intros H. repeat split.
  - destruct (Ascii.eqb_spec c json.backslash) as [-> | ?]; [| reflexivity].
    vm_compute in H. now contradiction H.
  - destruct (Ascii.eqb_spec c json.dquote) as [-> | ?]; [| reflexivity].
    vm_compute in H. now contradiction H.
  - apply Z.ltb_ge. lia.
  - apply Z.ltb_ge. unfold utf8.RuneSelf. lia.
Qed.

(** What [DecodeRune] reports for a string that starts with a high
    byte: an invalid byte, or a well-formed sequence, which
    [EncodeRune] writes back. *)
Lemma DecodeRune_high (c : ascii) (t : list ascii) (rr : Z) (size : nat) :
  utf8.DecodeRune (c :: t) = (rr, size) ->
  (1 <= size <= List.length (c :: t))%nat /\ utf8.scalar rr /\
  ((rr =? utf8.RuneError) && (size =? 1)%nat = false ->
   utf8.EncodeRune rr = firstn size (c :: t)).
Proof.
  intros E.
  pose proof (DecodeRune_width (c :: t) ltac:(discriminate)) as W.
  pose proof (DecodeRune_scalar (c :: t)) as Sc.
  rewrite E in W, Sc. cbn [fst snd] in W, Sc.
  split; [lia | split; [exact Sc |]].
  intros Hne.
  destruct (DecodeRune_inv (c :: t) rr size ltac:(discriminate) E)
    as [[-> ->] | (u & rest & Hs & Hwf & ->)].
  - discriminate Hne.
  - rewrite Hs, firstn_app_length. now apply EncodeRune_wf.
Qed.

(** The first loop of [unquoteBytes] splits the string, and the second
    loop copies the prefix it found. *)
Lemma simplePrefix_loop (fuel : nat) :
  forall s pre rest,
  (List.length s <= fuel)%nat ->
  json.simplePrefix fuel s = (pre, rest) ->
  s = pre ++ rest /\
  forall f1 f2, (List.length s <= f1)%nat -> (List.length rest <= f2)%nat ->
    json.unquoteLoop f1 s = option_map (app pre) (json.unquoteLoop f2 rest).
Proof.
  induction fuel as [| fuel IH]; intros s pre rest Hle Hp.
  - destruct s; [| cbn in Hle; lia]. cbn in Hp. inversion Hp; subst.
    split; [reflexivity |]. intros f1 f2 _ _.
    destruct f1, f2; reflexivity.
  - destruct s as [| c t].
    + cbn in Hp. inversion Hp; subst. split; [reflexivity |].
      intros f1 f2 _ _. destruct f1, f2; reflexivity.
    + cbn [json.simplePrefix] in Hp. cbn [List.length] in Hle.
      destruct ((c =? json.backslash)%char || (c =? json.dquote)%char
                || (byteZ c <? 0x20)) eqn:Estop.
      { inversion Hp; subst. split; [reflexivity |]. intros f1 f2 H1 H2.
        rewrite option_map_id. now apply unquoteLoop_fuel. }
      apply orb_false_elim in Estop. destruct Estop as [Estop E20].
      apply orb_false_elim in Estop. destruct Estop as [Eb Eq].
      destruct (byteZ c <? utf8.RuneSelf) eqn:Eself.
      * destruct (json.simplePrefix fuel t) as [pre' rest'] eqn:Ep.
        inversion Hp; subst.
        destruct (IH t pre' rest ltac:(lia) Ep) as (-> & Hloop).
        split; [reflexivity |]. intros f1 f2 H1 H2.
        destruct f1 as [| f1]; [cbn in H1; lia |].
        rewrite unquoteLoop_unfold. cbv zeta.
        rewrite Eb, Eq, E20, Eself. cbn [orb].
        rewrite (Hloop f1 f2 ltac:(cbn in H1; lia) H2).
        apply option_map_cons_app.
      * destruct (utf8.DecodeRune (c :: t)) as [rr size] eqn:Ed.
        destruct (DecodeRune_high c t rr size Ed) as (W & _ & Henc).
        destruct ((rr =? utf8.RuneError) && (size =? 1)%nat) eqn:Ebad.
        { inversion Hp; subst. split; [reflexivity |]. intros f1 f2 H1 H2.
          rewrite option_map_id. now apply unquoteLoop_fuel. }
        destruct (json.simplePrefix fuel (skipn size (c :: t)))
          as [pre' rest'] eqn:Ep.
        inversion Hp; subst.
        assert (List.length (skipn size (c :: t)) <= fuel)%nat as Hsk
          by (rewrite length_skipn; cbn [List.length] in *; lia).
        destruct (IH _ pre' rest Hsk Ep) as (Hs & Hloop).
        split.
        { rewrite <- app_assoc, <- Hs. symmetry. apply firstn_skipn. }
        intros f1 f2 H1 H2.
        destruct f1 as [| f1]; [cbn in H1; lia |].
        rewrite unquoteLoop_unfold. cbv zeta.
        rewrite Eb, Eq, E20, Eself, Ed. cbn [orb].
        rewrite (Hloop f1 f2
                   ltac:(rewrite length_skipn; cbn [List.length] in *; lia) H2).
        rewrite option_map_app. now rewrite (Henc eq_refl).
Qed.

(** [unquoteBytes] on the bytes between the quotes is its second loop
    alone: the first one only saves work. *)
Lemma unquoteBody_loop (s : list ascii) :
  json.unquoteBody s = json.unquoteLoop (List.length s) s.
Proof.
  unfold json.unquoteBody.
  destruct (json.simplePrefix (List.length s) s) as [pre rest] eqn:Ep.
  destruct (simplePrefix_loop _ s pre rest (le_n _) Ep) as (Hs & Hloop).
  rewrite (Hloop (List.length s) (List.length rest) (le_n _) (le_n _)).
  destruct rest as [| c r]; [| reflexivity].
  cbn. rewrite app_nil_r in Hs. subst pre. now rewrite app_nil_r.
Qed.

Lemma removelast_snoc {A : Type} (l : list A) (x : A) :
  removelast (l ++ [x]) = l.
Proof. apply removelast_last. Qed.

Lemma last_snoc {A : Type} (l : list A) (x d : A) : last (l ++ [x]) d = x.
Proof. apply last_last. Qed.

(** [unquoteBytes] on a quoted string works on what is between the
    quotes. *)
Lemma unquoteBytes_quoted (raw : list ascii) :
  json.unquoteBytes (json.dquote :: raw ++ [json.dquote])
  = json.unquoteBody raw.
Proof.
  unfold json.unquoteBytes.
  rewrite removelast_snoc.
  change (json.dquote :: raw ++ [json.dquote])
    with ((json.dquote :: raw) ++ [json.dquote]).
  rewrite last_snoc, Ascii.eqb_refl.
  assert ((List.length ((json.dquote :: raw) ++ [json.dquote]) <? 2)%nat
          = false) as ->.
  { apply Nat.ltb_ge. rewrite length_app. cbn. lia. }
  reflexivity.
Qed.

Lemma isSimpleEscape_cases (e : ascii) :
  json.isSimpleEscape e = true ->
  e = "b"%char \/ e = "f"%char \/ e = "n"%char \/ e = "r"%char
  \/ e = "t"%char \/ e = json.backslash \/ e = "/"%char \/ e = json.dquote.
Proof.
  unfold json.isSimpleEscape. ascii_cases; cbn; intros H;
    try discriminate; tauto.
Qed.

Lemma hexValue_range (h : ascii) (v : Z) :
  json.hexValue h = Some v -> 0 <= v < 16.
Proof.
  unfold json.hexValue. cbv zeta.
  change (byteZ "0") with 48. change (byteZ "9") with 57.
  change (byteZ "a") with 97. change (byteZ "f") with 102.
  change (byteZ "A") with 65. change (byteZ "F") with 70.
  cmp_cases; cbn [andb]; intros Hv; inversion Hv; lia.
Qed.

Lemma isHex_value (h : ascii) :
  json.isHex h = true -> exists v, json.hexValue h = Some v /\ 0 <= v < 16.
Proof.
  unfold json.isHex. destruct (json.hexValue h) as [v |] eqn:E;
    [| discriminate].
  intros _. exists v. split; [reflexivity | eapply hexValue_range; eassumption].
Qed.

(** [getu4] on an escape of the grammar. *)
Lemma getu4_escape (h1 h2 h3 h4 : ascii) (t : list ascii) :
  json.isHex h1 = true -> json.isHex h2 = true ->
  json.isHex h3 = true -> json.isHex h4 = true ->
  exists v1 v2 v3 v4,
    json.hexValue h1 = Some v1 /\ json.hexValue h2 = Some v2 /\
    json.hexValue h3 = Some v3 /\ json.hexValue h4 = Some v4 /\
    json.getu4 (json.backslash :: "u"%char :: h1 :: h2 :: h3 :: h4 :: t)
    = ((v1 * 16 + v2) * 16 + v3) * 16 + v4 /\
    0 <= ((v1 * 16 + v2) * 16 + v3) * 16 + v4 < 65536.
Proof.
  intros H1 H2 H3 H4.
  destruct (isHex_value h1 H1) as (v1 & E1 & R1).
  destruct (isHex_value h2 H2) as (v2 & E2 & R2).
  destruct (isHex_value h3 H3) as (v3 & E3 & R3).
  destruct (isHex_value h4 H4) as (v4 & E4 & R4).
  exists v1, v2, v3, v4. repeat split; try assumption; try lia.
  unfold json.getu4. rewrite !Ascii.eqb_refl. cbn [andb].
  now rewrite E1, E2, E3, E4.
Qed.

(** [getu4] succeeds on escapes only. *)
Lemma getu4_nonneg (s : list ascii) :
  0 <= json.getu4 s ->
  exists h1 h2 h3 h4 t,
    s = json.backslash :: "u"%char :: h1 :: h2 :: h3 :: h4 :: t /\
    json.isHex h1 = true /\ json.isHex h2 = true /\
    json.isHex h3 = true /\ json.isHex h4 = true.
Proof.
  unfold json.getu4.
  destruct s as [| b [| u [| h1 [| h2 [| h3 [| h4 t]]]]]]; try lia.
  destruct (Ascii.eqb_spec b json.backslash) as [-> | ?]; cbn [andb]; [| lia].
  destruct (Ascii.eqb_spec u "u") as [-> | ?]; [| lia].
  unfold json.isHex.
  destruct (json.hexValue h1) eqn:E1; [| lia].
  destruct (json.hexValue h2) eqn:E2; [| lia].
  destruct (json.hexValue h3) eqn:E3; [| lia].
  destruct (json.hexValue h4) eqn:E4; [| lia].
  intros _. exists h1, h2, h3, h4, t. now rewrite E1, E2, E3, E4.
Qed.

Lemma stringBody_unicode_inv (h1 h2 h3 h4 : ascii) (t : list ascii) :
  grammar.stringBody
    (json.backslash :: "u"%char :: h1 :: h2 :: h3 :: h4 :: t) ->
  grammar.stringBody t.
Proof.
  intros H. inversion H; subst; [congruence | discriminate | assumption].
Qed.

Lemma stringBody_high_inv (c : ascii) (t : list ascii) :
  0x80 <= byteZ c -> grammar.stringBody (c :: t) -> grammar.stringBody t.
Proof.
  intros Hc H. inversion H; subst; [assumption | |];
    vm_compute in Hc; now contradiction Hc.
Qed.

Lemma stringBody_strip_high (u r : list ascii) :
  Forall (fun c => 0x80 <= byteZ c) u ->
  grammar.stringBody (u ++ r) -> grammar.stringBody r.
Proof.
  induction 1 as [| c u Hc Hu IH]; cbn [app]; [trivial |].
  intros H. apply IH. eapply stringBody_high_inv; eassumption.
Qed.

(** A well-formed sequence that starts with a high byte is made of
    high bytes. *)
Lemma wellFormed1_high (u : list ascii) (r : Z) :
  utf8.wellFormed1 u r ->
  match u with c :: _ => 0x80 <= byteZ c | [] => False end ->
  Forall (fun c => 0x80 <= byteZ c) u /\ (2 <= List.length u)%nat
  /\ 0x80 <= r.
Proof.
  destruct 1; cbn [List.length]; intros Hh; [lia | | |];
    (split; [repeat constructor; lia | split; lia]).
Qed.

(** The code point of a surrogate pair. *)
Lemma utf16_DecodeRune_pair (r1 r2 : Z) :
  utf16.DecodeRune r1 r2 = utf16.replacementChar \/
  (utf8.scalar (utf16.DecodeRune r1 r2) /\ 0xDC00 <= r2 < 0xE000).
Proof.
  unfold utf16.DecodeRune, utf16.surr1, utf16.surr2, utf16.surr3,
    utf16.surrSelf.
  cmp_cases; cbn [andb]; try (now left).
  right. rewrite shiftl_mul, (lor_high_low _ _ 10) by lia.
  unfold utf8.scalar, utf8.MaxRune, utf8.surrogateMin, utf8.surrogateMax.
  lia.
Qed.

Lemma wellFormed_ascii_cons (c : ascii) (out : list ascii) (rs : list Z) :
  byteZ c <= 0x7F -> utf8.wellFormed out rs ->
  utf8.wellFormed (c :: out) (byteZ c :: rs).
Proof.
  intros Hc H. change (c :: out) with ([c] ++ out).
  constructor; [now constructor | exact H].
Qed.

Lemma wellFormed_rune_app (r : Z) (out : list ascii) (rs : list Z) :
  utf8.scalar r -> utf8.wellFormed out rs ->
  utf8.wellFormed (utf8.EncodeRune r ++ out) (r :: rs).
Proof. intros Hr H. constructor; [now apply EncodeRune_scalar | exact H]. Qed.

(** [unquoteBytes] succeeds on every string of the grammar, and what it
    returns is well-formed UTF-8. *)
Lemma unquoteLoop_total (fuel : nat) :
  forall s, (List.length s <= fuel)%nat -> grammar.stringBody s ->
  exists out rs, json.unquoteLoop fuel s = Some out /\ utf8.wellFormed out rs.
Proof.
  induction fuel as [| fuel IH]; intros s Hle Hs.
  { destruct s; [| cbn in Hle; lia]. exists [], []. split; constructor. }
  destruct s as [| c t]; [exists [], []; split; constructor |].
  cbn [List.length] in Hle.
  rewrite unquoteLoop_unfold. cbv zeta.
  inversion Hs as [| c' s' Hc Hq Hb Ht | e s' He Ht
                  | h1 h2 h3 h4 s' H1 H2 H3 H4 Ht]; subst.
  - (* an unescaped byte *)
    destruct (Ascii.eqb_spec c json.backslash); [contradiction |].
    destruct (Ascii.eqb_spec c json.dquote); [contradiction |].
    destruct (Z.ltb_spec (byteZ c) 0x20); [lia |]. cbn [orb].
    destruct (Z.ltb_spec (byteZ c) utf8.RuneSelf) as [Hlow | Hhigh].
    + destruct (IH t ltac:(lia) Ht) as (out & rs & -> & Hwf).
      exists (c :: out), (byteZ c :: rs). split; [reflexivity |].
      apply wellFormed_ascii_cons; [unfold utf8.RuneSelf in Hlow; lia | exact Hwf].
    + unfold utf8.RuneSelf in Hhigh.
      destruct (utf8.DecodeRune (c :: t)) as [rr size] eqn:Ed.
      pose proof (DecodeRune_scalar (c :: t)) as Sc. rewrite Ed in Sc.
      cbn [fst] in Sc.
      assert (grammar.stringBody (skipn size (c :: t)) /\
              (List.length (skipn size (c :: t)) <= fuel)%nat) as [Hsk Hlen].
      { destruct (DecodeRune_inv (c :: t) rr size ltac:(discriminate) Ed)
          as [[-> ->] | (u & rest & Hu & Hwf & ->)].
        - cbn [skipn]. split; [exact Ht | lia].
        - assert (match u with c0 :: _ => 0x80 <= byteZ c0 | [] => False end)
            as Hhead.
          { pose proof (wellFormed1_length u rr Hwf).
            destruct u as [| c0 u]; [cbn in *; lia |].
            cbn [app] in Hu. inversion Hu; subst. lia. }
          destruct (wellFormed1_high u rr Hwf Hhead) as (Hall & Hl2 & _).
          rewrite Hu, skipn_app_length. split.
          + eapply stringBody_strip_high; [exact Hall |].
            rewrite <- Hu. exact Hs.
          + assert (List.length (c :: t) = List.length (u ++ rest)) as HL
              by now rewrite Hu.
            rewrite length_app in HL. cbn [List.length] in HL. lia. }
      destruct (IH _ Hlen Hsk) as (out & rs & -> & Hwf).
      exists (utf8.EncodeRune rr ++ out), (rr :: rs).
      split; [reflexivity | now apply wellFormed_rune_app].
  - (* a two-character escape *)
    rewrite Ascii.eqb_refl.
    destruct (IH s' ltac:(cbn [List.length] in Hle; lia) Ht)
      as (out & rs & Eo & Hwf).
    destruct (isSimpleEscape_cases e He)
      as [-> | [-> | [-> | [-> | [-> | [-> | [-> | ->]]]]]]];
      cbn [Ascii.eqb Bool.eqb andb orb json.dquote json.backslash];
      rewrite Eo; cbn [option_map];
      eexists; eexists; (split; [reflexivity |]);
      (apply wellFormed_ascii_cons; [vm_compute; discriminate | exact Hwf]).
  - (* a \u escape *)
    rewrite Ascii.eqb_refl.
    cbn [Ascii.eqb Bool.eqb andb orb json.dquote json.backslash].
    destruct (getu4_escape h1 h2 h3 h4 s' H1 H2 H3 H4)
      as (v1 & v2 & v3 & v4 & _ & _ & _ & _ & Eg & Rg).
    rewrite Eg.
    set (rr := ((v1 * 16 + v2) * 16 + v3) * 16 + v4) in *.
    destruct (Z.ltb_spec rr 0); [lia |].
    cbn [skipn]. cbn [List.length] in Hle.
    destruct (IH s' ltac:(lia) Ht) as (out & rs & Eo & Hwf).
    destruct (utf16.IsSurrogate rr) eqn:Esur.
    + destruct (utf16.DecodeRune rr (json.getu4 s') =? utf16.replacementChar)
        eqn:Edec; cbn [negb].
      * rewrite Eo. cbn [option_map]. eexists; eexists.
        split; [reflexivity |]. apply wellFormed_rune_app;
          [apply scalar_RuneError | exact Hwf].
      * apply Z.eqb_neq in Edec.
        destruct (utf16_DecodeRune_pair rr (json.getu4 s'))
          as [? | [Hsc Hr2]]; [contradiction |].
        destruct (getu4_nonneg s' ltac:(lia))
          as (k1 & k2 & k3 & k4 & t3 & -> & _).
        pose proof (stringBody_unicode_inv _ _ _ _ _ Ht) as Ht3.
        cbn [skipn]. cbn [List.length] in Hle.
        destruct (IH t3 ltac:(lia) Ht3) as (out3 & rs3 & -> & Hwf3).
        cbn [option_map]. eexists; eexists. split; [reflexivity |].
        apply wellFormed_rune_app; [exact Hsc | exact Hwf3].
    + rewrite Eo. cbn [option_map]. eexists; eexists.
      split; [reflexivity |]. apply wellFormed_rune_app; [| exact Hwf].
      unfold utf16.IsSurrogate, utf16.surr1, utf16.surr3 in Esur.
      unfold utf8.scalar, utf8.MaxRune, utf8.surrogateMin, utf8.surrogateMax.
      apply andb_false_iff in Esur.
      destruct Esur as [E | E]; [apply Z.leb_gt in E | apply Z.ltb_ge in E]; lia.
Qed.

Lemma unquoteBody_total (raw : list ascii) :
  grammar.stringBody raw ->
  exists out rs, json.unquoteBody raw = Some out /\ utf8.wellFormed out rs.
Proof.
  intros H. rewrite unquoteBody_loop. now apply unquoteLoop_total.
Qed.

(** ** Quoting *)

Lemma appendStringLoop_unfold (fuel : nat) (c : ascii) (t : list ascii) :
  json.appendStringLoop (S fuel) (c :: t) =
  let s := c :: t in
  if byteZ c <? utf8.RuneSelf then
    if json.htmlSafeSet c then c :: json.appendStringLoop fuel t
    else json.escapeByte c ++ json.appendStringLoop fuel t
  else
    let (r, size) := utf8.DecodeRune (firstn utf8.UTFMax s) in
    if (r =? utf8.RuneError) && (size =? 1)%nat then
      json.replacementEscape ++ json.appendStringLoop fuel (skipn size s)
    else if (r =? 0x2028) || (r =? 0x2029) then
      json.la "\u202" ++ [json.hex (Z.land r 0xF)]
         ++ json.appendStringLoop fuel (skipn size s)
    else firstn size s ++ json.appendStringLoop fuel (skipn size s).
Proof. reflexivity. Qed.

(** One round of the loop of [appendString] over a well-formed
    sequence. *)
Lemma appendStringLoop_step (fuel : nat) (u : list ascii) (r : Z)
  (s : list ascii) :
  utf8.wellFormed1 u r ->
  json.appendStringLoop (S fuel) (u ++ s)
  = quoteRune u r ++ json.appendStringLoop fuel s.
Proof.
  intros Hwf.
  assert (forall k, utf8.DecodeRune (u ++ firstn k s) = (r, List.length u))
    as Hd by (intros k; now apply DecodeRune_wf).
  destruct Hwf as [c0 H0 | c0 c1 H0 H1 | c0 c1 c2 H0 H1 Hlo Hhi H2
                  | c0 c1 c2 c3 H0 H1 Hlo Hhi H2 H3];
    cbn [app]; rewrite appendStringLoop_unfold; cbv zeta;
    unfold utf8.RuneSelf, utf8.UTFMax.
  - destruct (Z.ltb_spec (byteZ c0) 128); [| lia].
    unfold quoteRune. destruct (json.htmlSafeSet c0); reflexivity.
  - destruct (Z.ltb_spec (byteZ c0) 128); [lia |].
    change (firstn 4 (c0 :: c1 :: s)) with ([c0; c1] ++ firstn 2 s).
    rewrite Hd. cbn [List.length Nat.eqb skipn firstn].
    rewrite andb_false_r. unfold quoteRune.
    destruct ((_ =? 8232) || (_ =? 8233)); cbn [app];
      now rewrite <- ?app_assoc.
  - destruct (Z.ltb_spec (byteZ c0) 128); [lia |].
    change (firstn 4 (c0 :: c1 :: c2 :: s))
      with ([c0; c1; c2] ++ firstn 1 s).
    rewrite Hd. cbn [List.length Nat.eqb skipn firstn].
    rewrite andb_false_r. unfold quoteRune.
    destruct ((_ =? 8232) || (_ =? 8233)); cbn [app];
      now rewrite <- ?app_assoc.
  - destruct (Z.ltb_spec (byteZ c0) 128); [lia |].
    change (firstn 4 (c0 :: c1 :: c2 :: c3 :: s))
      with ([c0; c1; c2; c3] ++ firstn 0 s).
    rewrite Hd. cbn [List.length Nat.eqb skipn firstn].
    rewrite andb_false_r. unfold quoteRune.
    destruct ((_ =? 8232) || (_ =? 8233)); cbn [app];
      now rewrite <- ?app_assoc.
Qed.

Ltac enum16 i :=
  let H := fresh in
  assert (i = 0 \/ i = 1 \/ i = 2 \/ i = 3 \/ i = 4 \/ i = 5 \/ i = 6
          \/ i = 7 \/ i = 8 \/ i = 9 \/ i = 10 \/ i = 11 \/ i = 12
          \/ i = 13 \/ i = 14 \/ i = 15) as H by lia;
  repeat (destruct H as [H | H]; [rewrite H |]); [.. | rewrite H].

(** The digits of [hex]. *)
Lemma hex_props (i : Z) :
  0 <= i < 16 ->
  json.hexValue (json.hex i) = Some i /\ json.isHex (json.hex i) = true
  /\ isHTMLChar (json.hex i) = false.
Proof. intros Hi. enum16 i; repeat split. Qed.

Lemma htmlSafeSet_plain (c : ascii) :
  json.htmlSafeSet c = true ->
  c <> json.backslash /\ c <> json.dquote /\ 0x20 <= byteZ c < 0x80
  /\ isHTMLChar c = false.
Proof.
  unfold json.htmlSafeSet, isHTMLChar, utf8.RuneSelf.
  destruct (Z.leb_spec 0x20 (byteZ c)); [| discriminate].
  destruct (Z.ltb_spec (byteZ c) 0x80); [| discriminate].
  cbn [andb]. ascii_cases; cbn; intros Hs; try discriminate.
  repeat split; auto; lia.
Qed.

(** What [appendString] writes for an ASCII byte outside
    [htmlSafeSet]: a two-character escape or [\u00XY]. *)
Lemma escapeByte_cases (c : ascii) :
  byteZ c <= 0x7F ->
  (exists e, json.escapeByte c = [json.backslash; e] /\
     json.isSimpleEscape e = true /\ isHTMLChar e = false /\
     forall fuel t,
       json.unquoteLoop (S fuel) (json.backslash :: e :: t)
       = option_map (cons c) (json.unquoteLoop fuel t))
  \/ (exists h1 h2,
        json.escapeByte c
        = [json.backslash; "u"%char; "0"%char; "0"%char; h1; h2] /\
        json.hexValue h1 = Some (byteZ c / 16) /\
        json.hexValue h2 = Some (byteZ c mod 16) /\
        json.isHex h1 = true /\ json.isHex h2 = true /\
        isHTMLChar h1 = false /\ isHTMLChar h2 = false).
Proof.
  intros Hc. pose proof (byteZ_range c) as R.
  unfold json.escapeByte.
  destruct (Ascii.eqb_spec c json.backslash) as [-> | ?];
    [left; eexists; repeat split |].
  destruct (Ascii.eqb_spec c json.dquote) as [-> | ?];
    [left; eexists; repeat split |].
  cbn [orb].
  destruct (Ascii.eqb_spec c "008") as [-> | ?];
    [left; eexists; repeat split |].
  destruct (Ascii.eqb_spec c "012") as [-> | ?];
    [left; eexists; repeat split |].
  destruct (Ascii.eqb_spec c "010") as [-> | ?];
    [left; eexists; repeat split |].
  destruct (Ascii.eqb_spec c "013") as [-> | ?];
    [left; eexists; repeat split |].
  destruct (Ascii.eqb_spec c "009") as [-> | ?];
    [left; eexists; repeat split |].
  right. eexists. eexists. split; [reflexivity |].
  rewrite shiftr_div by lia. change 0xF with (2 ^ 4 - 1).
  rewrite land_low by lia. change (2 ^ 4) with 16.
  assert (0 <= byteZ c / 16 < 16) as R1 by arith.
  assert (0 <= byteZ c mod 16 < 16) as R2 by arith.
  destruct (hex_props _ R1) as (? & ? & ?).
  destruct (hex_props _ R2) as (? & ? & ?).
  repeat split; assumption.
Qed.

Lemma high_bytes_body (u : list ascii) :
  Forall (fun c => 0x80 <= byteZ c) u ->
  grammar.stringBody u /\ Forall (fun c => isHTMLChar c = false) u.
Proof.
  induction 1 as [| c u Hc Hu [IH1 IH2]]; [split; constructor |].
  destruct (high_byte_plain c Hc) as (Hb & Hq & _ & _).
  apply Ascii.eqb_neq in Hb, Hq. split.
  - constructor; auto. lia.
  - constructor; [| exact IH2]. unfold isHTMLChar.
    ascii_cases; try reflexivity; vm_compute in Hc; now contradiction Hc.
Qed.

(** What [appendString] writes for a rune is a piece of a string of
    the grammar, with none of [<], [>] and [&] in it. *)
Lemma quoteRune_body (u : list ascii) (r : Z) :
  utf8.wellFormed1 u r ->
  grammar.stringBody (quoteRune u r)
  /\ Forall (fun c => isHTMLChar c = false) (quoteRune u r).
Proof.
  intros Hwf.
  assert (forall v w, (2 <= List.length (v :: w))%nat ->
            utf8.wellFormed1 (v :: w) r ->
            grammar.stringBody
              (if (r =? 0x2028) || (r =? 0x2029)
               then json.la "\u202" ++ [json.hex (Z.land r 0xF)]
               else v :: w)
            /\ Forall (fun c => isHTMLChar c = false)
                 (if (r =? 0x2028) || (r =? 0x2029)
                  then json.la "\u202" ++ [json.hex (Z.land r 0xF)]
                  else v :: w)) as Hmulti.
  { intros v w Hl Hw.
    destruct (Z.eqb_spec r 0x2028) as [-> | ?];
      [split; [now repeat constructor | repeat constructor] |].
    destruct (Z.eqb_spec r 0x2029) as [-> | ?];
      [split; [now repeat constructor | repeat constructor] |].
    cbn [orb]. apply high_bytes_body.
    apply (wellFormed1_high (v :: w) r Hw).
    inversion Hw; subst; cbn [List.length] in Hl; lia. }
  destruct Hwf as [c0 H0 | c0 c1 H0 H1 | c0 c1 c2 H0 H1 Hlo Hhi H2
                  | c0 c1 c2 c3 H0 H1 Hlo Hhi H2 H3].
  - unfold quoteRune. destruct (json.htmlSafeSet c0) eqn:Es.
    + destruct (htmlSafeSet_plain c0 Es) as (Hb & Hq & Hr & Hh).
      split; repeat constructor; auto; lia.
    + destruct (escapeByte_cases c0 H0)
        as [(e & -> & He & Hh & _)
           | (h1 & h2 & -> & _ & _ & X1 & X2 & Y1 & Y2)].
      * split; [now repeat constructor | repeat constructor; auto].
      * split; [apply grammar.body_unicode; auto; constructor
               | repeat constructor; auto].
  - apply Hmulti; [cbn; lia | now constructor].
  - apply Hmulti; [cbn; lia | now constructor].
  - apply Hmulti; [cbn; lia | now constructor].
Qed.

Lemma quoteRune_nonempty (u : list ascii) (r : Z) :
  utf8.wellFormed1 u r -> (1 <= List.length (quoteRune u r))%nat.
Proof.
  intros Hwf.
  destruct Hwf as [c0 H0 | c0 c1 H0 H1 | c0 c1 c2 H0 H1 Hlo Hhi H2
                  | c0 c1 c2 c3 H0 H1 Hlo Hhi H2 H3]; unfold quoteRune.
  - destruct (json.htmlSafeSet c0); [cbn; lia |].
    destruct (escapeByte_cases c0 H0)
      as [(e & -> & _) | (h1 & h2 & -> & _)]; cbn; lia.
  - destruct ((_ =? _) || (_ =? _)); cbn; lia.
  - destruct ((_ =? _) || (_ =? _)); cbn; lia.
  - destruct ((_ =? _) || (_ =? _)); cbn; lia.
Qed.

(** [unquoteBytes] reads back what [appendString] wrote for a rune. *)
Lemma unquoteLoop_quoteRune (u : list ascii) (r : Z) (q out : list ascii)
  (f : nat) :
  utf8.wellFormed1 u r ->
  json.unquoteLoop (List.length q) q = Some out ->
  (List.length (quoteRune u r ++ q) <= f)%nat ->
  json.unquoteLoop f (quoteRune u r ++ q) = Some (u ++ out).
Proof.
  intros Hwf Hq Hf.
  pose proof (quoteRune_nonempty u r Hwf) as Hne.
  rewrite length_app in Hf.
  destruct f as [| f]; [lia |].
  assert (forall q', (List.length q' <= f)%nat -> q' = q ->
            json.unquoteLoop f q' = Some out) as Hrest.
  { intros q' Hl ->. rewrite <- Hq. apply unquoteLoop_fuel; lia. }
  (* a sequence of several bytes, written as it is *)
  assert (forall v w, (2 <= List.length (v :: w))%nat ->
            utf8.wellFormed1 (v :: w) r ->
            (List.length q < f)%nat ->
            json.unquoteLoop (S f) ((v :: w) ++ q) = Some ((v :: w) ++ out))
    as Hverb.
  { intros v w Hl Hw Hlen.
    assert (0x80 <= byteZ v) as Hv
      by (inversion Hw; subst; cbn [List.length] in Hl; lia).
    destruct (high_byte_plain v Hv) as (Eb & Eq & E20 & Eself).
    cbn [app]. rewrite unquoteLoop_unfold. cbv zeta.
    rewrite Eb, Eq, E20, Eself. cbn [orb].
    change (v :: w ++ q) with ((v :: w) ++ q).
    rewrite (DecodeRune_wf _ _ q Hw), skipn_app_length,
      (EncodeRune_wf _ _ Hw).
    rewrite Hrest by (reflexivity || lia). reflexivity. }
  (* U+2028 and U+2029, escaped *)
  assert (forall v w, utf8.wellFormed1 (v :: w) r ->
            (r = 0x2028 \/ r = 0x2029) ->
            (6 + List.length q <= S f)%nat ->
            json.unquoteLoop (S f)
              ((json.la "\u202" ++ [json.hex (Z.land r 0xF)]) ++ q)
            = Some ((v :: w) ++ out)) as Hsep.
  { intros v w Hw Hr Hlen.
    rewrite <- (EncodeRune_wf _ _ Hw).
    destruct Hr as [-> | ->].
    - change (json.hex (Z.land 8232 15)) with "8"%char.
      cbn [app json.la list_ascii_of_string]. rewrite unquoteLoop_unfold.
      cbv zeta.
      match goal with |- context [json.getu4 ?l] =>
        change (json.getu4 l) with 8232 end.
      cbn [Ascii.eqb Bool.eqb andb orb json.dquote json.backslash skipn].
      change (8232 <? 0) with false.
      change (utf16.IsSurrogate 8232) with false. cbv iota.
      rewrite Hrest by (reflexivity || lia). reflexivity.
    - change (json.hex (Z.land 8233 15)) with "9"%char.
      cbn [app json.la list_ascii_of_string]. rewrite unquoteLoop_unfold.
      cbv zeta.
      match goal with |- context [json.getu4 ?l] =>
        change (json.getu4 l) with 8233 end.
      cbn [Ascii.eqb Bool.eqb andb orb json.dquote json.backslash skipn].
      change (8233 <? 0) with false.
      change (utf16.IsSurrogate 8233) with false. cbv iota.
      rewrite Hrest by (reflexivity || lia). reflexivity. }
  destruct Hwf as [c0 H0 | c0 c1 H0 H1 | c0 c1 c2 H0 H1 Hlo Hhi H2
                  | c0 c1 c2 c3 H0 H1 Hlo Hhi H2 H3].
  - unfold quoteRune in *. destruct (json.htmlSafeSet c0) eqn:Es.
    + destruct (htmlSafeSet_plain c0 Es) as (Hb & Hdq & Hr & _).
      cbn [app List.length] in *. rewrite unquoteLoop_unfold. cbv zeta.
      destruct (Ascii.eqb_spec c0 json.backslash); [contradiction |].
      destruct (Ascii.eqb_spec c0 json.dquote); [contradiction |].
      destruct (Z.ltb_spec (byteZ c0) 0x20); [lia |].
      destruct (Z.ltb_spec (byteZ c0) utf8.RuneSelf);
        [| unfold utf8.RuneSelf in *; lia].
      cbn [orb]. rewrite Hrest by (reflexivity || lia). reflexivity.
    + destruct (escapeByte_cases c0 H0)
        as [(e & Ee & _ & _ & Hun)
           | (h1 & h2 & Ee & V1 & V2 & _)]; rewrite Ee in *;
        cbn [app List.length] in *.
      * rewrite Hun, Hrest by (reflexivity || lia). reflexivity.
      * rewrite unquoteLoop_unfold. cbv zeta.
        rewrite Ascii.eqb_refl.
        cbn [Ascii.eqb Bool.eqb andb orb json.dquote json.backslash].
        unfold json.getu4. rewrite !Ascii.eqb_refl. cbn [andb].
        rewrite V1, V2.
        change (json.hexValue "0") with (Some 0). cbv iota beta.
        replace (((0 * 16 + 0) * 16 + byteZ c0 / 16) * 16 + byteZ c0 mod 16)
          with (byteZ c0) by arith.
        pose proof (byteZ_range c0) as R.
        destruct (Z.ltb_spec (byteZ c0) 0); [lia |].
        assert (utf16.IsSurrogate (byteZ c0) = false) as ->.
        { unfold utf16.IsSurrogate, utf16.surr1.
          destruct (Z.leb_spec 0xd800 (byteZ c0)); [lia | reflexivity]. }
        cbn [skipn]. rewrite Hrest by (reflexivity || lia).
        cbn [option_map].
        now rewrite (EncodeRune_wf [c0] (byteZ c0) (utf8.wf1 c0 H0)).
  - unfold quoteRune in *.
    destruct (Z.eqb_spec ((byteZ c0 - 192) * 64 + (byteZ c1 - 128)) 0x2028)
      as [E | ?];
      [apply Hsep; [now constructor | now left | cbn [orb app List.length] in *; rewrite E in *; cbn in Hf; lia] |].
    destruct (Z.eqb_spec ((byteZ c0 - 192) * 64 + (byteZ c1 - 128)) 0x2029)
      as [E | ?];
      [apply Hsep; [now constructor | now right | cbn [orb app List.length] in *; rewrite E in *; cbn in Hf; lia] |].
    cbn [orb] in *. apply Hverb; [cbn; lia | now constructor | cbn in Hf; lia].
  - unfold quoteRune in *.
    set (r := (byteZ c0 - 224) * 4096 + (byteZ c1 - 128) * 64
              + (byteZ c2 - 128)) in *.
    assert (utf8.wellFormed1 [c0; c1; c2] r) as Hw by now constructor.
    destruct (Z.eqb_spec r 0x2028) as [E | ?];
      [apply Hsep; [exact Hw | now left | cbn in Hf; lia] |].
    destruct (Z.eqb_spec r 0x2029) as [E | ?];
      [apply Hsep; [exact Hw | now right | cbn in Hf; lia] |].
    cbn [orb] in *. apply Hverb; [cbn; lia | exact Hw | cbn in Hf; lia].
  - unfold quoteRune in *.
    set (r := (byteZ c0 - 240) * 262144 + (byteZ c1 - 128) * 4096
              + (byteZ c2 - 128) * 64 + (byteZ c3 - 128)) in *.
    assert (utf8.wellFormed1 [c0; c1; c2; c3] r) as Hw by now constructor.
    destruct (Z.eqb_spec r 0x2028) as [E | ?];
      [apply Hsep; [exact Hw | now left | cbn in Hf; lia] |].
    destruct (Z.eqb_spec r 0x2029) as [E | ?];
      [apply Hsep; [exact Hw | now right | cbn in Hf; lia] |].
    cbn [orb] in *. apply Hverb; [cbn; lia | exact Hw | cbn in Hf; lia].
Qed.

(** What [appendString] writes between the quotes for well-formed
    UTF-8: a string of the grammar, free of [<], [>] and [&], that
    [unquoteBytes] reads back as the string quoted. *)
Lemma appendStringLoop_wellFormed (s : list ascii) (rs : list Z) :
  utf8.wellFormed s rs ->
  forall fuel, (List.length rs <= fuel)%nat ->
  grammar.stringBody (json.appendStringLoop fuel s)
  /\ Forall (fun c => isHTMLChar c = false) (json.appendStringLoop fuel s)
  /\ forall f, (List.length (json.appendStringLoop fuel s) <= f)%nat ->
       json.unquoteLoop f (json.appendStringLoop fuel s) = Some s.
Proof.
  induction 1 as [| u r s rs Hu Hs IH]; intros fuel Hfuel.
  - assert (json.appendStringLoop fuel [] = []) as ->
      by (destruct fuel; reflexivity).
    repeat split; [constructor | constructor |].
    intros f _. destruct f; reflexivity.
  - destruct fuel as [| fuel]; [cbn in Hfuel; lia |].
    cbn [List.length] in Hfuel.
    rewrite (appendStringLoop_step fuel u r s Hu).
    destruct (IH fuel ltac:(lia)) as (Hbody & Hfree & Hun).
    destruct (quoteRune_body u r Hu) as (Hb1 & Hf1).
    repeat split.
    + now apply stringBody_app.
    + apply Forall_app. now split.
    + intros f Hf. apply unquoteLoop_quoteRune; [exact Hu | | exact Hf].
      apply Hun. apply le_n.
Qed.

Lemma appendString_wellFormed (s : list ascii) (rs : list Z) :
  utf8.wellFormed s rs ->
  exists body,
    json.appendString s = grammar.quoted body /\ grammar.stringBody body
    /\ Forall (fun c => isHTMLChar c = false) body
    /\ json.unquoteBody body = Some s.
Proof.
  intros Hwf. exists (json.appendStringLoop (List.length s) s).
  destruct (appendStringLoop_wellFormed s rs Hwf (List.length s)
              (wellFormed_length s rs Hwf)) as (Hb & Hf & Hun).
  repeat split; try assumption.
  rewrite unquoteBody_loop. apply Hun. apply le_n.
Qed.

(** ** The bytes written for a string *)

Lemma cleanText_app (a b : list ascii) :
  cleanText a -> cleanText b -> cleanText (a ++ b).
Proof.
  intros ((ra & Ha & Sa) & Pa) ((rb & Hb & Sb) & Pb). split.
  - exists (ra ++ rb). split; [now apply wellFormed_app |].
    apply Forall_app. now split.
  - apply Forall_app. now split.
Qed.

Lemma cleanText_ascii (l : list ascii) :
  Forall (fun c => 0x20 <= byteZ c <= 0x7F) l -> cleanText l.
Proof.
  intros H. split.
  - exists (map byteZ l). split.
    + apply ascii_wellFormed.
      eapply Forall_impl; [| exact H]. cbv beta. intros c Hc. lia.
    + apply Forall_map.
      eapply Forall_impl; [| exact H]. cbv beta. intros c Hc. lia.
  - eapply Forall_impl; [| exact H]. cbv beta. intros c Hc. lia.
Qed.

Lemma isSimpleEscape_ascii (e : ascii) :
  json.isSimpleEscape e = true -> 0x20 <= byteZ e <= 0x7F.
Proof.
  intros H.
  destruct (isSimpleEscape_cases e H)
    as [-> | [-> | [-> | [-> | [-> | [-> | [-> | ->]]]]]]];
    vm_compute; split; discriminate.
Qed.

Lemma isHex_ascii (h : ascii) :
  json.isHex h = true -> 0x20 <= byteZ h <= 0x7F.
Proof.
  destruct h as [[] [] [] [] [] [] [] []]; vm_compute; intros H;
    (discriminate H || (split; discriminate)).
Qed.

(** What [appendString] writes for a rune is well-formed UTF-8 with no
    control byte. *)
Lemma quoteRune_clean (u : list ascii) (r : Z) :
  utf8.wellFormed1 u r -> cleanText (quoteRune u r).
Proof.
  intros Hwf.
  assert (forall v w, (2 <= List.length (v :: w))%nat ->
            utf8.wellFormed1 (v :: w) r ->
            cleanText (if (r =? 0x2028) || (r =? 0x2029)
                       then json.la "\u202" ++ [json.hex (Z.land r 0xF)]
                       else v :: w)) as Hmulti.
  { intros v w Hl Hw.
    destruct (Z.eqb_spec r 0x2028) as [-> | ?];
      [apply cleanText_ascii; repeat constructor; vm_compute; discriminate |].
    destruct (Z.eqb_spec r 0x2029) as [-> | ?];
      [apply cleanText_ascii; repeat constructor; vm_compute; discriminate |].
    cbn [orb]. split.
    - exists [r]. split; [| now repeat constructor].
      rewrite <- (app_nil_r (v :: w)).
      constructor; [exact Hw | constructor].
    - assert (Forall (fun c => 0x80 <= byteZ c) (v :: w)) as Hh.
      { apply (wellFormed1_high (v :: w) r Hw).
        inversion Hw; subst; cbn [List.length] in Hl; lia. }
      eapply Forall_impl; [| exact Hh]. cbv beta. intros c Hc. lia. }
  destruct Hwf as [c0 H0 | c0 c1 H0 H1 | c0 c1 c2 H0 H1 Hlo Hhi H2
                  | c0 c1 c2 c3 H0 H1 Hlo Hhi H2 H3].
  - unfold quoteRune. destruct (json.htmlSafeSet c0) eqn:Es.
    + destruct (htmlSafeSet_plain c0 Es) as (_ & _ & Hr & _).
      apply cleanText_ascii. repeat constructor; lia.
    + destruct (escapeByte_cases c0 H0)
        as [(e & -> & He & _)
           | (h1 & h2 & -> & _ & _ & X1 & X2 & _)];
        apply cleanText_ascii.
      * pose proof (isSimpleEscape_ascii e He).
        repeat constructor; try lia; vm_compute; discriminate.
      * pose proof (isHex_ascii h1 X1). pose proof (isHex_ascii h2 X2).
        repeat constructor; try lia; vm_compute; discriminate.
  - apply Hmulti; [cbn; lia | now constructor].
  - apply Hmulti; [cbn; lia | now constructor].
  - apply Hmulti; [cbn; lia | now constructor].
Qed.

Lemma appendStringLoop_clean (s : list ascii) (rs : list Z) :
  utf8.wellFormed s rs ->
  forall fuel, (List.length rs <= fuel)%nat ->
  cleanText (json.appendStringLoop fuel s).
Proof.
  induction 1 as [| u r s rs Hu Hs IH]; intros fuel Hfuel.
  - assert (json.appendStringLoop fuel [] = []) as ->
      by (destruct fuel; reflexivity).
    apply cleanText_ascii. constructor.
  - destruct fuel as [| fuel]; [cbn in Hfuel; lia |].
    cbn [List.length] in Hfuel.
    rewrite (appendStringLoop_step fuel u r s Hu).
    apply cleanText_app; [now apply quoteRune_clean | apply IH; lia].
Qed.

(** What [appendString] writes for well-formed UTF-8 is well-formed
    UTF-8 with no control byte. *)
Lemma appendString_clean (s : list ascii) (rs : list Z) :
  utf8.wellFormed s rs -> cleanText (json.appendString s).
Proof.
  intros Hwf. unfold json.appendString.
  change (json.dquote :: json.appendStringLoop (List.length s) s
            ++ [json.dquote])
    with ([json.dquote] ++ json.appendStringLoop (List.length s) s
            ++ [json.dquote]).
  apply cleanText_app;
    [apply cleanText_ascii; repeat constructor; vm_compute; discriminate |].
  apply cleanText_app;
    [| apply cleanText_ascii; repeat constructor; vm_compute; discriminate].
  apply (appendStringLoop_clean s rs Hwf).
  now apply wellFormed_length.
Qed.


(** ** The decoder against the grammar *)

Section Decoder.

Variable float64 : Type.
Variable ParseFloat : list ascii -> option float64.

Local Abbreviation any := (json.any float64).
Local Abbreviation value := (json.value float64 ParseFloat).
Local Abbreviation arrayRest := (json.arrayRest float64 ParseFloat).
Local Abbreviation objectRest := (json.objectRest float64 ParseFloat).
Local Abbreviation literalInterface := (json.literalInterface float64 ParseFloat).
Local Abbreviation build := (grammar.build float64 ParseFloat).
Local Abbreviation buildElements := (grammar.buildElements float64 ParseFloat).
Local Abbreviation buildMembers := (grammar.buildMembers float64 ParseFloat).

Lemma hasPrefix_true (p s : list ascii) :
  json.hasPrefix p s = true -> s = p ++ skipn (List.length p) s.
Proof.
  unfold json.hasPrefix.
  destruct (list_eq_dec ascii_dec (firstn (List.length p) s) p) as [E |];
    [| discriminate].
  intros _. rewrite <- E at 1. symmetry. apply firstn_skipn.
Qed.

Lemma hasPrefix_app (p rest : list ascii) :
  json.hasPrefix p (p ++ rest) = true.
Proof.
  unfold json.hasPrefix. rewrite firstn_app_length.
  destruct (list_eq_dec ascii_dec p p); [reflexivity | contradiction].
Qed.

(** What [literalInterface] reads is a literal of the grammar, and its
    value is the literal's. *)
Lemma literalInterface_sound (saved : option json.error) (s : list ascii)
  (v : any) (saved' : option json.error) (rest : list ascii) :
  literalInterface saved s = inr (v, saved', rest) ->
  exists c, isLiteral c /\ grammar.wf c /\ s = grammar.render c ++ rest
            /\ build c saved = (v, saved').
Proof.
  unfold json.literalInterface. destruct s as [| c t]; [discriminate |].
  destruct (Ascii.eqb_spec c "n") as [-> | Hn].
  { destruct (json.hasPrefix (json.la "null") ("n"%char :: t)) eqn:E;
      [| discriminate].
    intros H. inversion H; subst. exists grammar.CNull.
    repeat split. exact (hasPrefix_true _ _ E). }
  destruct (Ascii.eqb_spec c "t") as [-> | Ht].
  { destruct (json.hasPrefix (json.la "true") ("t"%char :: t)) eqn:E;
      [| discriminate].
    intros H. inversion H; subst. exists grammar.CTrue.
    repeat split. exact (hasPrefix_true _ _ E). }
  destruct (Ascii.eqb_spec c "f") as [-> | Hf].
  { destruct (json.hasPrefix (json.la "false") ("f"%char :: t)) eqn:E;
      [| discriminate].
    intros H. inversion H; subst. exists grammar.CFalse.
    repeat split. exact (hasPrefix_true _ _ E). }
  destruct (Ascii.eqb_spec c json.dquote) as [-> | Hq].
  { destruct (json.scanString t) as [[raw r] |] eqn:E; [| discriminate].
    destruct (scanString_sound t raw r E) as (-> & Hraw).
    rewrite unquoteBytes_quoted.
    destruct (json.unquoteBody raw) as [str |] eqn:Eu; [| discriminate].
    intros H. inversion H; subst. exists (grammar.CString raw).
    repeat split; [exact Hraw | |].
    - unfold grammar.render, grammar.quoted. cbn [app].
      now rewrite <- app_assoc.
    - cbn [grammar.build]. unfold grammar.unquoted. now rewrite Eu. }
  destruct (json.scanNumber (c :: t)) as [[item r] |] eqn:E; [| discriminate].
  destruct (scanNumber_sound _ _ _ E) as (Hs & Hlit).
  intros H. exists (grammar.CNumber item). cbn [grammar.build grammar.render].
  destruct (ParseFloat item); inversion H; subst;
    (repeat split; [exact Hlit | exact Hs]).
Qed.

(** [literalInterface] reads every literal of the grammar that a
    delimiter follows. *)
Lemma literalInterface_complete (saved : option json.error)
  (c : grammar.cst) (rest : list ascii) :
  isLiteral c -> grammar.wf c -> delimited rest ->
  literalInterface saved (grammar.render c ++ rest)
  = inr (fst (build c saved), snd (build c saved), rest).
Proof.
  intros Hl Hwf Hr. destruct c; try contradiction; cbn [grammar.render].
  - reflexivity.
  - reflexivity.
  - reflexivity.
  - cbn [grammar.wf] in Hwf.
    destruct (numberLit_head lit Hwf) as (ch & t & -> & Hch).
    pose proof (scanNumber_complete _ rest Hwf Hr) as Hscan.
    unfold json.literalInterface. cbn [app] in *.
    assert ((ch =? "n")%char = false /\ (ch =? "t")%char = false
            /\ (ch =? "f")%char = false /\ (ch =? json.dquote)%char = false)
      as (-> & -> & -> & ->).
    { destruct Hch as [-> | Hd]; [repeat split |].
      repeat split;
        match goal with |- (ch =? ?x)%char = false =>
          destruct (Ascii.eqb_spec ch x) as [-> |]; [discriminate | reflexivity]
        end. }
    rewrite Hscan. cbn [grammar.build].
    destruct (ParseFloat (ch :: t)); reflexivity.
  - cbn [grammar.wf] in Hwf.
    unfold json.literalInterface, grammar.quoted. cbn [app].
    change ((json.dquote =? "n")%char) with false.
    change ((json.dquote =? "t")%char) with false.
    change ((json.dquote =? "f")%char) with false.
    rewrite Ascii.eqb_refl. rewrite <- app_assoc. cbn [app].
    rewrite (scanString_complete raw rest Hwf), unquoteBytes_quoted.
    destruct (unquoteBody_total raw Hwf) as (out & rs & Eu & _).
    cbn [grammar.build]. unfold grammar.unquoted. now rewrite Eu.
Qed.

(** Unfold the functions of the grammar on a constructor. *)
Lemma build_CArray w es saved :
  build (grammar.CArray w es) saved
  = (let (l, saved') := buildElements es saved in (json.Slice _ l, saved')).
Proof. reflexivity. Qed.

Lemma build_CObject w ms saved :
  build (grammar.CObject w ms) saved
  = (let (m, saved') := buildMembers ms [] saved in (json.Map _ m, saved')).
Proof. reflexivity. Qed.

Lemma buildElements_ELast v w saved :
  buildElements (grammar.ELast v w) saved
  = (let (x, saved') := build v saved in ([x], saved')).
Proof. reflexivity. Qed.

Lemma buildElements_ECons v w w' es saved :
  buildElements (grammar.ECons v w w' es) saved
  = (let (x, saved1) := build v saved in
     let (l, saved2) := buildElements es saved1 in (x :: l, saved2)).
Proof. reflexivity. Qed.

Lemma buildMembers_MLast key w1 w2 v w3 m saved :
  buildMembers (grammar.MLast key w1 w2 v w3) m saved
  = (let (x, saved') := build v saved in
     (json.mapassign _ m (grammar.unquoted key) x, saved')).
Proof. reflexivity. Qed.

Lemma buildMembers_MCons key w1 w2 v w3 w4 ms m saved :
  buildMembers (grammar.MCons key w1 w2 v w3 w4 ms) m saved
  = (let (x, saved1) := build v saved in
     buildMembers ms (json.mapassign _ m (grammar.unquoted key) x) saved1).
Proof. reflexivity. Qed.

Lemma render_CArray w es :
  grammar.render (grammar.CArray w es)
  = "["%char :: w ++ grammar.renderElements es ++ ["]"%char].
Proof. reflexivity. Qed.

Lemma render_CObject w ms :
  grammar.render (grammar.CObject w ms)
  = "{"%char :: w ++ grammar.renderMembers ms ++ ["}"%char].
Proof. reflexivity. Qed.

Lemma renderElements_ELast v w :
  grammar.renderElements (grammar.ELast v w) = grammar.render v ++ w.
Proof. reflexivity. Qed.

Lemma renderElements_ECons v w w' es :
  grammar.renderElements (grammar.ECons v w w' es)
  = grammar.render v ++ w ++ ","%char :: w' ++ grammar.renderElements es.
Proof. reflexivity. Qed.

Lemma renderMembers_MLast key w1 w2 v w3 :
  grammar.renderMembers (grammar.MLast key w1 w2 v w3)
  = grammar.quoted key ++ w1 ++ ":"%char :: w2 ++ grammar.render v ++ w3.
Proof. reflexivity. Qed.

Lemma renderMembers_MCons key w1 w2 v w3 w4 ms :
  grammar.renderMembers (grammar.MCons key w1 w2 v w3 w4 ms)
  = grammar.quoted key ++ w1 ++ ":"%char :: w2 ++ grammar.render v ++ w3
      ++ ","%char :: w4 ++ grammar.renderMembers ms.
Proof. reflexivity. Qed.

Lemma depth_CArray w es :
  grammar.depth (grammar.CArray w es) = 1 + grammar.depthElements es.
Proof. reflexivity. Qed.

Lemma depth_CObject w ms :
  grammar.depth (grammar.CObject w ms) = 1 + grammar.depthMembers ms.
Proof. reflexivity. Qed.

Lemma depthElements_ELast v w :
  grammar.depthElements (grammar.ELast v w) = grammar.depth v.
Proof. reflexivity. Qed.

Lemma depthElements_ECons v w w' es :
  grammar.depthElements (grammar.ECons v w w' es)
  = Z.max (grammar.depth v) (grammar.depthElements es).
Proof. reflexivity. Qed.

Lemma depthMembers_MLast key w1 w2 v w3 :
  grammar.depthMembers (grammar.MLast key w1 w2 v w3) = grammar.depth v.
Proof. reflexivity. Qed.

Lemma depthMembers_MCons key w1 w2 v w3 w4 ms :
  grammar.depthMembers (grammar.MCons key w1 w2 v w3 w4 ms)
  = Z.max (grammar.depth v) (grammar.depthMembers ms).
Proof. reflexivity. Qed.

Lemma wf_CArray w es :
  grammar.wf (grammar.CArray w es)
  = (grammar.ws w /\ grammar.wfElements es).
Proof. reflexivity. Qed.

Lemma wf_CObject w ms :
  grammar.wf (grammar.CObject w ms)
  = (grammar.ws w /\ grammar.wfMembers ms).
Proof. reflexivity. Qed.

Lemma wfElements_ELast v w :
  grammar.wfElements (grammar.ELast v w) = (grammar.wf v /\ grammar.ws w).
Proof. reflexivity. Qed.

Lemma wfElements_ECons v w w' es :
  grammar.wfElements (grammar.ECons v w w' es)
  = (grammar.wf v /\ grammar.ws w /\ grammar.ws w'
     /\ grammar.wfElements es).
Proof. reflexivity. Qed.

Lemma wfMembers_MLast key w1 w2 v w3 :
  grammar.wfMembers (grammar.MLast key w1 w2 v w3)
  = (grammar.stringBody key /\ grammar.ws w1 /\ grammar.ws w2
     /\ grammar.wf v /\ grammar.ws w3).
Proof. reflexivity. Qed.

Lemma wfMembers_MCons key w1 w2 v w3 w4 ms :
  grammar.wfMembers (grammar.MCons key w1 w2 v w3 w4 ms)
  = (grammar.stringBody key /\ grammar.ws w1 /\ grammar.ws w2
     /\ grammar.wf v /\ grammar.ws w3 /\ grammar.ws w4
     /\ grammar.wfMembers ms).
Proof. reflexivity. Qed.

(** Unfold the functions of the grammar on a constructor. *)
Ltac gsimpl :=
  rewrite ?build_CArray, ?build_CObject, ?buildElements_ELast,
    ?buildElements_ECons, ?buildMembers_MLast, ?buildMembers_MCons,
    ?render_CArray, ?render_CObject, ?renderElements_ELast,
    ?renderElements_ECons, ?renderMembers_MLast, ?renderMembers_MCons,
    ?depth_CArray, ?depth_CObject, ?depthElements_ELast,
    ?depthElements_ECons, ?depthMembers_MLast, ?depthMembers_MCons,
    ?wf_CArray, ?wf_CObject, ?wfElements_ELast, ?wfElements_ECons,
    ?wfMembers_MLast, ?wfMembers_MCons.

Lemma isLiteral_depth (c : grammar.cst) : isLiteral c -> grammar.depth c = 0.
Proof. destruct c; cbn; intros H; (reflexivity || contradiction). Qed.

Lemma value_unfold (fuel : nat) (d : Z) (saved : option json.error)
  (c : ascii) (t : list ascii) :
  value (S fuel) d saved (c :: t) =
  if (c =? "[")%char then
    if d + 1 <=? json.maxNestingDepth then
      match json.skipSpace t with
      | [] => inl json.SyntaxError
      | c1 :: t1 =>
        if (c1 =? "]")%char then inr (json.Slice _ [], saved, t1)
        else arrayRest fuel (d + 1) saved [] (c1 :: t1)
      end
    else inl json.SyntaxError
  else if (c =? "{")%char then
    if d + 1 <=? json.maxNestingDepth then
      match json.skipSpace t with
      | [] => inl json.SyntaxError
      | c1 :: t1 =>
        if (c1 =? "}")%char then inr (json.Map _ [], saved, t1)
        else objectRest fuel (d + 1) saved [] (c1 :: t1)
      end
    else inl json.SyntaxError
  else literalInterface saved (c :: t).
Proof. reflexivity. Qed.

Lemma value_sound_step (fuel : nat) :
  soundArray float64 ParseFloat fuel ->
  soundObject float64 ParseFloat fuel ->
  soundValue float64 ParseFloat (S fuel).
Proof.
  intros HA HO d saved s v saved' rest Hd.
  destruct s as [| c t]; [discriminate |].
  rewrite value_unfold.
  destruct (Ascii.eqb_spec c "[") as [-> | Hna].
  { destruct (Z.leb_spec (d + 1) json.maxNestingDepth) as [Hdep |];
      [| discriminate].
    destruct (skipSpace_split t) as (w & Hw & Ht).
    destruct (json.skipSpace t) as [| c1 t1]; [discriminate |].
    destruct (Ascii.eqb_spec c1 "]") as [-> | Hnc].
    - intros H. injection H as <- <- <-. exists (grammar.CArray0 w).
      cbn [grammar.wf grammar.render grammar.build grammar.depth].
      split; [exact Hw | split; [| split; [reflexivity | lia]]].
      rewrite Ht. cbn [app]. now rewrite <- app_assoc.
    - intros H.
      destruct (HA (d + 1) saved [] _ v saved' rest ltac:(lia) H)
        as (es & l & Hes & Hs & Hb & -> & Hdd).
      exists (grammar.CArray w es).
      gsimpl.
      rewrite Hb.
      split; [now split | split; [| split; [reflexivity | lia]]].
      rewrite Ht, Hs. cbn [app]. now rewrite <- !app_assoc. }
  destruct (Ascii.eqb_spec c "{") as [-> | Hno].
  { destruct (Z.leb_spec (d + 1) json.maxNestingDepth) as [Hdep |];
      [| discriminate].
    destruct (skipSpace_split t) as (w & Hw & Ht).
    destruct (json.skipSpace t) as [| c1 t1]; [discriminate |].
    destruct (Ascii.eqb_spec c1 "}") as [-> | Hnc].
    - intros H. injection H as <- <- <-. exists (grammar.CObject0 w).
      cbn [grammar.wf grammar.render grammar.build grammar.depth].
      split; [exact Hw | split; [| split; [reflexivity | lia]]].
      rewrite Ht. cbn [app]. now rewrite <- app_assoc.
    - intros H.
      destruct (HO (d + 1) saved [] _ v saved' rest ltac:(lia) H)
        as (ms & m' & Hms & Hs & Hb & -> & Hdd).
      exists (grammar.CObject w ms).
      gsimpl.
      rewrite Hb.
      split; [now split | split; [| split; [reflexivity | lia]]].
      rewrite Ht, Hs. cbn [app]. now rewrite <- !app_assoc. }
  intros H.
  destruct (literalInterface_sound _ _ _ _ _ H) as (c0 & Hl & Hwf & Hs & Hb).
  exists c0. split; [exact Hwf | split; [exact Hs | split; [exact Hb |]]].
  rewrite (isLiteral_depth c0 Hl). lia.
Qed.

(** Equal lists, up to the nesting of [++] and [::]. *)
Ltac listeq :=
  repeat first [rewrite <- app_assoc | rewrite <- app_comm_cons];
  reflexivity.

Lemma arrayRest_unfold (fuel : nat) (d : Z) (saved : option json.error)
  (acc : list any) (s : list ascii) :
  arrayRest (S fuel) d saved acc s =
  match value fuel d saved s with
  | inl e => inl e
  | inr (v, saved', t) =>
    match json.skipSpace t with
    | [] => inl json.SyntaxError
    | c :: t' =>
      if (c =? ",")%char then
        arrayRest fuel d saved' (acc ++ [v]) (json.skipSpace t')
      else if (c =? "]")%char then inr (json.Slice _ (acc ++ [v]), saved', t')
      else inl json.SyntaxError
    end
  end.
Proof. reflexivity. Qed.

Lemma arrayRest_sound_step (fuel : nat) :
  soundValue float64 ParseFloat fuel ->
  soundArray float64 ParseFloat fuel ->
  soundArray float64 ParseFloat (S fuel).
Proof.
  intros HV HA d saved acc s v saved' rest Hd.
  rewrite arrayRest_unfold.
  destruct (value fuel d saved s) as [e | [[v1 saved1] t]] eqn:Ev;
    [discriminate |].
  destruct (HV d saved s v1 saved1 t Hd Ev) as (c1 & Hc1 & Hs & Hb1 & Hd1).
  destruct (skipSpace_split t) as (w & Hw & Ht).
  destruct (json.skipSpace t) as [| ch t']; [discriminate |].
  destruct (Ascii.eqb_spec ch ",") as [-> | Hnc].
  - intros H.
    destruct (HA d saved1 (acc ++ [v1]) _ v saved' rest Hd H)
      as (es & l & Hes & Hs' & Hb & -> & Hdd).
    destruct (skipSpace_split t') as (w' & Hw' & Ht').
    exists (grammar.ECons c1 w w' es), (v1 :: l). gsimpl.
    rewrite Hb1, Hb.
    split; [tauto | split; [| split; [reflexivity | split]]].
    + rewrite Hs, Ht, Ht', Hs'. listeq.
    + now rewrite <- app_assoc.
    + lia.
  - destruct (Ascii.eqb_spec ch "]") as [-> | ?]; [| discriminate].
    intros H. injection H as <- <- <-.
    exists (grammar.ELast c1 w), [v1]. gsimpl. rewrite Hb1.
    split; [tauto | split; [| split; [reflexivity | split]]].
    + rewrite Hs, Ht. listeq.
    + reflexivity.
    + lia.
Qed.

Lemma objectRest_unfold (fuel : nat) (d : Z) (saved : option json.error)
  (m : list (list ascii * any)) (q : ascii) (t : list ascii) :
  objectRest (S fuel) d saved m (q :: t) =
  if (q =? json.dquote)%char then
    match json.scanString t with
    | None => inl json.SyntaxError
    | Some (raw, t1) =>
      match json.unquoteBytes (json.dquote :: raw ++ [json.dquote]) with
      | None => inl json.phasePanic
      | Some key =>
        match json.skipSpace t1 with
        | [] => inl json.SyntaxError
        | c :: t2 =>
          if (c =? ":")%char then
            match value fuel d saved (json.skipSpace t2) with
            | inl e => inl e
            | inr (v, saved', t3) =>
              match json.skipSpace t3 with
              | [] => inl json.SyntaxError
              | c' :: t4 =>
                if (c' =? ",")%char then
                  objectRest fuel d saved' (json.mapassign _ m key v)
                             (json.skipSpace t4)
                else if (c' =? "}")%char then
                  inr (json.Map _ (json.mapassign _ m key v), saved', t4)
                else inl json.SyntaxError
              end
            end
          else inl json.SyntaxError
        end
      end
    end
  else inl json.SyntaxError.
Proof. reflexivity. Qed.

Lemma objectRest_sound_step (fuel : nat) :
  soundValue float64 ParseFloat fuel ->
  soundObject float64 ParseFloat fuel ->
  soundObject float64 ParseFloat (S fuel).
Proof.
  intros HV HO d saved m s v saved' rest Hd.
  destruct s as [| q t]; [discriminate |].
  rewrite objectRest_unfold.
  destruct (Ascii.eqb_spec q json.dquote) as [-> | ?]; [| discriminate].
  destruct (json.scanString t) as [[raw t1] |] eqn:Es; [| discriminate].
  destruct (scanString_sound t raw t1 Es) as (Ht & Hraw).
  rewrite unquoteBytes_quoted.
  destruct (json.unquoteBody raw) as [key |] eqn:Eu; [| discriminate].
  assert (grammar.unquoted raw = key) as Hkey
    by (unfold grammar.unquoted; now rewrite Eu).
  destruct (skipSpace_split t1) as (w1 & Hw1 & Ht1).
  destruct (json.skipSpace t1) as [| c t2]; [discriminate |].
  destruct (Ascii.eqb_spec c ":") as [-> | ?]; [| discriminate].
  destruct (skipSpace_split t2) as (w2 & Hw2 & Ht2).
  destruct (value fuel d saved (json.skipSpace t2))
    as [e | [[v1 saved1] t3]] eqn:Ev; [discriminate |].
  destruct (HV d saved _ v1 saved1 t3 Hd Ev) as (c1 & Hc1 & Hs & Hb1 & Hd1).
  destruct (skipSpace_split t3) as (w3 & Hw3 & Ht3).
  destruct (json.skipSpace t3) as [| ch t4]; [discriminate |].
  assert ("034"%char :: t
          = grammar.quoted raw ++ w1 ++ ":"%char :: w2
              ++ grammar.render c1 ++ w3 ++ ch :: t4) as Htext.
  { unfold grammar.quoted. cbn [app]. rewrite <- app_assoc. cbn [app].
    rewrite Ht, Ht1, Ht2, Hs, Ht3. listeq. }
  destruct (Ascii.eqb_spec ch ",") as [-> | Hnc].
  - intros H.
    destruct (HO d saved1 _ _ v saved' rest Hd H)
      as (ms & m' & Hms & Hs' & Hb & -> & Hdd).
    destruct (skipSpace_split t4) as (w4 & Hw4 & Ht4).
    exists (grammar.MCons raw w1 w2 c1 w3 w4 ms), m'. gsimpl.
    rewrite Hb1, Hkey, Hb.
    split; [tauto | split; [| split; [reflexivity | split]]].
    + change json.dquote with "034"%char. rewrite Htext, Ht4, Hs'.
      listeq.
    + reflexivity.
    + lia.
  - destruct (Ascii.eqb_spec ch "}") as [-> | ?]; [| discriminate].
    intros H. injection H as <- <- <-.
    exists (grammar.MLast raw w1 w2 c1 w3), (json.mapassign _ m key v1).
    gsimpl. rewrite Hb1, Hkey.
    split; [tauto | split; [| split; [reflexivity | split]]].
    + change json.dquote with "034"%char. rewrite Htext. listeq.
    + reflexivity.
    + lia.
Qed.

(** The decoder is sound: what it accepts is the text of a tree of the
    grammar, nested no deeper than the limit, and what it returns is
    the value of the tree. *)
Lemma decoder_sound (fuel : nat) :
  soundValue float64 ParseFloat fuel /\ soundArray float64 ParseFloat fuel
  /\ soundObject float64 ParseFloat fuel.
Proof.
  induction fuel as [| fuel (HV & HA & HO)].
  - repeat split; intros ? ? ? ? ? ? ?; try intros ?; discriminate.
  - split; [now apply value_sound_step |
            split; [now apply arrayRest_sound_step
                   | now apply objectRest_sound_step]].
Qed.

Lemma isDelimiter_false (ch : ascii) :
  isDelimiter ch = false ->
  json.isSpace ch = false /\ ch <> ","%char /\ ch <> "]"%char
  /\ ch <> "}"%char.
Proof.
  unfold isDelimiter. intros H.
  apply orb_false_elim in H. destruct H as [H H3].
  apply orb_false_elim in H. destruct H as [H H2].
  apply orb_false_elim in H. destruct H as [H0 H1].
  apply Ascii.eqb_neq in H1, H2, H3. auto.
Qed.

Lemma isDigit_not_delimiter (ch : ascii) :
  json.isDigit ch = true -> isDelimiter ch = false.
Proof.
  intros H. destruct (isDelimiter ch) eqn:E; [| reflexivity].
  destruct (delimiter_not_number ch E) as (H' & _). congruence.
Qed.

(** A value of the grammar starts with a byte that is no delimiter;
    a literal starts with neither a bracket nor a brace. *)
Lemma render_start (c : grammar.cst) :
  grammar.wf c ->
  exists ch t, grammar.render c = ch :: t /\ isDelimiter ch = false
    /\ (isLiteral c -> ch <> "["%char /\ ch <> "{"%char).
Proof.
  destruct c; intros Hwf; try (eexists; eexists; split;
    [reflexivity | split; [reflexivity | intros Hl; try contradiction;
                            split; discriminate]]).
  cbn [grammar.wf] in Hwf.
  destruct (numberLit_head lit Hwf) as (ch & t & -> & Hch).
  exists ch, t. split; [reflexivity |].
  destruct Hch as [-> | Hd];
    [split; [reflexivity | intros _; split; discriminate] |].
  split; [now apply isDigit_not_delimiter |].
  intros _. split; intros ->; discriminate.
Qed.

Lemma delimited_ws_app (w X : list ascii) :
  grammar.ws w -> delimited X -> delimited (w ++ X).
Proof.
  intros Hw HX. destruct Hw as [| c w Hc _]; [exact HX |].
  cbn. unfold isDelimiter. now rewrite Hc.
Qed.

Lemma noSpaceAhead_start (ch : ascii) (t : list ascii) :
  isDelimiter ch = false -> noSpaceAhead (ch :: t).
Proof. intros H. now destruct (isDelimiter_false ch H). Qed.

(** The value of a literal, decoded. *)
Lemma value_literal (fuel : nat) (d : Z) (saved : option json.error)
  (c : grammar.cst) (rest : list ascii) :
  isLiteral c -> grammar.wf c -> delimited rest ->
  value (S fuel) d saved (grammar.render c ++ rest)
  = inr (fst (build c saved), snd (build c saved), rest).
Proof.
  intros Hl Hwf Hr.
  rewrite <- (literalInterface_complete saved c rest Hl Hwf Hr).
  destruct (render_start c Hwf) as (ch & t & E & _ & Hb).
  destruct (Hb Hl) as [H1 H2]. rewrite E. cbn [app]. rewrite value_unfold.
  destruct (Ascii.eqb_spec ch "["); [contradiction |].
  destruct (Ascii.eqb_spec ch "{"); [contradiction | reflexivity].
Qed.

Lemma renderElements_start (es : grammar.elements) (X : list ascii) :
  grammar.wfElements es ->
  exists ch t, grammar.renderElements es ++ X = ch :: t
               /\ isDelimiter ch = false.
Proof.
  destruct es as [v w | v w w' es]; gsimpl; intros Hwf;
    (destruct (render_start v ltac:(tauto)) as (ch & t & E & Hd & _);
     rewrite E; cbn [app]; eauto).
Qed.

Lemma need_CArray w es : need (grammar.CArray w es) = S (needElements es).
Proof. reflexivity. Qed.

Lemma need_CObject w ms : need (grammar.CObject w ms) = S (needMembers ms).
Proof. reflexivity. Qed.

Lemma needElements_ELast v w :
  needElements (grammar.ELast v w) = S (need v).
Proof. reflexivity. Qed.

Lemma needElements_ECons v w w' es :
  needElements (grammar.ECons v w w' es)
  = S (Nat.max (need v) (needElements es)).
Proof. reflexivity. Qed.

Lemma needMembers_MLast key w1 w2 v w3 :
  needMembers (grammar.MLast key w1 w2 v w3) = S (need v).
Proof. reflexivity. Qed.

Lemma needMembers_MCons key w1 w2 v w3 w4 ms :
  needMembers (grammar.MCons key w1 w2 v w3 w4 ms)
  = S (Nat.max (need v) (needMembers ms)).
Proof. reflexivity. Qed.

Ltac nsimpl :=
  rewrite ?need_CArray, ?need_CObject, ?needElements_ELast,
    ?needElements_ECons, ?needMembers_MLast, ?needMembers_MCons.

Lemma depth_nonneg :
  (forall c, 0 <= grammar.depth c)
  /\ (forall es, 0 <= grammar.depthElements es)
  /\ (forall ms, 0 <= grammar.depthMembers ms).
Proof.
  apply grammar.cst_mutind; intros; gsimpl;
    cbn [grammar.depth]; lia.
Qed.

Lemma surround_eq (a : ascii) (w body : list ascii) (z : ascii)
  (rest : list ascii) :
  (a :: w ++ body ++ [z]) ++ rest = a :: w ++ body ++ z :: rest.
Proof. listeq. Qed.

(** The decoder is complete: it reads every tree of the grammar that is
    nested no deeper than the limit, whatever delimiter follows, and
    returns its value. *)
Lemma decoder_complete :
  (forall c, grammar.wf c ->
     forall fuel d saved rest,
       (need c <= fuel)%nat ->
       d + grammar.depth c <= json.maxNestingDepth ->
       delimited rest ->
       value fuel d saved (grammar.render c ++ rest)
       = inr (fst (build c saved), snd (build c saved), rest))
  /\ (forall es, grammar.wfElements es ->
        forall fuel d saved acc rest,
          (needElements es <= fuel)%nat ->
          d + grammar.depthElements es <= json.maxNestingDepth ->
          arrayRest fuel d saved acc
            (grammar.renderElements es ++ "]"%char :: rest)
          = inr (json.Slice _ (acc ++ fst (buildElements es saved)),
                 snd (buildElements es saved), rest))
  /\ (forall ms, grammar.wfMembers ms ->
        forall fuel d saved m rest,
          (needMembers ms <= fuel)%nat ->
          d + grammar.depthMembers ms <= json.maxNestingDepth ->
          objectRest fuel d saved m
            (grammar.renderMembers ms ++ "}"%char :: rest)
          = inr (json.Map _ (fst (buildMembers ms m saved)),
                 snd (buildMembers ms m saved), rest)).
Proof.
  apply grammar.cst_mutind.
  - (* null *)
    intros Hwf fuel d saved rest Hf Hd Hr.
    destruct fuel as [| fuel]; [cbn in Hf; lia |].
    now apply value_literal.
  - intros Hwf fuel d saved rest Hf Hd Hr.
    destruct fuel as [| fuel]; [cbn in Hf; lia |].
    now apply value_literal.
  - intros Hwf fuel d saved rest Hf Hd Hr.
    destruct fuel as [| fuel]; [cbn in Hf; lia |].
    now apply value_literal.
  - intros lit Hwf fuel d saved rest Hf Hd Hr.
    destruct fuel as [| fuel]; [cbn in Hf; lia |].
    now apply value_literal.
  - intros raw Hwf fuel d saved rest Hf Hd Hr.
    destruct fuel as [| fuel]; [cbn in Hf; lia |].
    now apply value_literal.
  - (* the empty array *)
    intros w Hwf fuel d saved rest Hf Hd Hr.
    destruct fuel as [| fuel]; [cbn in Hf; lia |].
    cbn [grammar.render grammar.wf grammar.depth grammar.build fst snd] in *.
    rewrite <- app_comm_cons, <- app_assoc. cbn [app].
    rewrite value_unfold. cbn [Ascii.eqb Bool.eqb andb].
    destruct (Z.leb_spec (d + 1) json.maxNestingDepth); [| lia].
    now rewrite (skipSpace_ws w _ Hwf).
  - (* an array *)
    intros w es IH Hwf fuel d saved rest Hf Hd Hr. revert Hwf Hf Hd. gsimpl. nsimpl.
    intros [Hw Hes] Hf Hd.
    pose proof (proj1 (proj2 depth_nonneg) es) as Hnn.
    destruct fuel as [| fuel]; [cbn in Hf; lia |].
    rewrite surround_eq, value_unfold. cbn [Ascii.eqb Bool.eqb andb].
    destruct (Z.leb_spec (d + 1) json.maxNestingDepth); [| lia].
    destruct (renderElements_start es ("]"%char :: rest) Hes)
      as (ch & t & E & Hch).
    rewrite (skipSpace_ws w _ Hw);
      [| rewrite E; now apply noSpaceAhead_start].
    rewrite E. destruct (isDelimiter_false ch Hch) as (_ & _ & Hnb & _).
    destruct (Ascii.eqb_spec ch "]"); [contradiction |].
    rewrite <- E.
    rewrite (IH Hes fuel (d + 1) saved [] rest ltac:(lia) ltac:(lia)).
    destruct (buildElements es saved). reflexivity.
  - (* the empty object *)
    intros w Hwf fuel d saved rest Hf Hd Hr.
    destruct fuel as [| fuel]; [cbn in Hf; lia |].
    cbn [grammar.render grammar.wf grammar.depth grammar.build fst snd] in *.
    rewrite <- app_comm_cons, <- app_assoc. cbn [app].
    rewrite value_unfold. cbn [Ascii.eqb Bool.eqb andb].
    destruct (Z.leb_spec (d + 1) json.maxNestingDepth); [| lia].
    now rewrite (skipSpace_ws w _ Hwf).
  - (* an object *)
    intros w ms IH Hwf fuel d saved rest Hf Hd Hr. revert Hwf Hf Hd. gsimpl. nsimpl.
    intros [Hw Hms] Hf Hd.
    pose proof (proj2 (proj2 depth_nonneg) ms) as Hnn.
    destruct fuel as [| fuel]; [cbn in Hf; lia |].
    rewrite surround_eq, value_unfold. cbn [Ascii.eqb Bool.eqb andb].
    destruct (Z.leb_spec (d + 1) json.maxNestingDepth); [| lia].
    assert (exists t, grammar.renderMembers ms ++ "}"%char :: rest
                      = json.dquote :: t) as (t & E).
    { destruct ms; gsimpl; unfold grammar.quoted; cbn [app]; eauto. }
    rewrite (skipSpace_ws w _ Hw); [| rewrite E; reflexivity].
    rewrite E. change ((json.dquote =? "}")%char) with false. cbv iota.
    rewrite <- E.
    rewrite (IH Hms fuel (d + 1) saved [] rest ltac:(lia) ltac:(lia)).
    destruct (buildMembers ms [] saved). reflexivity.
  - (* the last element *)
    intros v IH w Hwf fuel d saved acc rest Hf Hd. revert Hwf Hf Hd. gsimpl. nsimpl.
    intros [Hv Hw] Hf Hd.
    destruct fuel as [| fuel]; [cbn in Hf; lia |].
    rewrite arrayRest_unfold, <- app_assoc.
    rewrite (IH Hv fuel d saved (w ++ "]"%char :: rest) ltac:(lia) Hd);
      [| apply delimited_ws_app; [exact Hw | reflexivity]].
    rewrite (skipSpace_ws w _ Hw) by reflexivity.
    cbn [Ascii.eqb Bool.eqb andb].
    destruct (build v saved). reflexivity.
  - (* an element and more *)
    intros v IHv w w' es IHes Hwf fuel d saved acc rest Hf Hd.
    revert Hwf Hf Hd. gsimpl. nsimpl. intros (Hv & Hw & Hw' & Hes) Hf Hd.
    destruct fuel as [| fuel]; [cbn in Hf; lia |].
    rewrite arrayRest_unfold, <- !app_assoc. cbn [app].
    rewrite <- !app_assoc.
    rewrite (IHv Hv fuel d saved _ ltac:(lia) ltac:(lia));
      [| apply delimited_ws_app; [exact Hw | reflexivity]].
    rewrite (skipSpace_ws w _ Hw) by reflexivity.
    cbn [Ascii.eqb Bool.eqb andb].
    destruct (renderElements_start es ("]"%char :: rest) Hes)
      as (ch & t & E & Hch).
    rewrite (skipSpace_ws w' _ Hw');
      [| rewrite E; now apply noSpaceAhead_start].
    destruct (build v saved) as [x saved1]. cbn [fst snd].
    rewrite (IHes Hes fuel d saved1 (acc ++ [x]) rest
               ltac:(lia) ltac:(lia)).
    destruct (buildElements es saved1) as [l saved2]. cbn [fst snd].
    now rewrite <- app_assoc.
  - (* the last member *)
    intros key w1 w2 v IH w3 Hwf fuel d saved m rest Hf Hd.
    revert Hwf Hf Hd. gsimpl. nsimpl. intros (Hk & Hw1 & Hw2 & Hv & Hw3) Hf Hd.
    destruct fuel as [| fuel]; [cbn in Hf; lia |].
    unfold grammar.quoted. rewrite <- !app_assoc. cbn [app].
    rewrite <- !app_assoc. cbn [app].
    rewrite objectRest_unfold, Ascii.eqb_refl.
    rewrite (scanString_complete key _ Hk), unquoteBytes_quoted.
    destruct (unquoteBody_total key Hk) as (k & rs & Eu & _).
    rewrite Eu. rewrite (skipSpace_ws w1 _ Hw1) by reflexivity.
    cbn [Ascii.eqb Bool.eqb andb].
    destruct (render_start v Hv) as (ch & t & E & Hch & _).
    rewrite (skipSpace_ws w2 _ Hw2);
      [| rewrite E; now apply noSpaceAhead_start].
    rewrite (IH Hv fuel d saved (w3 ++ "}"%char :: rest)
               ltac:(lia) Hd);
      [| apply delimited_ws_app; [exact Hw3 | reflexivity]].
    rewrite (skipSpace_ws w3 _ Hw3) by reflexivity.
    cbn [Ascii.eqb Bool.eqb andb].
    unfold grammar.unquoted. rewrite Eu.
    destruct (build v saved). reflexivity.
  - (* a member and more *)
    intros key w1 w2 v IHv w3 w4 ms IHms Hwf fuel d saved m rest Hf Hd.
    revert Hwf Hf Hd. gsimpl. nsimpl.
    intros (Hk & Hw1 & Hw2 & Hv & Hw3 & Hw4 & Hms) Hf Hd.
    destruct fuel as [| fuel]; [cbn in Hf; lia |].
    unfold grammar.quoted. rewrite <- !app_assoc. cbn [app].
    rewrite <- !app_assoc. cbn [app]. rewrite <- !app_assoc. cbn [app].
    rewrite objectRest_unfold, Ascii.eqb_refl.
    rewrite (scanString_complete key _ Hk), unquoteBytes_quoted.
    destruct (unquoteBody_total key Hk) as (k & rs & Eu & _).
    rewrite Eu. rewrite (skipSpace_ws w1 _ Hw1) by reflexivity.
    cbn [Ascii.eqb Bool.eqb andb].
    destruct (render_start v Hv) as (ch & t & E & Hch & _).
    rewrite (skipSpace_ws w2 _ Hw2);
      [| rewrite E; now apply noSpaceAhead_start].
    rewrite <- ?app_assoc.
    rewrite (IHv Hv fuel d saved _ ltac:(lia) ltac:(lia));
      [| apply delimited_ws_app; [exact Hw3 | reflexivity]].
    rewrite (skipSpace_ws w3 _ Hw3) by reflexivity.
    cbn [Ascii.eqb Bool.eqb andb].
    assert (exists t', grammar.renderMembers ms ++ "}"%char :: rest
                       = json.dquote :: t') as (t' & E').
    { destruct ms; gsimpl; unfold grammar.quoted; cbn [app]; eauto. }
    rewrite (skipSpace_ws w4 _ Hw4); [| rewrite E'; reflexivity].
    unfold grammar.unquoted. rewrite Eu.
    destruct (build v saved) as [x saved1]. cbn [fst snd].
    rewrite (IHms Hms fuel d saved1 _ rest ltac:(lia) ltac:(lia)).
    reflexivity.
Qed.

(** The fuel [Unmarshal] gives is enough for every tree. *)
Lemma need_bound :
  (forall c, (need c <= 2 * List.length (grammar.render c) + 1)%nat)
  /\ (forall es,
        (needElements es
         <= 2 * List.length (grammar.renderElements es) + 2)%nat)
  /\ (forall ms,
        (needMembers ms
         <= 2 * List.length (grammar.renderMembers ms) + 2)%nat).
Proof.
  apply grammar.cst_mutind; intros; gsimpl; nsimpl;
    unfold grammar.quoted;
    repeat (rewrite ?length_app; cbn [List.length need]); lia.
Qed.

Lemma ws_delimited (w : list ascii) : grammar.ws w -> delimited w.
Proof.
  intros H. rewrite <- (app_nil_r w). now apply delimited_ws_app.
Qed.

(** [Unmarshal] reads every valid text nested no deeper than the limit,
    and stores the value of its tree; the error it returns is the one
    saved for the first number out of range, if any. *)
Lemma Unmarshal_complete (w1 : list ascii) (c : grammar.cst)
  (w2 : list ascii) :
  grammar.ws w1 -> grammar.wf c -> grammar.ws w2 ->
  grammar.depth c <= json.maxNestingDepth ->
  json.Unmarshal float64 ParseFloat (grammar.text w1 c w2) = build c None.
Proof.
  intros H1 Hc H2 Hd. unfold json.Unmarshal, grammar.text.
  destruct (render_start c Hc) as (ch & t & E & Hch & _).
  rewrite (skipSpace_ws w1 _ H1);
    [| rewrite E; now apply noSpaceAhead_start].
  rewrite (proj1 decoder_complete c Hc _ 0 None w2);
    [| | lia | now apply ws_delimited].
  - rewrite <- (app_nil_r w2) at 1.
    rewrite (skipSpace_ws w2 [] H2 I).
    now destruct (build c None).
  - pose proof (proj1 need_bound c). rewrite !length_app. lia.
Qed.

Lemma skipSpace_nil_ws (s : list ascii) :
  json.skipSpace s = [] -> grammar.ws s.
Proof.
  intros H. destruct (skipSpace_split s) as (w & Hw & E).
  rewrite H, app_nil_r in E. now subst.
Qed.

(** What [Unmarshal] accepts is a valid text nested no deeper than the
    limit, and what it stores is the value of its tree. *)
Lemma Unmarshal_sound (data : list ascii) (x : any) :
  json.Unmarshal float64 ParseFloat data = (x, None) ->
  exists w1 c w2,
    grammar.ws w1 /\ grammar.wf c /\ grammar.ws w2 /\
    data = grammar.text w1 c w2 /\ build c None = (x, None) /\
    grammar.depth c <= json.maxNestingDepth.
Proof.
  unfold json.Unmarshal.
  destruct (value _ 0 None (json.skipSpace data))
    as [e | [[v saved] rest]] eqn:Ev; [discriminate |].
  destruct (json.skipSpace rest) as [| ch t] eqn:Er; [| discriminate].
  intros H. injection H as <- ->.
  destruct (proj1 (decoder_sound _) 0 None _ v None rest
              ltac:(unfold json.maxNestingDepth; lia) Ev)
    as (c & Hc & Hs & Hb & Hd).
  destruct (skipSpace_split data) as (w1 & Hw1 & Hdata).
  exists w1, c, rest.
  split; [exact Hw1 | split; [exact Hc | split;
    [now apply skipSpace_nil_ws | split; [| split; [exact Hb | lia]]]]].
  unfold grammar.text. now rewrite <- Hs.
Qed.


(** *** Maps *)

Lemma compareBytes_refl (a : list ascii) : json.compareBytes a a = Eq.
Proof. induction a as [| x a IH]; cbn; [| rewrite Z.compare_refl]; auto. Qed.

Lemma compareBytes_eq (a b : list ascii) :
  json.compareBytes a b = Eq -> a = b.
Proof.
  revert b. induction a as [| x a IH]; intros [| y b]; cbn;
    try discriminate; [reflexivity |].
  destruct (byteZ x ?= byteZ y) eqn:E; try discriminate.
  intros H. apply Z.compare_eq in E. apply byteZ_inj in E.
  f_equal; auto.
Qed.

Lemma compareBytes_flip (a b : list ascii) :
  json.compareBytes a b = Gt <-> json.compareBytes b a = Lt.
Proof.
  revert b. induction a as [| x a IH]; intros [| y b]; cbn;
    try (split; (reflexivity || discriminate)).
  rewrite (Z.compare_antisym (byteZ x) (byteZ y)).
  destruct (byteZ x ?= byteZ y); cbn;
    [apply IH | split; discriminate | split; reflexivity].
Qed.

Lemma compareBytes_lt_trans (a b c : list ascii) :
  json.compareBytes a b = Lt -> json.compareBytes b c = Lt ->
  json.compareBytes a c = Lt.
Proof.
  revert b c. induction a as [| x a IH]; intros [| y b] [| z c]; cbn;
    try discriminate; try reflexivity.
  destruct (Z.compare_spec (byteZ x) (byteZ y)) as [E1 | E1 | E1];
    destruct (Z.compare_spec (byteZ y) (byteZ z)) as [E2 | E2 | E2];
    intros H1 H2; try discriminate.
  - replace (byteZ x ?= byteZ z) with Eq
      by (symmetry; apply Z.compare_eq_iff; congruence).
    eapply IH; eassumption.
  - rewrite E1. apply Z.compare_lt_iff in E2. now rewrite E2.
  - rewrite <- E2. apply Z.compare_lt_iff in E1. now rewrite E1.
  - replace (byteZ x ?= byteZ z) with Lt; [reflexivity |].
    symmetry. apply Z.compare_lt_iff. lia.
Qed.

Lemma mapassign_Forall (P : list ascii * any -> Prop)
  (m : list (list ascii * any)) (k : list ascii) (v : any) :
  Forall P m -> P (k, v) -> Forall P (json.mapassign _ m k v).
Proof.
  intros Hm Hkv. induction Hm as [| [k' x] m Hx Hm IH]; cbn.
  - now constructor.
  - destruct (json.compareBytes k k'); repeat constructor; auto.
Qed.

(** Assignment keeps the entries in the strict order of the keys. *)
Lemma mapassign_sorted (m : list (list ascii * any)) (k : list ascii)
  (v : any) :
  StronglySorted keyLt m -> StronglySorted keyLt (json.mapassign _ m k v).
Proof.
  induction 1 as [| [k' x] m Hm IH Hall]; cbn.
  - repeat constructor.
  - destruct (json.compareBytes k k') eqn:E.
    + apply compareBytes_eq in E. subst k'.
      constructor; [exact Hm | exact Hall].
    + constructor; [now constructor |].
      constructor; [exact E |].
      eapply Forall_impl; [| exact Hall]. intros [k2 x2]. unfold keyLt. cbn.
      intros H2. eapply compareBytes_lt_trans; eassumption.
    + constructor; [exact IH |].
      apply mapassign_Forall; [exact Hall |].
      unfold keyLt. cbn. now apply compareBytes_flip.
Qed.

(** An entry with a key above all the others goes to the end. *)
Lemma mapassign_append (m : list (list ascii * any)) (k : list ascii)
  (v : any) :
  Forall (fun kv => json.compareBytes (fst kv) k = Lt) m ->
  json.mapassign _ m k v = m ++ [(k, v)].
Proof.
  induction 1 as [| [k' x] m Hx Hm IH]; cbn; [reflexivity |].
  cbn in Hx. apply compareBytes_flip in Hx. now rewrite Hx, IH.
Qed.

(** *** The values decoded with a nil error *)

Local Abbreviation good := (good float64 ParseFloat).
Local Abbreviation depthOf := (depthAny float64).
Local Abbreviation depthList :=
  (fold_right (fun (y : any) d => Z.max (depthOf y) d) 0).
Local Abbreviation depthMap :=
  (fold_right (fun (kv : list ascii * any) d => Z.max (depthOf (snd kv)) d) 0).
Local Abbreviation goodEntry :=
  (fun kv : list ascii * any =>
     (exists rs, utf8.wellFormed (fst kv) rs) /\ good (snd kv)).

Lemma saveError_Some (saved : option json.error) (e : json.error) :
  json.saveError saved e <> None.
Proof. destruct saved; discriminate. Qed.

Lemma depthAny_nonneg (x : any) : 0 <= depthOf x.
Proof.
  destruct x as [| | | | l | m]; cbn [depthAny]; try lia.
  - assert (0 <= depthList l); [| lia].
    induction l; cbn [fold_right]; lia.
  - assert (0 <= depthMap m); [| lia].
    induction m; cbn [fold_right]; lia.
Qed.

Lemma depthMap_nonneg (m : list (list ascii * any)) : 0 <= depthMap m.
Proof. induction m; cbn [fold_right]; lia. Qed.

Lemma depthList_nonneg (l : list any) : 0 <= depthList l.
Proof. induction l; cbn [fold_right]; lia. Qed.

Lemma depthMap_mapassign (m : list (list ascii * any)) (k : list ascii)
  (v : any) (D : Z) :
  depthMap m <= D -> depthOf v <= D ->
  depthMap (json.mapassign _ m k v) <= D.
Proof.
  induction m as [| [k' x] m IH]; cbn [json.mapassign fold_right snd];
    [pose proof (depthAny_nonneg v); lia |].
  intros Hm Hv. pose proof (depthMap_nonneg m).
  destruct (json.compareBytes k k'); cbn [fold_right snd]; try lia.
Qed.

Lemma unquoted_wellFormed (raw : list ascii) :
  grammar.stringBody raw -> exists rs, utf8.wellFormed (grammar.unquoted raw) rs.
Proof.
  intros H. destruct (unquoteBody_total raw H) as (out & rs & Eu & Hwf).
  unfold grammar.unquoted. rewrite Eu. now exists rs.
Qed.

(** A tree built with a nil error: no error was saved before, the value
    is a good one, and it is no deeper than the tree (a repeated key
    drops a value). *)
Lemma build_good :
  (forall c, grammar.wf c -> forall saved x,
     build c saved = (x, None) ->
     saved = None /\ good x /\ depthOf x <= grammar.depth c)
  /\ (forall es, grammar.wfElements es -> forall saved l,
        buildElements es saved = (l, None) ->
        saved = None /\ Forall good l
        /\ depthList l <= grammar.depthElements es)
  /\ (forall ms, grammar.wfMembers ms -> forall m saved m',
        buildMembers ms m saved = (m', None) ->
        saved = None
        /\ (StronglySorted keyLt m -> Forall goodEntry m ->
            StronglySorted keyLt m' /\ Forall goodEntry m')
        /\ (forall D, depthMap m <= D -> grammar.depthMembers ms <= D ->
            depthMap m' <= D)).
Proof.
  apply grammar.cst_mutind.
  - intros _ saved x H. inversion H. repeat split; [constructor | cbn; lia].
  - intros _ saved x H. inversion H. repeat split; [constructor | cbn; lia].
  - intros _ saved x H. inversion H. repeat split; [constructor | cbn; lia].
  - intros lit Hwf saved x. cbn [grammar.build grammar.wf] in *.
    destruct (ParseFloat lit) as [f |] eqn:E; intros H; inversion H.
    + repeat split; [econstructor; eassumption | cbn; lia].
    + now apply saveError_Some in H2.
  - intros raw Hwf saved x H. cbn [grammar.build grammar.wf] in *.
    inversion H. destruct (unquoted_wellFormed raw Hwf) as (rs & Hrs).
    repeat split; [econstructor; eassumption | cbn; lia].
  - intros w _ saved x H. inversion H.
    repeat split; [constructor; constructor | cbn; lia].
  - intros w es IH Hwf saved x. gsimpl. destruct Hwf as (_ & Hes).
    destruct (buildElements es saved) as [l s'] eqn:E. intros H.
    inversion H; subst. destruct (IH Hes _ _ E) as (-> & Hl & Hd).
    repeat split; [now constructor | cbn [depthAny]; lia].
  - intros w _ saved x H. inversion H.
    repeat split; [constructor; constructor | cbn; lia].
  - intros w ms IH Hwf saved x. gsimpl. destruct Hwf as (_ & Hms).
    destruct (buildMembers ms [] saved) as [m s'] eqn:E. intros H.
    inversion H; subst. destruct (IH Hms _ _ _ E) as (-> & Hm & Hd).
    destruct Hm as (Hs & Hg); [constructor | constructor |].
    repeat split; [now constructor |].
    cbn [depthAny].
    pose proof (proj2 (proj2 depth_nonneg) ms).
    assert (depthMap m <= grammar.depthMembers ms);
      [apply Hd; cbn [fold_right]; lia | lia].
  - intros v IH w Hwf saved l. gsimpl. destruct Hwf as (Hv & _).
    destruct (build v saved) as [x s'] eqn:E. intros H.
    inversion H; subst. destruct (IH Hv _ _ E) as (-> & Hx & Hd).
    repeat split; [repeat constructor; exact Hx |].
    cbn [fold_right]. pose proof (proj1 depth_nonneg v). lia.
  - intros v IHv w w' es IHes Hwf saved l. gsimpl.
    destruct Hwf as (Hv & _ & _ & Hes).
    destruct (build v saved) as [x s1] eqn:E1.
    destruct (buildElements es s1) as [l' s2] eqn:E2. intros H.
    inversion H; subst. destruct (IHes Hes _ _ E2) as (-> & Hl & Hdl).
    destruct (IHv Hv _ _ E1) as (-> & Hx & Hd).
    repeat split; [now constructor |]. cbn [fold_right]. lia.
  - intros key w1 w2 v IH w3 Hwf m saved m'. gsimpl.
    destruct Hwf as (Hkey & _ & _ & Hv & _).
    destruct (build v saved) as [x s'] eqn:E. intros H.
    inversion H; subst. destruct (IH Hv _ _ E) as (-> & Hx & Hd).
    split; [reflexivity |]. split.
    + intros Hs Hg. split; [now apply mapassign_sorted |].
      apply mapassign_Forall; [exact Hg |]. cbn [fst snd].
      split; [now apply unquoted_wellFormed | exact Hx].
    + intros D HD1 HD2. apply depthMap_mapassign; lia.
  - intros key w1 w2 v IHv w3 w4 ms IHms Hwf m saved m'. gsimpl.
    destruct Hwf as (Hkey & _ & _ & Hv & _ & _ & Hms).
    destruct (build v saved) as [x s1] eqn:E1. intros H.
    destruct (IHms Hms _ _ _ H) as (-> & Hm & Hdm).
    destruct (IHv Hv _ _ E1) as (-> & Hx & Hd).
    split; [reflexivity |]. split.
    + intros Hs Hg. apply Hm; [now apply mapassign_sorted |].
      apply mapassign_Forall; [exact Hg |]. cbn [fst snd].
      split; [now apply unquoted_wellFormed | exact Hx].
    + intros D HD1 HD2. apply Hdm; [| lia].
      apply depthMap_mapassign; lia.
Qed.

(** *** The error saved for a tree *)

Local Abbreviation rangeErr := (rangeError float64 ParseFloat).

Lemma rangeError_app (a b : list (list ascii)) :
  rangeErr (a ++ b)
  = match rangeErr a with Some e => Some e | None => rangeErr b end.
Proof.
  unfold rangeError. induction a as [| lit a IH]; cbn [find app];
    [reflexivity |].
  destruct (ParseFloat lit); [exact IH | reflexivity].
Qed.

(** Building a tree keeps the error saved before it, and saves the
    error of its first number out of range otherwise. *)
Lemma build_saved :
  (forall c saved,
     snd (build c saved)
     = match saved with Some e => Some e | None => rangeErr (grammar.numbers c) end)
  /\ (forall es saved,
        snd (buildElements es saved)
        = match saved with
          | Some e => Some e
          | None => rangeErr (grammar.numbersElements es)
          end)
  /\ (forall ms m saved,
        snd (buildMembers ms m saved)
        = match saved with
          | Some e => Some e
          | None => rangeErr (grammar.numbersMembers ms)
          end).
Proof.
  apply grammar.cst_mutind.
  - intros [e |]; reflexivity.
  - intros [e |]; reflexivity.
  - intros [e |]; reflexivity.
  - intros lit saved. cbn [grammar.build grammar.numbers].
    unfold rangeError. cbn [find].
    destruct (ParseFloat lit); destruct saved; reflexivity.
  - intros raw [e |]; reflexivity.
  - intros w [e |]; reflexivity.
  - intros w es IH saved. gsimpl. specialize (IH saved).
    destruct (buildElements es saved) as [l s']. exact IH.
  - intros w [e |]; reflexivity.
  - intros w ms IH saved. gsimpl. specialize (IH [] saved).
    destruct (buildMembers ms [] saved) as [m s']. exact IH.
  - intros v IH w saved. gsimpl. specialize (IH saved).
    destruct (build v saved) as [x s']. exact IH.
  - intros v IHv w w' es IHes saved. gsimpl. specialize (IHv saved).
    destruct (build v saved) as [x s1]. specialize (IHes s1).
    destruct (buildElements es s1) as [l s2]. cbn [snd] in *.
    change (grammar.numbersElements (grammar.ECons v w w' es))
      with (grammar.numbers v ++ grammar.numbersElements es).
    rewrite rangeError_app, IHes, IHv.
    destruct saved; [reflexivity |].
    destruct (rangeErr (grammar.numbers v)); reflexivity.
  - intros key w1 w2 v IH w3 m saved. gsimpl. specialize (IH saved).
    destruct (build v saved) as [x s']. exact IH.
  - intros key w1 w2 v IHv w3 w4 ms IHms m saved. gsimpl.
    specialize (IHv saved). destruct (build v saved) as [x s1].
    rewrite IHms. cbn [snd] in *.
    change (grammar.numbersMembers (grammar.MCons key w1 w2 v w3 w4 ms))
      with (grammar.numbers v ++ grammar.numbersMembers ms).
    rewrite rangeError_app, IHv.
    destruct saved; [reflexivity |].
    destruct (rangeErr (grammar.numbers v)); reflexivity.
Qed.

Lemma rangeError_None (lits : list (list ascii)) :
  rangeErr lits = None <-> Forall (fun lit => ParseFloat lit <> None) lits.
Proof.
  unfold rangeError. induction lits as [| lit lits IH]; cbn [find].
  - split; [constructor | reflexivity].
  - destruct (ParseFloat lit) eqn:E.
    + rewrite IH. split; [intros H; constructor; [congruence | exact H] |].
      intros H. now inversion H.
    + split; [discriminate |]. intros H. inversion H. congruence.
Qed.




(** *** The errors of the decoder *)

Lemma literalInterface_error (saved : option json.error) (s : list ascii)
  (e : json.error) :
  literalInterface saved s = inl e -> e = json.SyntaxError.
Proof.
  unfold json.literalInterface. destruct s as [| c t]; [congruence |].
  destruct (c =? "n")%char;
    [destruct (json.hasPrefix _ _); [discriminate | congruence] |].
  destruct (c =? "t")%char;
    [destruct (json.hasPrefix _ _); [discriminate | congruence] |].
  destruct (c =? "f")%char;
    [destruct (json.hasPrefix _ _); [discriminate | congruence] |].
  destruct (c =? json.dquote)%char.
  - destruct (json.scanString t) as [[raw r] |] eqn:E; [| congruence].
    destruct (scanString_sound t raw r E) as (_ & Hraw).
    rewrite unquoteBytes_quoted.
    destruct (unquoteBody_total raw Hraw) as (out & rs & -> & _).
    discriminate.
  - destruct (json.scanNumber (c :: t)) as [[item r] |]; [| congruence].
    destruct (ParseFloat item); discriminate.
Qed.

(** A value that is read takes at least one byte. *)
Lemma value_consumes (fuel : nat) (d : Z) (saved : option json.error)
  (s : list ascii) (v : any) (saved' : option json.error)
  (rest : list ascii) :
  0 <= d <= json.maxNestingDepth ->
  value fuel d saved s = inr (v, saved', rest) ->
  (List.length rest < List.length s)%nat.
Proof.
  intros Hd H.
  destruct (proj1 (decoder_sound fuel) d saved s v saved' rest Hd H)
    as (c & Hwf & -> & _).
  destruct (render_start c Hwf) as (ch & t & -> & _).
  rewrite length_app. cbn [List.length]. lia.
Qed.

Ltac syn := let H := fresh "H" in intros H; left; cbn in H; congruence.

(** The decoder stops with a syntax error, or for lack of fuel when it
    was given less than twice the length of the text; it never stops
    for another reason. *)
Lemma decoder_errors (fuel : nat) :
  (forall d saved s e,
     0 <= d <= json.maxNestingDepth ->
     value fuel d saved s = inl e ->
     e = json.SyntaxError
     \/ (e = json.outOfFuel /\ (fuel <= 2 * List.length s)%nat))
  /\ (forall d saved acc s e,
        0 <= d <= json.maxNestingDepth ->
        arrayRest fuel d saved acc s = inl e ->
        e = json.SyntaxError
        \/ (e = json.outOfFuel /\ (fuel <= 2 * List.length s + 1)%nat))
  /\ (forall d saved m s e,
        0 <= d <= json.maxNestingDepth ->
        objectRest fuel d saved m s = inl e ->
        e = json.SyntaxError
        \/ (e = json.outOfFuel /\ (fuel <= 2 * List.length s + 1)%nat)).
Proof.
  induction fuel as [| fuel (HV & HA & HO)].
  { repeat split; intros; right;
      match goal with H : _ = inl _ |- _ => injection H as <- end;
      (split; [reflexivity | lia]). }
  split; [| split].
  - intros d saved s e Hd. destruct s as [| c t]; [syn |].
    rewrite value_unfold.
    destruct (c =? "[")%char.
    { destruct (Z.leb_spec (d + 1) json.maxNestingDepth) as [Hdep |];
        [| syn].
      pose proof (skipSpace_length t) as Hlen.
      destruct (json.skipSpace t) as [| c1 t1]; [syn |].
      destruct (c1 =? "]")%char; [discriminate |].
      intros H. destruct (HA (d + 1) saved [] _ e ltac:(lia) H)
        as [-> | (-> & Hf)]; [now left | right].
      split; [reflexivity |]. cbn [List.length] in *. lia. }
    destruct (c =? "{")%char.
    { destruct (Z.leb_spec (d + 1) json.maxNestingDepth) as [Hdep |];
        [| syn].
      pose proof (skipSpace_length t) as Hlen.
      destruct (json.skipSpace t) as [| c1 t1]; [syn |].
      destruct (c1 =? "}")%char; [discriminate |].
      intros H. destruct (HO (d + 1) saved [] _ e ltac:(lia) H)
        as [-> | (-> & Hf)]; [now left | right].
      split; [reflexivity |]. cbn [List.length] in *. lia. }
    intros H. left. exact (literalInterface_error _ _ _ H).
  - intros d saved acc s e Hd. rewrite arrayRest_unfold.
    destruct (value fuel d saved s) as [e1 | [[v1 saved1] t]] eqn:Ev.
    { intros H. injection H as <-.
      destruct (HV d saved s e1 Hd Ev) as [-> | (-> & Hf)]; [now left |].
      right. split; [reflexivity | lia]. }
    pose proof (value_consumes _ _ _ _ _ _ _ Hd Ev) as Hc.
    pose proof (skipSpace_length t) as Hlen.
    destruct (json.skipSpace t) as [| ch t']; [syn |].
    destruct (ch =? ",")%char.
    + intros H. pose proof (skipSpace_length t') as Hlen'.
      destruct (HA d saved1 _ _ e Hd H) as [-> | (-> & Hf)]; [now left |].
      right. split; [reflexivity |]. cbn [List.length] in *. lia.
    + destruct (ch =? "]")%char; [discriminate | syn].
  - intros d saved m s e Hd. destruct s as [| q t]; [syn |].
    rewrite objectRest_unfold.
    destruct (q =? json.dquote)%char; [| syn].
    destruct (json.scanString t) as [[raw t1] |] eqn:Es; [| syn].
    destruct (scanString_sound t raw t1 Es) as (Ht & Hraw).
    rewrite unquoteBytes_quoted.
    destruct (unquoteBody_total raw Hraw) as (key & rs & -> & _).
    pose proof (skipSpace_length t1) as Hlen1.
    destruct (json.skipSpace t1) as [| c t2]; [syn |].
    destruct (c =? ":")%char; [| syn].
    pose proof (skipSpace_length t2) as Hlen2.
    assert (List.length t1 < List.length t)%nat as Hl1.
    { rewrite Ht, length_app. cbn [List.length]. lia. }
    destruct (value fuel d saved (json.skipSpace t2))
      as [e1 | [[v1 saved1] t3]] eqn:Ev.
    { intros H. injection H as <-.
      destruct (HV d saved _ e1 Hd Ev) as [-> | (-> & Hf)]; [now left |].
      right. split; [reflexivity |]. cbn [List.length] in *. lia. }
    pose proof (value_consumes _ _ _ _ _ _ _ Hd Ev) as Hc.
    pose proof (skipSpace_length t3) as Hlen3.
    destruct (json.skipSpace t3) as [| ch t4]; [syn |].
    destruct (ch =? ",")%char.
    + intros H. pose proof (skipSpace_length t4) as Hlen4.
      destruct (HO d saved1 _ _ e Hd H) as [-> | (-> & Hf)]; [now left |].
      right. split; [reflexivity |]. cbn [List.length] in *. lia.
    + destruct (ch =? "}")%char; [discriminate | syn].
Qed.

(** The error [Unmarshal] returns is a syntax error, or the error of a
    number literal of a valid text that [ParseFloat] refuses. *)
Lemma Unmarshal_error (data : list ascii) (x : any) (e : json.error) :
  json.Unmarshal float64 ParseFloat data = (x, Some e) ->
  (e = json.SyntaxError /\ x = json.Nil _)
  \/ (exists w1 c w2,
        grammar.ws w1 /\ grammar.wf c /\ grammar.ws w2
        /\ data = grammar.text w1 c w2
        /\ grammar.depth c <= json.maxNestingDepth
        /\ rangeErr (grammar.numbers c) = Some e).
Proof.
  unfold json.Unmarshal.
  destruct (skipSpace_split data) as (w1 & Hw1 & Hdata).
  pose proof (skipSpace_length data) as Hlen.
  destruct (value (2 * List.length data + 1) 0 None (json.skipSpace data))
    as [e1 | [[v saved] rest]] eqn:Ev.
  - intros H. injection H as <- <-. left. split; [| reflexivity].
    destruct (proj1 (decoder_errors _) 0 None _ e1
                ltac:(unfold json.maxNestingDepth; lia) Ev)
      as [-> | (_ & Hf)]; [reflexivity | lia].
  - destruct (proj1 (decoder_sound _) 0 None _ v saved rest
                ltac:(unfold json.maxNestingDepth; lia) Ev)
      as (c & Hwf & Hs & Hb & Hd).
    destruct (skipSpace_split rest) as (w2 & Hw2 & Hrest).
    destruct (json.skipSpace rest) as [| ch t] eqn:Er;
      [| intros H; injection H as <- <-; now left].
    intros H. injection H as <- ->. right.
    exists w1, c, w2. rewrite app_nil_r in Hrest. subst rest.
    split; [exact Hw1 | split; [exact Hwf | split; [exact Hw2 |]]].
    split; [| split].
    + unfold grammar.text. now rewrite Hdata at 1; rewrite Hs.
    + lia.
    + pose proof (proj1 build_saved c None) as Hsv. rewrite Hb in Hsv.
      cbn [snd] in Hsv. now symmetry.
Qed.

(** *** Trees nested deeper than the limit *)

(** The decoder stops with a syntax error on every tree of the grammar
    that is nested deeper than the limit. *)
Lemma decoder_deep :
  (forall c, grammar.wf c ->
     forall fuel d saved rest,
       (need c <= fuel)%nat ->
       d <= json.maxNestingDepth ->
       json.maxNestingDepth < d + grammar.depth c ->
       delimited rest ->
       value fuel d saved (grammar.render c ++ rest) = inl json.SyntaxError)
  /\ (forall es, grammar.wfElements es ->
        forall fuel d saved acc rest,
          (needElements es <= fuel)%nat ->
          d <= json.maxNestingDepth ->
          json.maxNestingDepth < d + grammar.depthElements es ->
          arrayRest fuel d saved acc
            (grammar.renderElements es ++ "]"%char :: rest)
          = inl json.SyntaxError)
  /\ (forall ms, grammar.wfMembers ms ->
        forall fuel d saved m rest,
          (needMembers ms <= fuel)%nat ->
          d <= json.maxNestingDepth ->
          json.maxNestingDepth < d + grammar.depthMembers ms ->
          objectRest fuel d saved m
            (grammar.renderMembers ms ++ "}"%char :: rest)
          = inl json.SyntaxError).
Proof.
  apply grammar.cst_mutind.
  - intros Hwf fuel d saved rest Hf Hd Hdeep. cbn in Hdeep. lia.
  - intros Hwf fuel d saved rest Hf Hd Hdeep. cbn in Hdeep. lia.
  - intros Hwf fuel d saved rest Hf Hd Hdeep. cbn in Hdeep. lia.
  - intros lit Hwf fuel d saved rest Hf Hd Hdeep. cbn in Hdeep. lia.
  - intros raw Hwf fuel d saved rest Hf Hd Hdeep. cbn in Hdeep. lia.
  - (* the empty array *)
    intros w Hwf fuel d saved rest Hf Hd Hdeep Hr.
    destruct fuel as [| fuel]; [cbn in Hf; lia |].
    cbn [grammar.render grammar.wf grammar.depth] in *.
    rewrite <- app_comm_cons, <- app_assoc. cbn [app].
    rewrite value_unfold. cbn [Ascii.eqb Bool.eqb andb].
    destruct (Z.leb_spec (d + 1) json.maxNestingDepth); [lia | reflexivity].
  - (* an array *)
    intros w es IH Hwf fuel d saved rest Hf Hd Hdeep Hr.
    revert Hwf Hf Hdeep. gsimpl. nsimpl. intros [Hw Hes] Hf Hdeep.
    destruct fuel as [| fuel]; [cbn in Hf; lia |].
    rewrite surround_eq, value_unfold. cbn [Ascii.eqb Bool.eqb andb].
    destruct (Z.leb_spec (d + 1) json.maxNestingDepth); [| reflexivity].
    destruct (renderElements_start es ("]"%char :: rest) Hes)
      as (ch & t & E & Hch).
    rewrite (skipSpace_ws w _ Hw);
      [| rewrite E; now apply noSpaceAhead_start].
    rewrite E. destruct (isDelimiter_false ch Hch) as (_ & _ & Hnb & _).
    destruct (Ascii.eqb_spec ch "]"); [contradiction |].
    rewrite <- E.
    apply (IH Hes fuel (d + 1) saved [] rest); lia.
  - (* the empty object *)
    intros w Hwf fuel d saved rest Hf Hd Hdeep Hr.
    destruct fuel as [| fuel]; [cbn in Hf; lia |].
    cbn [grammar.render grammar.wf grammar.depth] in *.
    rewrite <- app_comm_cons, <- app_assoc. cbn [app].
    rewrite value_unfold. cbn [Ascii.eqb Bool.eqb andb].
    destruct (Z.leb_spec (d + 1) json.maxNestingDepth); [lia | reflexivity].
  - (* an object *)
    intros w ms IH Hwf fuel d saved rest Hf Hd Hdeep Hr.
    revert Hwf Hf Hdeep. gsimpl. nsimpl. intros [Hw Hms] Hf Hdeep.
    destruct fuel as [| fuel]; [cbn in Hf; lia |].
    rewrite surround_eq, value_unfold. cbn [Ascii.eqb Bool.eqb andb].
    destruct (Z.leb_spec (d + 1) json.maxNestingDepth); [| reflexivity].
    assert (exists t, grammar.renderMembers ms ++ "}"%char :: rest
                      = json.dquote :: t) as (t & E).
    { destruct ms; gsimpl; unfold grammar.quoted; cbn [app]; eauto. }
    rewrite (skipSpace_ws w _ Hw); [| rewrite E; reflexivity].
    rewrite E. change ((json.dquote =? "}")%char) with false. cbv iota.
    rewrite <- E.
    apply (IH Hms fuel (d + 1) saved [] rest); lia.
  - (* the last element *)
    intros v IH w Hwf fuel d saved acc rest Hf Hd Hdeep.
    revert Hwf Hf Hdeep. gsimpl. nsimpl. intros [Hv Hw] Hf Hdeep.
    destruct fuel as [| fuel]; [cbn in Hf; lia |].
    rewrite arrayRest_unfold, <- app_assoc.
    rewrite (IH Hv fuel d saved (w ++ "]"%char :: rest) ltac:(lia) Hd Hdeep);
      [reflexivity | apply delimited_ws_app; [exact Hw | reflexivity]].
  - (* an element and more *)
    intros v IHv w w' es IHes Hwf fuel d saved acc rest Hf Hd Hdeep.
    revert Hwf Hf Hdeep. gsimpl. nsimpl.
    intros (Hv & Hw & Hw' & Hes) Hf Hdeep.
    destruct fuel as [| fuel]; [cbn in Hf; lia |].
    rewrite arrayRest_unfold, <- !app_assoc. cbn [app].
    rewrite <- !app_assoc.
    destruct (Z_le_gt_dec (d + grammar.depth v) json.maxNestingDepth)
      as [Hok | Hbad].
    + rewrite (proj1 decoder_complete v Hv fuel d saved _ ltac:(lia) Hok);
        [| apply delimited_ws_app; [exact Hw | reflexivity]].
      rewrite (skipSpace_ws w _ Hw) by reflexivity.
      cbn [Ascii.eqb Bool.eqb andb].
      destruct (renderElements_start es ("]"%char :: rest) Hes)
        as (ch & t & E & Hch).
      rewrite (skipSpace_ws w' _ Hw');
        [| rewrite E; now apply noSpaceAhead_start].
      apply (IHes Hes fuel d); lia.
    + rewrite (IHv Hv fuel d saved _ ltac:(lia) Hd ltac:(lia));
        [reflexivity | apply delimited_ws_app; [exact Hw | reflexivity]].
  - (* the last member *)
    intros key w1 w2 v IH w3 Hwf fuel d saved m rest Hf Hd Hdeep.
    revert Hwf Hf Hdeep. gsimpl. nsimpl.
    intros (Hk & Hw1 & Hw2 & Hv & Hw3) Hf Hdeep.
    destruct fuel as [| fuel]; [cbn in Hf; lia |].
    unfold grammar.quoted. rewrite <- !app_assoc. cbn [app].
    rewrite <- !app_assoc. cbn [app].
    rewrite objectRest_unfold, Ascii.eqb_refl.
    rewrite (scanString_complete key _ Hk), unquoteBytes_quoted.
    destruct (unquoteBody_total key Hk) as (k & rs & Eu & _).
    rewrite Eu. rewrite (skipSpace_ws w1 _ Hw1) by reflexivity.
    cbn [Ascii.eqb Bool.eqb andb].
    destruct (render_start v Hv) as (ch & t & E & Hch & _).
    rewrite (skipSpace_ws w2 _ Hw2);
      [| rewrite E; now apply noSpaceAhead_start].
    rewrite (IH Hv fuel d saved (w3 ++ "}"%char :: rest)
               ltac:(lia) Hd Hdeep);
      [reflexivity | apply delimited_ws_app; [exact Hw3 | reflexivity]].
  - (* a member and more *)
    intros key w1 w2 v IHv w3 w4 ms IHms Hwf fuel d saved m rest Hf Hd Hdeep.
    revert Hwf Hf Hdeep. gsimpl. nsimpl.
    intros (Hk & Hw1 & Hw2 & Hv & Hw3 & Hw4 & Hms) Hf Hdeep.
    destruct fuel as [| fuel]; [cbn in Hf; lia |].
    unfold grammar.quoted. rewrite <- !app_assoc. cbn [app].
    rewrite <- !app_assoc. cbn [app]. rewrite <- !app_assoc. cbn [app].
    rewrite objectRest_unfold, Ascii.eqb_refl.
    rewrite (scanString_complete key _ Hk), unquoteBytes_quoted.
    destruct (unquoteBody_total key Hk) as (k & rs & Eu & _).
    rewrite Eu. rewrite (skipSpace_ws w1 _ Hw1) by reflexivity.
    cbn [Ascii.eqb Bool.eqb andb].
    destruct (render_start v Hv) as (ch & t & E & Hch & _).
    rewrite (skipSpace_ws w2 _ Hw2);
      [| rewrite E; now apply noSpaceAhead_start].
    rewrite <- ?app_assoc.
    destruct (Z_le_gt_dec (d + grammar.depth v) json.maxNestingDepth)
      as [Hok | Hbad].
    + rewrite (proj1 decoder_complete v Hv fuel d saved _ ltac:(lia) Hok);
        [| apply delimited_ws_app; [exact Hw3 | reflexivity]].
      rewrite (skipSpace_ws w3 _ Hw3) by reflexivity.
      cbn [Ascii.eqb Bool.eqb andb].
      assert (exists t', grammar.renderMembers ms ++ "}"%char :: rest
                         = json.dquote :: t') as (t' & E').
      { destruct ms; gsimpl; unfold grammar.quoted; cbn [app]; eauto. }
      rewrite (skipSpace_ws w4 _ Hw4); [| rewrite E'; reflexivity].
      apply (IHms Hms fuel d); lia.
    + rewrite (IHv Hv fuel d saved _ ltac:(lia) Hd ltac:(lia));
        [reflexivity | apply delimited_ws_app; [exact Hw3 | reflexivity]].
Qed.

(** [Unmarshal] returns a syntax error for every text of the grammar
    that is nested deeper than the limit. *)
Lemma Unmarshal_deep (w1 : list ascii) (c : grammar.cst) (w2 : list ascii) :
  grammar.ws w1 -> grammar.wf c -> grammar.ws w2 ->
  json.maxNestingDepth < grammar.depth c ->
  json.Unmarshal float64 ParseFloat (grammar.text w1 c w2)
  = (json.Nil _, Some json.SyntaxError).
Proof.
  intros H1 Hc H2 Hd. unfold json.Unmarshal, grammar.text.
  destruct (render_start c Hc) as (ch & t & E & Hch & _).
  rewrite (skipSpace_ws w1 _ H1);
    [| rewrite E; now apply noSpaceAhead_start].
  rewrite (proj1 decoder_deep c Hc); [reflexivity | | | | ].
  - pose proof (proj1 need_bound c) as Hn.
    rewrite !length_app. lia.
  - unfold json.maxNestingDepth. lia.
  - lia.
  - now apply ws_delimited.
Qed.

(** *** Whitespace around a text *)

(** What [Unmarshal] returns for a text of the grammar, by the depth of
    its tree. *)
Lemma Unmarshal_text (w1 : list ascii) (c : grammar.cst) (w2 : list ascii) :
  grammar.ws w1 -> grammar.wf c -> grammar.ws w2 ->
  json.Unmarshal float64 ParseFloat (grammar.text w1 c w2)
  = if grammar.depth c <=? json.maxNestingDepth then build c None
    else (json.Nil _, Some json.SyntaxError).
Proof.
  intros H1 Hc H2.
  destruct (Z.leb_spec (grammar.depth c) json.maxNestingDepth).
  - now apply Unmarshal_complete.
  - now apply Unmarshal_deep.
Qed.

Lemma ws_prefix (w1 w1' a b : list ascii) (ch : ascii) :
  grammar.ws w1 -> json.isSpace ch = false ->
  w1 ++ a = w1' ++ ch :: b ->
  exists u, w1' = w1 ++ u.
Proof.
  intros Hw Hch. revert w1'.
  induction Hw as [| c w Hc Hw IH]; intros w1' E; [now exists w1' |].
  destruct w1' as [| c' w'']; cbn [app] in E.
  - injection E as -> _. congruence.
  - injection E as -> E. destruct (IH w'' E) as (u & ->). now exists u.
Qed.

Lemma ws_suffix (w2 w2' a b : list ascii) (ch : ascii) :
  grammar.ws w2 -> json.isSpace ch = false ->
  a ++ w2 = b ++ ch :: w2' ->
  exists u, w2' = u ++ w2.
Proof.
  intros Hw Hch E. apply (f_equal (@rev ascii)) in E.
  rewrite !rev_app_distr in E. cbn [rev] in E. rewrite <- app_assoc in E.
  cbn [app] in E.
  destruct (ws_prefix (rev w2) (rev w2') (rev a) (rev b) ch) as (u & Hu);
    [now apply Forall_rev | exact Hch | exact E |].
  exists (rev u). apply (f_equal (@rev ascii)) in Hu.
  now rewrite rev_involutive, rev_app_distr, rev_involutive in Hu.
Qed.

Lemma numberLit_last (lit : list ascii) :
  grammar.numberLit lit ->
  exists t ch, lit = t ++ [ch] /\ json.isDigit ch = true.
Proof.
  assert (forall ds pre, grammar.allDigits ds -> ds <> [] ->
            exists t ch, pre ++ ds = t ++ [ch] /\ json.isDigit ch = true)
    as Hds.
  { intros ds pre Hall Hne.
    destruct (exists_last Hne) as (t & ch & ->).
    apply Forall_app in Hall. destruct Hall as (_ & Hch).
    inversion Hch; subst. exists (pre ++ t), ch.
    now rewrite app_assoc. }
  intros (sign & i & f & e & -> & _ & Hi & Hf & He).
  destruct He as [-> | (c & sg & ds & -> & _ & _ & Hne & Hall)].
  - rewrite app_nil_r.
    destruct Hf as [-> | (ds & -> & Hne & Hall)].
    + rewrite app_nil_r.
      destruct Hi as [-> | (c & ds & -> & Hc & Hall)].
      * exists sign, "0"%char. now split.
      * destruct ds as [| d ds].
        -- exists sign, c. split; [reflexivity |].
           unfold json.isDigit19, json.isDigit in *.
           apply andb_true_iff in Hc. destruct Hc as (H1 & H2).
           apply Z.leb_le in H1. apply andb_true_iff.
           split; [apply Z.leb_le | exact H2].
           change (byteZ "0") with 48. change (byteZ "1") with 49 in H1. lia.
        -- destruct (Hds (d :: ds) (sign ++ [c]) Hall ltac:(discriminate))
             as (t & ch & E & Hch).
           exists t, ch. split; [| exact Hch].
           rewrite <- E. listeq.
    + destruct (Hds ds (sign ++ i ++ ["."%char]) Hall Hne)
        as (t & ch & E & Hch).
      exists t, ch. split; [| exact Hch].
      rewrite <- E. listeq.
  - destruct (Hds ds (sign ++ i ++ f ++ c :: sg) Hall Hne)
      as (t & ch & E & Hch).
    exists t, ch. split; [| exact Hch].
    rewrite <- E. listeq.
Qed.

(** A value of the grammar ends with a byte that is no whitespace. *)
Lemma render_end (c : grammar.cst) :
  grammar.wf c ->
  exists t ch, grammar.render c = t ++ [ch] /\ json.isSpace ch = false.
Proof.
  destruct c; intros Hwf.
  - now exists (json.la "nul"), "l"%char.
  - now exists (json.la "tru"), "e"%char.
  - now exists (json.la "fals"), "e"%char.
  - destruct (numberLit_last lit Hwf) as (t & ch & E & Hch).
    exists t, ch. split; [exact E |].
    now destruct (isDelimiter_false ch (isDigit_not_delimiter ch Hch)).
  - exists (json.dquote :: raw), json.dquote. now split.
  - exists ("["%char :: w), "]"%char. now split.
  - exists ("["%char :: w ++ grammar.renderElements es), "]"%char.
    gsimpl. split; [| reflexivity]. cbn [app]. now rewrite <- app_assoc.
  - exists ("{"%char :: w), "}"%char. now split.
  - exists ("{"%char :: w ++ grammar.renderMembers ms), "}"%char.
    gsimpl. split; [| reflexivity]. cbn [app]. now rewrite <- app_assoc.
Qed.

(** A text of the grammar with whitespace taken away at both ends is a
    text of the grammar, of the same tree. *)
Lemma text_strip (w1 w2 data w1' : list ascii) (c : grammar.cst)
  (w2' : list ascii) :
  grammar.ws w1 -> grammar.ws w2 ->
  grammar.ws w1' -> grammar.wf c -> grammar.ws w2' ->
  w1 ++ data ++ w2 = grammar.text w1' c w2' ->
  exists u1 u2,
    grammar.ws u1 /\ grammar.ws u2 /\ data = grammar.text u1 c u2.
Proof.
  intros H1 H2 H1' Hc H2' E. unfold grammar.text in *.
  destruct (render_start c Hc) as (ch & t & Es & Hch & _).
  destruct (isDelimiter_false ch Hch) as (Hsp & _).
  destruct (render_end c Hc) as (t' & ch' & Ee & Hch').
  assert (exists u1, w1' = w1 ++ u1) as (u1 & ->).
  { rewrite Es in E. cbn [app] in E.
    exact (ws_prefix w1 w1' _ _ ch H1 Hsp E). }
  rewrite <- app_assoc in E. apply app_inv_head in E.
  assert (exists u2, w2' = u2 ++ w2) as (u2 & ->).
  { rewrite Ee in E. rewrite <- app_assoc in E. cbn [app] in E.
    rewrite app_assoc in E.
    exact (ws_suffix w2 w2' _ _ ch' H2 Hch' E). }
  rewrite !app_assoc in E. apply app_inv_tail in E.
  exists u1, u2. apply Forall_app in H1', H2'.
  split; [tauto | split; [tauto |]]. now rewrite <- app_assoc in E.
Qed.

(** [Unmarshal] returns the same for a text and for the text with
    whitespace around it. *)
Lemma Unmarshal_ws (w1 data w2 : list ascii) :
  grammar.ws w1 -> grammar.ws w2 ->
  json.Unmarshal float64 ParseFloat (w1 ++ data ++ w2)
  = json.Unmarshal float64 ParseFloat data.
Proof.
  intros H1 H2.
  assert (forall u1 c u2,
            grammar.ws u1 -> grammar.wf c -> grammar.ws u2 ->
            data = grammar.text u1 c u2 ->
            json.Unmarshal float64 ParseFloat (w1 ++ data ++ w2)
            = json.Unmarshal float64 ParseFloat data) as Hvalid.
  { intros u1 c u2 Hu1 Hc Hu2 ->.
    replace (w1 ++ grammar.text u1 c u2 ++ w2)
      with (grammar.text (w1 ++ u1) c (u2 ++ w2))
      by (unfold grammar.text; now rewrite <- !app_assoc).
    rewrite !Unmarshal_text; try assumption; try reflexivity;
      apply Forall_app; now split. }
  assert (forall w1' c w2',
            grammar.ws w1' -> grammar.wf c -> grammar.ws w2' ->
            w1 ++ data ++ w2 = grammar.text w1' c w2' ->
            json.Unmarshal float64 ParseFloat (w1 ++ data ++ w2)
            = json.Unmarshal float64 ParseFloat data) as Hvalid'.
  { intros w1' c w2' Hw1' Hc Hw2' E.
    destruct (text_strip w1 w2 data w1' c w2' H1 H2 Hw1' Hc Hw2' E)
      as (u1 & u2 & Hu1 & Hu2 & Hd).
    exact (Hvalid u1 c u2 Hu1 Hc Hu2 Hd). }
  destruct (json.Unmarshal float64 ParseFloat data) as [x [e |]] eqn:E.
  - destruct (Unmarshal_error data x e E)
      as [(-> & ->) | (u1 & c & u2 & Hu1 & Hc & Hu2 & Hd & _)].
    + destruct (json.Unmarshal float64 ParseFloat (w1 ++ data ++ w2))
        as [y [e' |]] eqn:E'.
      * destruct (Unmarshal_error _ y e' E')
          as [(-> & ->) | (w1' & c & w2' & Hw1' & Hc & Hw2' & Hd & _)];
          [reflexivity |].
        exact (Hvalid' w1' c w2' Hw1' Hc Hw2' Hd).
      * destruct (Unmarshal_sound _ y E')
          as (w1' & c & w2' & Hw1' & Hc & Hw2' & Hd & _).
        exact (Hvalid' w1' c w2' Hw1' Hc Hw2' Hd).
    + exact (Hvalid u1 c u2 Hu1 Hc Hu2 Hd).
  - destruct (Unmarshal_sound data x E)
      as (u1 & c & u2 & Hu1 & Hc & Hu2 & Hd & _).
    exact (Hvalid u1 c u2 Hu1 Hc Hu2 Hd).
Qed.

End Decoder.


(** ** The encoder against the grammar *)

Section Encoder.

Variable float64 : Type.
Variable ParseFloat : list ascii -> option float64.
Variable floatEncoder : float64 -> option (list ascii).

Local Abbreviation any := (json.any float64).
Local Abbreviation encode := (json.encode float64 floatEncoder).
Local Abbreviation build := (grammar.build float64 ParseFloat).
Local Abbreviation buildElements := (grammar.buildElements float64 ParseFloat).
Local Abbreviation buildMembers := (grammar.buildMembers float64 ParseFloat).
Local Abbreviation good := (good float64 ParseFloat).
Local Abbreviation depthOf := (depthAny float64).
Local Abbreviation encodes := (encodesAs float64 ParseFloat floatEncoder).
Local Abbreviation safe := (Forall (fun ch : ascii => isHTMLChar ch = false)).

(** Induction on a value, with the property for the elements of a slice
    and for the values of a map. *)
Lemma any_ind' (P : any -> Prop) :
  P (json.Nil _) -> (forall b, P (json.Bool _ b)) ->
  (forall f, P (json.Float64 _ f)) -> (forall s, P (json.Str _ s)) ->
  (forall l, Forall P l -> P (json.Slice _ l)) ->
  (forall m, Forall (fun kv => P (snd kv)) m -> P (json.Map _ m)) ->
  forall x, P x.
Proof.
  intros HN HB HF HS HL HM. fix IH 1. intros [| b | f | s | l | m].
  - exact HN.
  - apply HB.
  - apply HF.
  - apply HS.
  - apply HL. induction l as [| y l IHl]; constructor; [apply IH | exact IHl].
  - apply HM. induction m as [| [k y] m IHm]; constructor;
      [apply IH | exact IHm].
Qed.

Lemma encode_Slice (l : list any) :
  encode (json.Slice _ l)
  = match json.encodeList _ encode true l with
    | inl e => inl e
    | inr bs => inr ("["%char :: bs ++ ["]"%char])
    end.
Proof. reflexivity. Qed.

Lemma encode_Map (m : list (list ascii * any)) :
  encode (json.Map _ m)
  = match json.encodeMap _ encode true m with
    | inl e => inl e
    | inr bs => inr ("{"%char :: bs ++ ["}"%char])
    end.
Proof. reflexivity. Qed.

Lemma isDigit_safe (c : ascii) : json.isDigit c = true -> isHTMLChar c = false.
Proof.
  destruct c as [[] [] [] [] [] [] [] []]; vm_compute;
    intros H; (reflexivity || discriminate H).
Qed.

Lemma isDigit19_safe (c : ascii) :
  json.isDigit19 c = true -> isHTMLChar c = false.
Proof.
  destruct c as [[] [] [] [] [] [] [] []]; vm_compute;
    intros H; (reflexivity || discriminate H).
Qed.

Lemma allDigits_safe (ds : list ascii) : grammar.allDigits ds -> safe ds.
Proof. apply Forall_impl. exact isDigit_safe. Qed.

(** A number literal has none of the bytes [<], [>] and [&]. *)
Lemma numberLit_safe (lit : list ascii) : grammar.numberLit lit -> safe lit.
Proof.
  intros (sign & i & f & e & -> & Hs & Hi & Hf & He).
  apply Forall_app; split; [| apply Forall_app; split;
                               [| apply Forall_app; split]].
  - destruct Hs as [-> | ->]; repeat constructor.
  - destruct Hi as [-> | (c & ds & -> & Hc & Hds)]; [repeat constructor |].
    constructor; [| now apply allDigits_safe].
    now apply isDigit19_safe.
  - destruct Hf as [-> | (ds & -> & _ & Hds)]; [constructor |].
    constructor; [reflexivity | now apply allDigits_safe].
  - destruct He as [-> | (c & sign' & ds & -> & Hc & Hs' & _ & Hds)];
      [constructor |].
    constructor; [destruct Hc as [-> | ->]; reflexivity |].
    apply Forall_app. split; [| now apply allDigits_safe].
    destruct Hs' as [-> | [-> | ->]]; repeat constructor.
Qed.

Ltac tsimpl :=
  rewrite ?build_CArray, ?build_CObject, ?buildElements_ELast,
    ?buildElements_ECons, ?buildMembers_MLast, ?buildMembers_MCons,
    ?render_CArray, ?render_CObject, ?renderElements_ELast,
    ?renderElements_ECons, ?renderMembers_MLast, ?renderMembers_MCons,
    ?depth_CArray, ?depth_CObject, ?depthElements_ELast,
    ?depthElements_ECons, ?depthMembers_MLast, ?depthMembers_MCons,
    ?wf_CArray, ?wf_CObject, ?wfElements_ELast, ?wfElements_ECons,
    ?wfMembers_MLast, ?wfMembers_MCons.

Ltac wfs := repeat split; first [assumption | constructor].

Local Abbreviation depthList :=
  (fold_right (fun (y : any) d => Z.max (depthOf y) d) 0).
Local Abbreviation depthMap :=
  (fold_right (fun (kv : list ascii * any) d => Z.max (depthOf (snd kv)) d) 0).

Lemma safe_quoted (body : list ascii) : safe body -> safe (grammar.quoted body).
Proof.
  intros H. unfold grammar.quoted. constructor; [reflexivity |].
  apply Forall_app. split; [exact H | repeat constructor].
Qed.

(** The loop of the array encoder writes the elements of a tree, with
    no whitespace. *)
Lemma encodeList_cons (l : list any) :
  forall (x : any) (first : bool),
    Forall (fun y => exists c, encodes y c) (x :: l) ->
    exists es,
      json.encodeList _ encode first (x :: l)
      = inr ((if first then [] else json.comma) ++ grammar.renderElements es)
      /\ grammar.wfElements es
      /\ buildElements es None = (x :: l, None)
      /\ grammar.depthElements es = depthList (x :: l)
      /\ safe (grammar.renderElements es).
Proof.
  induction l as [| y l IH]; intros x first Hall.
  - inversion Hall as [| ? ? (c & He & Hwf & Hb & Hd & Hs) _]; subst.
    exists (grammar.ELast c []). cbn [json.encodeList]. rewrite He.
    tsimpl. rewrite Hb, !app_nil_r.
    split; [reflexivity |]. split; [wfs |]. split; [reflexivity |].
    split; [| exact Hs].
    cbn [fold_right]. pose proof (depthAny_nonneg float64 x). lia.
  - inversion Hall as [| ? ? (c & He & Hwf & Hb & Hd & Hs) Hall']; subst.
    destruct (IH y false Hall') as (es & Ees & Hwfes & Hbes & Hdes & Hses).
    exists (grammar.ECons c [] [] es).
    change (json.encodeList _ encode first (x :: y :: l))
      with (match encode x with
            | inl e => inl e
            | inr b =>
              match json.encodeList _ encode false (y :: l) with
              | inl e => inl e
              | inr bs => inr ((if first then [] else json.comma) ++ b ++ bs)
              end
            end).
    rewrite He, Ees. tsimpl. rewrite Hb, Hbes.
    split; [reflexivity |]. split; [wfs |]. split; [reflexivity |]. split.
    + rewrite Hd, Hdes. reflexivity.
    + apply Forall_app. split; [exact Hs |]. cbn [app].
      constructor; [reflexivity | exact Hses].
Qed.

(** The loop of the map encoder writes the members of a tree, with no
    whitespace; built after entries with smaller keys, the tree adds its
    entries behind them. *)
Lemma encodeMap_cons (m : list (list ascii * any)) :
  forall (k : list ascii) (x : any) (first : bool)
         (acc : list (list ascii * any)),
    Forall (fun kv => exists c, encodes (snd kv) c) ((k, x) :: m) ->
    Forall (fun kv => exists rs, utf8.wellFormed (fst kv) rs) ((k, x) :: m) ->
    StronglySorted keyLt ((k, x) :: m) ->
    Forall (fun a => Forall (keyLt a) ((k, x) :: m)) acc ->
    exists ms,
      json.encodeMap _ encode first ((k, x) :: m)
      = inr ((if first then [] else json.comma) ++ grammar.renderMembers ms)
      /\ grammar.wfMembers ms
      /\ buildMembers ms acc None = (acc ++ (k, x) :: m, None)
      /\ grammar.depthMembers ms = depthMap ((k, x) :: m)
      /\ safe (grammar.renderMembers ms).
Proof.
  induction m as [| [k' y] m IH]; intros k x first acc Hall Hkeys Hsort Hacc.
  - inversion Hall as [| ? ? (c & He & Hwf & Hb & Hd & Hs) _]; subst.
    inversion Hkeys as [| ? ? (rs & Hrs) _]; subst. cbn [fst snd] in *.
    destruct (appendString_wellFormed k rs Hrs)
      as (body & Ek & Hbody & Hsafe & Hun).
    exists (grammar.MLast body [] [] c []).
    cbn [json.encodeMap]. rewrite He. tsimpl. rewrite Hb, Ek, !app_nil_r.
    unfold grammar.unquoted. rewrite Hun.
    rewrite mapassign_append.
    2:{ eapply Forall_impl; [| exact Hacc]. intros a Ha.
        inversion Ha; subst. assumption. }
    split; [reflexivity |]. split; [wfs |]. split; [reflexivity |]. split.
    + cbn [fold_right snd]. pose proof (depthAny_nonneg float64 x). lia.
    + apply Forall_app. split; [now apply safe_quoted |]. cbn [app].
      constructor; [reflexivity | exact Hs].
  - inversion Hall as [| ? ? (c & He & Hwf & Hb & Hd & Hs) Hall']; subst.
    inversion Hkeys as [| ? ? (rs & Hrs) Hkeys']; subst. cbn [fst snd] in *.
    inversion Hsort as [| ? ? Hsort' Hlt]; subst.
    destruct (appendString_wellFormed k rs Hrs)
      as (body & Ek & Hbody & Hsafe & Hun).
    destruct (IH k' y false (acc ++ [(k, x)]) Hall' Hkeys' Hsort')
      as (ms & Ems & Hwfms & Hbms & Hdms & Hsms).
    { apply Forall_app. split.
      - eapply Forall_impl; [| exact Hacc]. intros a Ha.
        inversion Ha; subst. assumption.
      - constructor; [exact Hlt | constructor]. }
    exists (grammar.MCons body [] [] c [] [] ms).
    change (json.encodeMap _ encode first ((k, x) :: (k', y) :: m))
      with (match encode x with
            | inl e => inl e
            | inr b =>
              match json.encodeMap _ encode false ((k', y) :: m) with
              | inl e => inl e
              | inr bs =>
                inr ((if first then [] else json.comma)
                     ++ json.appendString k ++ ":"%char :: b ++ bs)
              end
            end).
    rewrite He, Ems. tsimpl. rewrite Hb, Ek.
    unfold grammar.unquoted. rewrite Hun.
    rewrite mapassign_append.
    2:{ eapply Forall_impl; [| exact Hacc]. intros a Ha.
        inversion Ha; subst. assumption. }
    rewrite Hbms, <- app_assoc.
    split; [reflexivity |]. split; [wfs |]. split; [reflexivity |]. split.
    + rewrite Hd, Hdms. reflexivity.
    + apply Forall_app. split; [now apply safe_quoted |]. cbn [app].
      constructor; [reflexivity |]. apply Forall_app. split; [exact Hs |].
      cbn [app]. constructor; [reflexivity | exact Hsms].
Qed.

Hypothesis contract : floatContract float64 ParseFloat floatEncoder.

(** A value that [Unmarshal] stores with a nil error is encoded as the
    text of a tree that builds the same value. *)
Lemma encode_good (x : any) : good x -> exists c, encodes x c.
Proof.
  induction x as [| b | f | s | l IH | m IH] using any_ind'; intros Hg.
  - exists grammar.CNull. repeat split; repeat constructor.
  - destruct b; [exists grammar.CTrue | exists grammar.CFalse];
      repeat split; repeat constructor.
  - inversion Hg as [| | ? lit Hlit Hp | | |]; subst.
    destruct (contract lit f Hlit Hp) as (out & Eo & Hout & Hpo).
    exists (grammar.CNumber out). unfold encodesAs.
    cbn [json.encode grammar.render grammar.wf grammar.build grammar.depth
         depthAny].
    rewrite Eo, Hpo. repeat split; [exact Hout | now apply numberLit_safe].
  - inversion Hg as [| | | ? rs Hrs | |]; subst.
    destruct (appendString_wellFormed s rs Hrs)
      as (body & Es & Hbody & Hsafe & Hun).
    exists (grammar.CString body). unfold encodesAs.
    cbn [json.encode grammar.render grammar.wf grammar.build grammar.depth
         depthAny].
    unfold grammar.unquoted. rewrite Es, Hun.
    repeat split; [exact Hbody | now apply safe_quoted].
  - inversion Hg as [| | | | ? Hl |]; subst.
    assert (Forall (fun y => exists c, encodes y c) l) as Hall.
    { clear Hg. induction IH as [| y l Hy _ IHl]; [constructor |].
      inversion Hl; subst. constructor; auto. }
    destruct l as [| y l].
    + exists (grammar.CArray0 []). repeat split; repeat constructor.
    + destruct (encodeList_cons l y true Hall)
        as (es & Ees & Hwf & Hb & Hd & Hs).
      exists (grammar.CArray [] es). unfold encodesAs.
      rewrite encode_Slice, Ees. tsimpl. rewrite Hb, Hd.
      split; [reflexivity |]. split; [wfs |]. split; [reflexivity |].
      split; [reflexivity |].
      cbn [app]. constructor; [reflexivity |].
      apply Forall_app. split; [exact Hs | repeat constructor].
  - inversion Hg as [| | | | | ? Hsort Hent]; subst.
    assert (Forall (fun kv => exists c, encodes (snd kv) c) m) as Hall.
    { clear Hg Hsort. induction IH as [| kv m Hy _ IHm]; [constructor |].
      inversion Hent as [| ? ? (_ & Hgood) Hent']; subst.
      constructor; auto. }
    assert (Forall (fun kv => exists rs, utf8.wellFormed (fst kv) rs) m)
      as Hkeys.
    { eapply Forall_impl; [| exact Hent]. intros kv (Hk & _). exact Hk. }
    destruct m as [| [k y] m].
    + exists (grammar.CObject0 []). repeat split; repeat constructor.
    + destruct (encodeMap_cons m k y true [] Hall Hkeys Hsort)
        as (ms & Ems & Hwf & Hb & Hd & Hs); [constructor |].
      exists (grammar.CObject [] ms). unfold encodesAs.
      rewrite encode_Map, Ems. tsimpl. rewrite Hb, Hd.
      split; [reflexivity |]. split; [wfs |]. split; [reflexivity |].
      split; [reflexivity |].
      cbn [app]. constructor; [reflexivity |].
      apply Forall_app. split; [exact Hs | repeat constructor].
Qed.

(** *** Decoding, then encoding *)

(** What [Unmarshal] stores with a nil error, [Marshal] writes as the
    text of a tree that [Unmarshal] reads back as the same value. *)
Lemma Unmarshal_Marshal (data : list ascii) (x : any) :
  json.Unmarshal float64 ParseFloat data = (x, None) ->
  exists c,
    json.Marshal float64 floatEncoder x = (grammar.render c, None)
    /\ encodes x c
    /\ grammar.depth c <= json.maxNestingDepth
    /\ json.Unmarshal float64 ParseFloat (grammar.render c) = (x, None).
Proof.
  intros H.
  destruct (Unmarshal_sound _ _ _ _ H)
    as (w1 & c0 & w2 & _ & Hwf0 & _ & _ & Hb0 & Hd0).
  destruct (proj1 (build_good float64 ParseFloat) c0 Hwf0 None x Hb0)
    as (_ & Hg & Hdx).
  destruct (encode_good x Hg) as (c & Hc).
  pose proof Hc as (He & Hwf & Hb & Hd & Hs).
  assert (grammar.depth c <= json.maxNestingDepth) as Hdc by lia.
  exists c. unfold json.Marshal. rewrite He.
  repeat split; try assumption.
  rewrite <- Hb, <- (app_nil_r (grammar.render c)).
  apply (Unmarshal_complete float64 ParseFloat [] c []);
    [constructor | exact Hwf | constructor | exact Hdc].
Qed.

(** A call of [JSONFromValue] that returns a nil error: the value read
    from the input, and the tree whose text is returned. *)
Lemma JSONFromValue_success (input : string) (out : JSON) :
  JSONFromValue float64 ParseFloat floatEncoder input = (out, None) ->
  exists x c,
    json.Unmarshal float64 ParseFloat (list_ascii_of_string input)
    = (x, None)
    /\ list_ascii_of_string (String out) = grammar.render c
    /\ encodes x c
    /\ grammar.depth c <= json.maxNestingDepth
    /\ json.Unmarshal float64 ParseFloat (grammar.render c) = (x, None).
Proof.
  unfold JSONFromValue.
  destruct (json.Unmarshal float64 ParseFloat (list_ascii_of_string input))
    as [x [e |]] eqn:E; [discriminate |].
  destruct (Unmarshal_Marshal _ x E) as (c & Hm & Hc & Hd & Hu).
  rewrite Hm. intros H. injection H as <-.
  exists x, c. cbn [String str].
  rewrite list_ascii_of_string_of_list_ascii. auto.
Qed.

(** *** The bytes written *)

Lemma isDigit_ascii (c : ascii) :
  json.isDigit c = true -> 0x20 <= byteZ c <= 0x7F.
Proof.
  unfold json.isDigit. intros H.
  apply andb_true_iff in H. destruct H as (H1 & H2).
  apply Z.leb_le in H1, H2.
  change (byteZ "0") with 48 in H1. change (byteZ "9") with 57 in H2. lia.
Qed.

Lemma isDigit19_isDigit (c : ascii) :
  json.isDigit19 c = true -> json.isDigit c = true.
Proof.
  unfold json.isDigit19, json.isDigit. intros H.
  apply andb_true_iff in H. destruct H as (H1 & H2).
  apply Z.leb_le in H1. apply andb_true_iff.
  split; [apply Z.leb_le | exact H2].
  change (byteZ "0") with 48. change (byteZ "1") with 49 in H1. lia.
Qed.

(** A number literal is printable ASCII. *)
Lemma numberLit_ascii (lit : list ascii) :
  grammar.numberLit lit -> Forall (fun c => 0x20 <= byteZ c <= 0x7F) lit.
Proof.
  assert (forall ds, grammar.allDigits ds ->
            Forall (fun c => 0x20 <= byteZ c <= 0x7F) ds) as Hds.
  { intros ds. apply Forall_impl. exact isDigit_ascii. }
  intros (sign & i & f & e & -> & Hs & Hi & Hf & He).
  apply Forall_app; split; [| apply Forall_app; split;
                               [| apply Forall_app; split]].
  - destruct Hs as [-> | ->]; repeat constructor; vm_compute; discriminate.
  - destruct Hi as [-> | (c & ds & -> & Hc & Hall)];
      [repeat constructor; vm_compute; discriminate |].
    constructor; [| now apply Hds].
    apply isDigit_ascii. now apply isDigit19_isDigit.
  - destruct Hf as [-> | (ds & -> & _ & Hall)]; [constructor |].
    constructor; [vm_compute; split; discriminate | now apply Hds].
  - destruct He as [-> | (c & sign' & ds & -> & Hc & Hs' & _ & Hall)];
      [constructor |].
    constructor;
      [destruct Hc as [-> | ->]; vm_compute; split; discriminate |].
    apply Forall_app. split; [| now apply Hds].
    destruct Hs' as [-> | [-> | ->]]; repeat constructor;
      vm_compute; discriminate.
Qed.

Ltac punct := apply cleanText_ascii; repeat constructor; vm_compute; discriminate.

Lemma encodeList_clean (l : list any) :
  Forall (fun y => forall b, encode y = inr b -> cleanText b) l ->
  forall first bs,
    json.encodeList _ encode first l = inr bs -> cleanText bs.
Proof.
  induction 1 as [| y l Hy _ IH]; intros first bs.
  - cbn [json.encodeList]. intros H. injection H as <-. punct.
  - cbn [json.encodeList].
    destruct (encode y) as [e | b] eqn:Ey; [discriminate |].
    destruct (json.encodeList _ encode false l) as [e | bs'] eqn:El;
      [discriminate |].
    intros H. injection H as <-.
    apply cleanText_app; [destruct first; punct |].
    apply cleanText_app; [now apply Hy | now apply (IH false)].
Qed.

Lemma encodeMap_clean (m : list (list ascii * any)) :
  Forall (fun kv => forall b, encode (snd kv) = inr b -> cleanText b) m ->
  Forall (fun kv => exists rs, utf8.wellFormed (fst kv) rs) m ->
  forall first bs,
    json.encodeMap _ encode first m = inr bs -> cleanText bs.
Proof.
  induction 1 as [| [k y] m Hy _ IH]; intros Hkeys first bs.
  - cbn [json.encodeMap]. intros H. injection H as <-. punct.
  - cbn [json.encodeMap].
    inversion Hkeys as [| ? ? (rs & Hrs) Hkeys']; subst. cbn [fst snd] in *.
    destruct (encode y) as [e | b] eqn:Ey; [discriminate |].
    destruct (json.encodeMap _ encode false m) as [e | bs'] eqn:Em;
      [discriminate |].
    intros H. injection H as <-.
    apply cleanText_app; [destruct first; punct |].
    apply (cleanText_app (json.appendString k));
      [now apply (appendString_clean k rs) |].
    change (":"%char :: b ++ bs') with ([":"%char] ++ b ++ bs').
    apply cleanText_app; [punct |].
    apply cleanText_app; [now apply Hy | now apply (IH Hkeys' false)].
Qed.

(** What the encoder writes for a value stored with a nil error is
    well-formed UTF-8 with no control byte. *)
Lemma encode_clean (x : any) :
  good x -> forall b, encode x = inr b -> cleanText b.
Proof.
  induction x as [| b0 | f | s | l IH | m IH] using any_ind';
    intros Hg b.
  - cbn [json.encode]. intros H. injection H as <-. punct.
  - destruct b0; cbn [json.encode]; intros H; injection H as <-; punct.
  - inversion Hg as [| | ? lit Hlit Hp | | |]; subst.
    destruct (contract lit f Hlit Hp) as (out & Eo & Hout & _).
    cbn [json.encode]. rewrite Eo. intros H. injection H as <-.
    apply cleanText_ascii. now apply numberLit_ascii.
  - inversion Hg as [| | | ? rs Hrs | |]; subst.
    cbn [json.encode]. intros H. injection H as <-.
    now apply (appendString_clean s rs).
  - inversion Hg as [| | | | ? Hl |]; subst.
    rewrite encode_Slice.
    destruct (json.encodeList _ encode true l) as [e | bs] eqn:El;
      [discriminate |].
    intros H. injection H as <-.
    change ("["%char :: bs ++ ["]"%char]) with (["["%char] ++ bs ++ ["]"%char]).
    apply cleanText_app; [punct |]. apply cleanText_app; [| punct].
    apply (encodeList_clean l) with (first := true); [| exact El].
    clear El Hg. induction IH as [| y l Hy _ IHl]; [constructor |].
    inversion Hl; subst. constructor; auto.
  - inversion Hg as [| | | | | ? Hsort Hent]; subst.
    rewrite encode_Map.
    destruct (json.encodeMap _ encode true m) as [e | bs] eqn:Em;
      [discriminate |].
    intros H. injection H as <-.
    change ("{"%char :: bs ++ ["}"%char]) with (["{"%char] ++ bs ++ ["}"%char]).
    apply cleanText_app; [punct |]. apply cleanText_app; [| punct].
    apply (encodeMap_clean m) with (first := true); [| | exact Em].
    + clear Em Hg Hsort. induction IH as [| kv m Hy _ IHm]; [constructor |].
      inversion Hent as [| ? ? (_ & Hgood) Hent']; subst.
      constructor; auto.
    + eapply Forall_impl; [| exact Hent]. intros kv (Hk & _). exact Hk.
Qed.

(** The text [JSONFromValue] returns with a nil error is well-formed
    UTF-8 with no control byte. *)
Lemma JSONFromValue_clean (input : string) (out : JSON) :
  JSONFromValue float64 ParseFloat floatEncoder input = (out, None) ->
  cleanText (list_ascii_of_string (String out)).
Proof.
  intros H.
  destruct (JSONFromValue_success input out H)
    as (x & c & Hu & Hout & (He & _) & _).
  destruct (Unmarshal_sound _ _ _ _ Hu)
    as (w1 & c0 & w2 & _ & Hwf0 & _ & _ & Hb0 & _).
  destruct (proj1 (build_good float64 ParseFloat) c0 Hwf0 None x Hb0)
    as (_ & Hg & _).
  rewrite Hout. exact (encode_clean x Hg _ He).
Qed.

End Encoder.


(** ** [JSONFromValue] *)

(** Numbers kept as their literals meet the contract of [strconv]. *)
Lemma literal_contract :
  floatContract (list ascii) literalParseFloat literalFloatEncoder.
Proof.
  intros lit f Hlit H. injection H as <-. exists lit. now repeat split.
Qed.

Lemma render_nestedArray (n : nat) :
  grammar.render (nestedArray n)
  = repeat "["%char (S n) ++ repeat "]"%char (S n).
Proof.
  induction n as [| n IH]; [reflexivity |].
  change (grammar.render (nestedArray (S n)))
    with ("["%char :: (grammar.render (nestedArray n) ++ []) ++ ["]"%char]).
  rewrite IH, app_nil_r, <- app_assoc.
  change (repeat "]"%char (S n) ++ ["]"%char])
    with ("]"%char :: repeat "]"%char n ++ ["]"%char]).
  rewrite <- (repeat_cons n "]"%char). reflexivity.
Qed.

Lemma wf_nestedArray (n : nat) : grammar.wf (nestedArray n).
Proof.
  induction n as [| n IH]; [constructor |].
  split; [constructor | split; [exact IH | constructor]].
Qed.

Lemma depth_nestedArray (n : nat) :
  grammar.depth (nestedArray n) = Z.of_nat (S n).
Proof.
  induction n as [| n IH]; [reflexivity |].
  change (grammar.depth (nestedArray (S n)))
    with (1 + grammar.depth (nestedArray n)).
  rewrite IH. lia.
Qed.

Lemma isHTMLChar_false (ch : ascii) :
  isHTMLChar ch = false ->
  ch <> "<"%char /\ ch <> ">"%char /\ ch <> "&"%char.
Proof.
  unfold isHTMLChar. intros H.
  repeat split; intros ->; discriminate H.
Qed.

Lemma sampleTree_wf : grammar.wf sampleTree.
Proof.
  assert (grammar.numberLit (json.la "-1.5e3")) as Hnum.
  { exists ["-"%char], ["1"%char], (json.la ".5"), (json.la "e3").
    split; [reflexivity |]. split; [now right |]. split; [| split].
    - right. exists "1"%char, []. repeat split. constructor.
    - right. exists ["5"%char]. repeat split; [discriminate |].
      repeat constructor.
    - right. exists "e"%char, [], ["3"%char].
      repeat split; [now left | now left | discriminate |].
      repeat constructor. }
  assert (forall s, Forall (fun c => 0x20 <= byteZ c /\ c <> json.dquote
                                     /\ c <> json.backslash) s ->
                    grammar.stringBody s) as Hbody.
  { induction 1 as [| c s (H1 & H2 & H3) _ IH]; constructor; assumption. }
  assert (forall s, grammar.ws (json.la s) \/ True) as _ by (now right).
  unfold sampleTree.
  repeat match goal with
  | |- _ /\ _ => split
  | |- grammar.wf _ => cbn [grammar.wf grammar.wfElements grammar.wfMembers]
  | |- grammar.wfMembers _ =>
    cbn [grammar.wf grammar.wfElements grammar.wfMembers]
  | |- grammar.ws _ => repeat constructor
  | |- grammar.numberLit _ => exact Hnum
  | |- grammar.stringBody _ =>
    apply Hbody; repeat constructor; (discriminate || (vm_compute; discriminate))
  | |- True => exact I
  end.
Qed.

(** C1, as amended.  For every JSON text of the grammar that is nested
    at most 10000 deep and whose numbers [strconv.ParseFloat] all
    accepts, [JSONFromValue] returns a nil error, and reading the
    returned text again gives the same value, with a nil error, as
    reading the input.  ([strconv] is taken by its contract.) *)
Theorem C1_JSONFromValue_round_trip (float64 : Type)
  (ParseFloat : list ascii -> option float64)
  (floatEncoder : float64 -> option (list ascii))
  (input : string) (w1 : list ascii) (c : grammar.cst) (w2 : list ascii) :
  floatContract float64 ParseFloat floatEncoder ->
  grammar.ws w1 -> grammar.wf c -> grammar.ws w2 ->
  list_ascii_of_string input = grammar.text w1 c w2 ->
  grammar.depth c <= json.maxNestingDepth ->
  Forall (fun lit => ParseFloat lit <> None) (grammar.numbers c) ->
  exists out,
    JSONFromValue float64 ParseFloat floatEncoder input = (out, None)
    /\ json.Unmarshal float64 ParseFloat (list_ascii_of_string (String out))
       = json.Unmarshal float64 ParseFloat (list_ascii_of_string input)
    /\ snd (json.Unmarshal float64 ParseFloat (list_ascii_of_string input))
       = None.
Proof.
  intros Hcontract H1 Hc H2 Hin Hd Hnum.
  pose proof (Unmarshal_complete float64 ParseFloat w1 c w2 H1 Hc H2 Hd)
    as Hu.
  rewrite <- Hin in Hu.
  pose proof (proj1 (build_saved float64 ParseFloat) c None) as Hs.
  cbn iota in Hs.
  rewrite (proj2 (rangeError_None float64 ParseFloat _) Hnum) in Hs.
  destruct (grammar.build float64 ParseFloat c None) as [x s] eqn:Eb.
  cbn [snd] in Hs. subst s.
  destruct (Unmarshal_Marshal float64 ParseFloat floatEncoder Hcontract _ x Hu)
    as (c' & Hm & _ & _ & Hu').
  exists (mkJSON (string_of_list_ascii (grammar.render c'))).
  unfold JSONFromValue. rewrite Hu, Hm. cbn [String str snd].
  rewrite list_ascii_of_string_of_list_ascii, Hu'. auto.
Qed.

(** The sample text, at [C1_JSONFromValue_round_trip]. *)
Lemma C1_round_trip_sample :
  exists out,
    JSONFromValue _ literalParseFloat literalFloatEncoder sampleText
    = (out, None)
    /\ json.Unmarshal _ literalParseFloat (list_ascii_of_string (String out))
       = json.Unmarshal _ literalParseFloat (list_ascii_of_string sampleText)
    /\ snd (json.Unmarshal _ literalParseFloat
              (list_ascii_of_string sampleText)) = None.
Proof.
  apply (C1_JSONFromValue_round_trip (list ascii) literalParseFloat
           literalFloatEncoder sampleText [" "%char] sampleTree
           ["010"%char]).
  - exact literal_contract.
  - repeat constructor.
  - exact sampleTree_wf.
  - repeat constructor.
  - apply list_ascii_of_string_of_list_ascii.
  - vm_compute. discriminate.
  - repeat constructor; discriminate.
Defined.

(** C1, as stated, fails: the text of 10001 arrays one inside the
    other is valid JSON, and [JSONFromValue] returns a syntax error for
    it (the scanner stops at a nesting depth above 10000), whatever
    [strconv] does. *)
Lemma C1_deep_nesting_is_rejected :
  grammar.Valid (list_ascii_of_string deepArray)
  /\ forall (float64 : Type) (ParseFloat : list ascii -> option float64)
            (floatEncoder : float64 -> option (list ascii)),
       JSONFromValue float64 ParseFloat floatEncoder deepArray
       = (zeroJSON, Some json.SyntaxError).
Proof.
  split.
  - exists [], (nestedArray 10000), []. split; [constructor |].
    split; [apply wf_nestedArray |]. split; [constructor |].
    unfold grammar.text, deepArray.
    rewrite render_nestedArray, list_ascii_of_string_of_list_ascii, app_nil_r.
    reflexivity.
  - intros float64 ParseFloat floatEncoder. vm_compute. reflexivity.
Qed.




(** C8.  When [JSONFromValue] returns a nil error, none of the bytes
    [<], [>] and [&] occurs in the [String()] of the result.  ([strconv]
    is taken by its contract: a float is written as a number literal.) *)
Theorem C8_JSONFromValue_escapes_HTML (float64 : Type)
  (ParseFloat : list ascii -> option float64)
  (floatEncoder : float64 -> option (list ascii))
  (input : string) (out : JSON) :
  floatContract float64 ParseFloat floatEncoder ->
  JSONFromValue float64 ParseFloat floatEncoder input = (out, None) ->
  forall ch, occurs ch (String out) ->
    ch <> "<"%char /\ ch <> ">"%char /\ ch <> "&"%char.
Proof.
  intros Hcontract H ch Hocc.
  destruct (JSONFromValue_success float64 ParseFloat floatEncoder Hcontract
              input out H)
    as (x & c & _ & Hout & (_ & _ & _ & _ & Hs) & _).
  unfold occurs in Hocc. rewrite Hout in Hocc.
  apply isHTMLChar_false. revert ch Hocc. now apply Forall_forall.
Qed.

(** The sample text, whose string holds [<], at
    [C8_JSONFromValue_escapes_HTML]. *)
Lemma C8_escapes_HTML_sample :
  Forall (fun ch => ch <> "<"%char /\ ch <> ">"%char /\ ch <> "&"%char)
    (list_ascii_of_string
       (String (fst (JSONFromValue _ literalParseFloat literalFloatEncoder
                       sampleText)))).
Proof.
  apply Forall_forall.
  apply (C8_JSONFromValue_escapes_HTML (list ascii) literalParseFloat
           literalFloatEncoder sampleText).
  - exact literal_contract.
  - vm_compute. reflexivity.
Defined.

(** C9.  When [JSONFromValue] returns [v] with a nil error for a text,
    it returns [v] with a nil error for [v.String()] as well.
    ([strconv] is taken by its contract.) *)
Theorem C9_JSONFromValue_idempotent (float64 : Type)
  (ParseFloat : list ascii -> option float64)
  (floatEncoder : float64 -> option (list ascii))
  (input : string) (v : JSON) :
  floatContract float64 ParseFloat floatEncoder ->
  JSONFromValue float64 ParseFloat floatEncoder input = (v, None) ->
  JSONFromValue float64 ParseFloat floatEncoder (String v) = (v, None).
Proof.
  intros Hcontract H.
  destruct (JSONFromValue_success float64 ParseFloat floatEncoder Hcontract
              input v H)
    as (x & c & _ & Hout & (He & _) & _ & Hu).
  unfold JSONFromValue at 1. rewrite Hout, Hu.
  unfold json.Marshal. rewrite He, <- Hout.
  rewrite string_of_list_ascii_of_string. now destruct v.
Qed.

(** The sample text, at [C9_JSONFromValue_idempotent]. *)
Lemma C9_idempotent_sample :
  JSONFromValue _ literalParseFloat literalFloatEncoder
    (String (fst (JSONFromValue _ literalParseFloat literalFloatEncoder
                    sampleText)))
  = (fst (JSONFromValue _ literalParseFloat literalFloatEncoder sampleText),
     None).
Proof.
  apply (C9_JSONFromValue_idempotent (list ascii) literalParseFloat
           literalFloatEncoder sampleText).
  - exact literal_contract.
  - vm_compute. reflexivity.
Defined.


(** ** More on [JSONFromValue] and [JSONConcat] *)

Lemma literal_bounded_contract :
  floatContract (list ascii) boundedParseFloat literalFloatEncoder.
Proof.
  intros lit f Hlit H. unfold boundedParseFloat in *.
  destruct (List.length lit <=? 4)%nat eqn:E; [| discriminate].
  injection H as <-. exists lit. rewrite E. now repeat split.
Qed.

(** A literal that [scanNumber] reads to its end is a number of the
    grammar. *)
Lemma numberLit_check (lit : list ascii) :
  json.scanNumber lit = Some (lit, []) -> grammar.numberLit lit.
Proof. intros H. exact (proj2 (scanNumber_sound lit lit [] H)). Qed.

Lemma rangeTree_wf : grammar.wf rangeTree.
Proof.
  unfold rangeTree.
  cbn [grammar.wf grammar.wfElements].
  repeat split; try constructor; now apply numberLit_check.
Qed.

(** The number literals of a tree of the grammar are number literals. *)
Lemma numbers_wf :
  (forall c, grammar.wf c -> Forall grammar.numberLit (grammar.numbers c))
  /\ (forall es, grammar.wfElements es ->
        Forall grammar.numberLit (grammar.numbersElements es))
  /\ (forall ms, grammar.wfMembers ms ->
        Forall grammar.numberLit (grammar.numbersMembers ms)).
Proof.
  apply grammar.cst_mutind;
    cbn [grammar.numbers grammar.numbersElements grammar.numbersMembers
         grammar.wf grammar.wfElements grammar.wfMembers];
    intros; try apply Forall_app; try tauto; repeat constructor; tauto.
Qed.

Lemma rangeError_Some (float64 : Type)
  (ParseFloat : list ascii -> option float64) (lits : list (list ascii))
  (e : json.error) :
  rangeError float64 ParseFloat lits = Some e ->
  exists lit,
    In lit lits /\ e = json.UnmarshalTypeError lit /\ ParseFloat lit = None.
Proof.
  unfold rangeError.
  destruct (find _ lits) as [lit |] eqn:E; [| discriminate].
  intros H. injection H as <-. apply find_some in E.
  destruct E as (Hin & Hp). exists lit.
  destruct (ParseFloat lit); [discriminate | auto].
Qed.

Lemma list_ascii_of_string_app (a b : string) :
  list_ascii_of_string (a ++ b)
  = list_ascii_of_string a ++ list_ascii_of_string b.
Proof. induction a as [| c a IH]; cbn; [reflexivity | now rewrite IH]. Qed.

Lemma JSON_eq (a b : JSON) : String a = String b -> a = b.
Proof. destruct a, b. cbn. now intros ->. Qed.

(** [JSONFromValue] returns a syntax error, with the zero value, for
    every JSON text of the grammar that is nested deeper than 10000,
    whatever [strconv] does. *)
Theorem JSONFromValue_rejects_deep_nesting (float64 : Type)
  (ParseFloat : list ascii -> option float64)
  (floatEncoder : float64 -> option (list ascii))
  (input : string) (w1 : list ascii) (c : grammar.cst) (w2 : list ascii) :
  grammar.ws w1 -> grammar.wf c -> grammar.ws w2 ->
  list_ascii_of_string input = grammar.text w1 c w2 ->
  json.maxNestingDepth < grammar.depth c ->
  JSONFromValue float64 ParseFloat floatEncoder input
  = (zeroJSON, Some json.SyntaxError).
Proof.
  intros H1 Hc H2 Hin Hd. unfold JSONFromValue.
  now rewrite Hin, (Unmarshal_deep float64 ParseFloat w1 c w2 H1 Hc H2 Hd).
Qed.

(** 10001 arrays between a space and a line feed, at
    [JSONFromValue_rejects_deep_nesting]. *)
Lemma JSONFromValue_rejects_deep_nesting_sample :
  JSONFromValue _ literalParseFloat literalFloatEncoder
    (string_of_list_ascii
       (grammar.text [" "%char] (nestedArray 10000) ["010"%char]))
  = (zeroJSON, Some json.SyntaxError).
Proof.
  apply (JSONFromValue_rejects_deep_nesting (list ascii) literalParseFloat
           literalFloatEncoder _ [" "%char] (nestedArray 10000)
           ["010"%char]).
  - repeat constructor.
  - apply wf_nestedArray.
  - repeat constructor.
  - apply list_ascii_of_string_of_list_ascii.
  - rewrite depth_nestedArray. vm_compute. reflexivity.
Defined.

(** For a JSON text of the grammar nested at most 10000 deep, in which
    [ParseFloat] refuses a number, [JSONFromValue] returns the zero
    value and the [UnmarshalTypeError] of the first number refused. *)
Theorem JSONFromValue_reports_first_refused_number (float64 : Type)
  (ParseFloat : list ascii -> option float64)
  (floatEncoder : float64 -> option (list ascii))
  (input : string) (w1 : list ascii) (c : grammar.cst) (w2 : list ascii)
  (e : json.error) :
  grammar.ws w1 -> grammar.wf c -> grammar.ws w2 ->
  list_ascii_of_string input = grammar.text w1 c w2 ->
  grammar.depth c <= json.maxNestingDepth ->
  rangeError float64 ParseFloat (grammar.numbers c) = Some e ->
  JSONFromValue float64 ParseFloat floatEncoder input = (zeroJSON, Some e)
  /\ exists lit,
       e = json.UnmarshalTypeError lit /\ In lit (grammar.numbers c)
       /\ ParseFloat lit = None.
Proof.
  intros H1 Hc H2 Hin Hd He. split.
  - unfold JSONFromValue.
    rewrite Hin, (Unmarshal_complete float64 ParseFloat w1 c w2 H1 Hc H2 Hd).
    pose proof (proj1 (build_saved float64 ParseFloat) c None) as Hs.
    cbn iota in Hs. rewrite He in Hs.
    destruct (grammar.build float64 ParseFloat c None) as [x s].
    cbn [snd] in Hs. now subst s.
  - destruct (rangeError_Some float64 ParseFloat _ e He)
      as (lit & Hin' & -> & Hp).
    now exists lit.
Qed.

(** An array of three numbers, the last two refused, at
    [JSONFromValue_reports_first_refused_number]. *)
Lemma JSONFromValue_reports_first_refused_number_sample :
  JSONFromValue _ boundedParseFloat literalFloatEncoder rangeText
  = (zeroJSON, Some (json.UnmarshalTypeError (json.la "1e400")))
  /\ exists lit,
       json.UnmarshalTypeError (json.la "1e400") = json.UnmarshalTypeError lit
       /\ In lit (grammar.numbers rangeTree)
       /\ boundedParseFloat lit = None.
Proof.
  apply (JSONFromValue_reports_first_refused_number (list ascii)
           boundedParseFloat literalFloatEncoder rangeText [] rangeTree []).
  - constructor.
  - exact rangeTree_wf.
  - constructor.
  - reflexivity.
  - vm_compute. discriminate.
  - reflexivity.
Defined.

(** When [JSONFromValue] returns a nil error, its input is a text of
    the grammar read byte by byte (its strings may hold bytes that are
    not UTF-8), nested at most 10000 deep, all of whose numbers
    [ParseFloat] accepts; an input that is well-formed UTF-8 is then a
    JSON text by RFC 8259. *)
Theorem JSONFromValue_accepts_only_valid (float64 : Type)
  (ParseFloat : list ascii -> option float64)
  (floatEncoder : float64 -> option (list ascii))
  (input : string) (out : JSON) :
  JSONFromValue float64 ParseFloat floatEncoder input = (out, None) ->
  (exists w1 c w2,
     grammar.ws w1 /\ grammar.wf c /\ grammar.ws w2
     /\ list_ascii_of_string input = grammar.text w1 c w2
     /\ grammar.depth c <= json.maxNestingDepth
     /\ Forall (fun lit => ParseFloat lit <> None) (grammar.numbers c))
  /\ ((exists rs, utf8.wellFormed (list_ascii_of_string input) rs) ->
      grammar.ValidJSON (list_ascii_of_string input)).
Proof.
  unfold JSONFromValue.
  destruct (json.Unmarshal float64 ParseFloat (list_ascii_of_string input))
    as [x [e |]] eqn:E; [discriminate |].
  intros _.
  destruct (Unmarshal_sound float64 ParseFloat _ x E)
    as (w1 & c & w2 & H1 & Hc & H2 & Hin & Hb & Hd).
  split.
  - exists w1, c, w2.
    split; [exact H1 | split; [exact Hc | split; [exact H2 |]]].
    split; [exact Hin | split; [exact Hd |]].
    apply rangeError_None.
    pose proof (proj1 (build_saved float64 ParseFloat) c None) as Hs.
    rewrite Hb in Hs. now symmetry.
  - intros Hutf8. split; [| exact Hutf8]. now exists w1, c, w2.
Qed.

(** The sample text, which is ASCII, at
    [JSONFromValue_accepts_only_valid]. *)
Lemma JSONFromValue_accepts_only_valid_sample :
  (exists w1 c w2,
     grammar.ws w1 /\ grammar.wf c /\ grammar.ws w2
     /\ list_ascii_of_string sampleText = grammar.text w1 c w2
     /\ grammar.depth c <= json.maxNestingDepth
     /\ Forall (fun lit => literalParseFloat lit <> None) (grammar.numbers c))
  /\ grammar.ValidJSON (list_ascii_of_string sampleText).
Proof.
  pose proof (JSONFromValue_accepts_only_valid (list ascii) literalParseFloat
                literalFloatEncoder sampleText
                (fst (JSONFromValue _ literalParseFloat literalFloatEncoder
                        sampleText))) as H.
  destruct H as [Htree Hjson]; [vm_compute; reflexivity |].
  split; [exact Htree |]. apply Hjson.
  exists (map byteZ (list_ascii_of_string sampleText)).
  apply ascii_wellFormed. repeat constructor; vm_compute; discriminate.
Defined.

(** The text [JSONFromValue] returns with a nil error is a JSON text by
    RFC 8259: a text of the grammar that is well-formed UTF-8.
    ([strconv] is taken by its contract.) *)
Theorem JSONFromValue_returns_valid_JSON (float64 : Type)
  (ParseFloat : list ascii -> option float64)
  (floatEncoder : float64 -> option (list ascii))
  (input : string) (out : JSON) :
  floatContract float64 ParseFloat floatEncoder ->
  JSONFromValue float64 ParseFloat floatEncoder input = (out, None) ->
  grammar.ValidJSON (list_ascii_of_string (String out)).
Proof.
  intros Hcontract H.
  destruct (JSONFromValue_success float64 ParseFloat floatEncoder Hcontract
              input out H)
    as (x & c & _ & Hout & (_ & Hwf & _) & _).
  destruct (JSONFromValue_clean float64 ParseFloat floatEncoder Hcontract
              input out H) as ((rs & Hutf8 & _) & _).
  split; [| now exists rs].
  exists [], c, []. unfold grammar.text. rewrite app_nil_r.
  repeat split; try constructor; assumption.
Qed.

(** The sample text, at [JSONFromValue_returns_valid_JSON]. *)
Lemma JSONFromValue_returns_valid_JSON_sample :
  grammar.ValidJSON
    (list_ascii_of_string
       (String (fst (JSONFromValue _ literalParseFloat literalFloatEncoder
                       sampleText)))).
Proof.
  apply (JSONFromValue_returns_valid_JSON (list ascii) literalParseFloat
           literalFloatEncoder sampleText).
  - exact literal_contract.
  - vm_compute. reflexivity.
Defined.

(** Whatever the error, the zero value comes with it. *)
Lemma JSONFromValue_error_zero (float64 : Type)
  (ParseFloat : list ascii -> option float64)
  (floatEncoder : float64 -> option (list ascii))
  (input : string) (out : JSON) (e : json.error) :
  JSONFromValue float64 ParseFloat floatEncoder input = (out, Some e) ->
  out = zeroJSON.
Proof.
  unfold JSONFromValue.
  destruct (json.Unmarshal float64 ParseFloat (list_ascii_of_string input))
    as [x [e' |]]; [now intros H; injection H as <- _ |].
  destruct (json.Marshal float64 floatEncoder x) as [j [e' |]];
    [now intros H; injection H as <- _ | discriminate].
Qed.

(** The error [JSONFromValue] returns is a syntax error or the
    [UnmarshalTypeError] of a number literal that [ParseFloat] refuses,
    and the zero value comes with it: [Marshal] never fails on what
    [Unmarshal] stored, so the second [goto end] is never taken.
    ([strconv] is taken by its contract.) *)
Theorem JSONFromValue_error_kinds (float64 : Type)
  (ParseFloat : list ascii -> option float64)
  (floatEncoder : float64 -> option (list ascii))
  (input : string) (out : JSON) (e : json.error) :
  floatContract float64 ParseFloat floatEncoder ->
  JSONFromValue float64 ParseFloat floatEncoder input = (out, Some e) ->
  out = zeroJSON
  /\ snd (json.Unmarshal float64 ParseFloat (list_ascii_of_string input))
     = Some e
  /\ (e = json.SyntaxError
      \/ exists lit,
           e = json.UnmarshalTypeError lit /\ grammar.numberLit lit
           /\ ParseFloat lit = None).
Proof.
  intros Hcontract. unfold JSONFromValue.
  destruct (json.Unmarshal float64 ParseFloat (list_ascii_of_string input))
    as [x [e' |]] eqn:E.
  - intros H. injection H as <- <-.
    split; [reflexivity | split; [reflexivity |]].
    destruct (Unmarshal_error float64 ParseFloat _ x e' E)
      as [(-> & _) | (w1 & c & w2 & _ & Hc & _ & _ & _ & He)];
      [now left | right].
    destruct (rangeError_Some float64 ParseFloat _ e' He)
      as (lit & Hin & -> & Hp).
    exists lit. split; [reflexivity | split; [| exact Hp]].
    pose proof (proj1 numbers_wf c Hc) as Hall.
    rewrite Forall_forall in Hall. now apply Hall.
  - destruct (Unmarshal_Marshal float64 ParseFloat floatEncoder Hcontract
                _ x E) as (c & -> & _).
    discriminate.
Qed.

(** An unfinished object, at [JSONFromValue_error_kinds]. *)
Lemma JSONFromValue_error_kinds_sample :
  zeroJSON = zeroJSON
  /\ snd (json.Unmarshal _ literalParseFloat
            (list_ascii_of_string "{invalid")) = Some json.SyntaxError
  /\ (json.SyntaxError = json.SyntaxError
      \/ exists lit,
           json.SyntaxError = json.UnmarshalTypeError lit
           /\ grammar.numberLit lit /\ literalParseFloat lit = None).
Proof.
  apply (JSONFromValue_error_kinds (list ascii) literalParseFloat
           literalFloatEncoder "{invalid" zeroJSON json.SyntaxError).
  - exact literal_contract.
  - vm_compute. reflexivity.
Defined.

(** [JSONFromValue] returns a nil error exactly when the [String()] of
    what it returns is not empty: the zero value tells a failure.
    ([strconv] is taken by its contract.) *)
Theorem JSONFromValue_empty_iff_error (float64 : Type)
  (ParseFloat : list ascii -> option float64)
  (floatEncoder : float64 -> option (list ascii)) (input : string) :
  floatContract float64 ParseFloat floatEncoder ->
  snd (JSONFromValue float64 ParseFloat floatEncoder input) = None
  <-> String (fst (JSONFromValue float64 ParseFloat floatEncoder input))
      <> EmptyString.
Proof.
  intros Hcontract.
  destruct (JSONFromValue float64 ParseFloat floatEncoder input)
    as [out [e |]] eqn:E; cbn [fst snd].
  - rewrite (JSONFromValue_error_zero float64 ParseFloat floatEncoder
               input out e E).
    split; [discriminate | intros H; now contradiction H].
  - split; [intros _ | reflexivity].
    destruct (JSONFromValue_success float64 ParseFloat floatEncoder Hcontract
                input out E)
      as (x & c & _ & Hout & (_ & Hwf & _) & _).
    destruct (render_start c Hwf) as (ch & t & Hr & _).
    intros Hempty. rewrite Hempty, Hr in Hout. discriminate.
Qed.

(** The sample text, at [JSONFromValue_empty_iff_error]. *)
Lemma JSONFromValue_empty_iff_error_sample :
  snd (JSONFromValue _ literalParseFloat literalFloatEncoder sampleText)
  = None
  <-> String (fst (JSONFromValue _ literalParseFloat literalFloatEncoder
                     sampleText)) <> EmptyString.
Proof.
  apply (JSONFromValue_empty_iff_error (list ascii) literalParseFloat
           literalFloatEncoder sampleText).
  exact literal_contract.
Defined.

(** Whitespace before and after the input changes neither the [JSON]
    that [JSONFromValue] returns nor whether it returns an error.  (The
    [Offset] of an error, which does move, is left out of [json.error].) *)
Theorem JSONFromValue_ignores_outer_whitespace (float64 : Type)
  (ParseFloat : list ascii -> option float64)
  (floatEncoder : float64 -> option (list ascii))
  (w1 : list ascii) (input : string) (w2 : list ascii) :
  grammar.ws w1 -> grammar.ws w2 ->
  fst (JSONFromValue float64 ParseFloat floatEncoder
         (string_of_list_ascii (w1 ++ list_ascii_of_string input ++ w2)))
  = fst (JSONFromValue float64 ParseFloat floatEncoder input)
  /\ (snd (JSONFromValue float64 ParseFloat floatEncoder
             (string_of_list_ascii (w1 ++ list_ascii_of_string input ++ w2)))
      = None
      <-> snd (JSONFromValue float64 ParseFloat floatEncoder input) = None).
Proof.
  intros H1 H2. unfold JSONFromValue.
  rewrite list_ascii_of_string_of_list_ascii.
  rewrite (Unmarshal_ws float64 ParseFloat w1 _ w2 H1 H2).
  split; reflexivity.
Qed.

(** A tab and a line feed around the sample text, at
    [JSONFromValue_ignores_outer_whitespace]. *)
Lemma JSONFromValue_ignores_outer_whitespace_sample :
  fst (JSONFromValue _ literalParseFloat literalFloatEncoder
         (string_of_list_ascii
            (["009"%char] ++ list_ascii_of_string sampleText
               ++ ["010"%char])))
  = fst (JSONFromValue _ literalParseFloat literalFloatEncoder sampleText)
  /\ (snd (JSONFromValue _ literalParseFloat literalFloatEncoder
             (string_of_list_ascii
                (["009"%char] ++ list_ascii_of_string sampleText
                   ++ ["010"%char]))) = None
      <-> snd (JSONFromValue _ literalParseFloat literalFloatEncoder
                 sampleText) = None).
Proof.
  apply (JSONFromValue_ignores_outer_whitespace (list ascii)
           literalParseFloat literalFloatEncoder ["009"%char] sampleText
           ["010"%char]); repeat constructor.
Defined.

(** The text [JSONFromValue] returns with a nil error is valid UTF-8,
    also when the input is not: what [Unmarshal] cannot decode it
    replaces by U+FFFD.  ([strconv] is taken by its contract.) *)
Theorem JSONFromValue_returns_valid_UTF8 (float64 : Type)
  (ParseFloat : list ascii -> option float64)
  (floatEncoder : float64 -> option (list ascii))
  (input : string) (out : JSON) :
  floatContract float64 ParseFloat floatEncoder ->
  JSONFromValue float64 ParseFloat floatEncoder input = (out, None) ->
  utf8.ValidString (list_ascii_of_string (String out)) = true.
Proof.
  intros Hcontract H.
  destruct (JSONFromValue_clean float64 ParseFloat floatEncoder Hcontract
              input out H) as ((rs & Hwf & _) & _).
  exact (wellFormed_ValidString _ rs Hwf).
Qed.

(** A string of one byte that is not UTF-8, at
    [JSONFromValue_returns_valid_UTF8]. *)
Lemma JSONFromValue_returns_valid_UTF8_sample :
  utf8.ValidString
    (list_ascii_of_string
       (String (fst (JSONFromValue _ literalParseFloat literalFloatEncoder
                       invalidUTF8Text)))) = true.
Proof.
  apply (JSONFromValue_returns_valid_UTF8 (list ascii) literalParseFloat
           literalFloatEncoder invalidUTF8Text).
  - exact literal_contract.
  - vm_compute. reflexivity.
Defined.

(** The text [JSONFromValue] returns with a nil error has no byte below
    [0x20]: no line break, no tab, whatever whitespace and control
    escapes the input has.  ([strconv] is taken by its contract.) *)
Theorem JSONFromValue_returns_no_control_byte (float64 : Type)
  (ParseFloat : list ascii -> option float64)
  (floatEncoder : float64 -> option (list ascii))
  (input : string) (out : JSON) :
  floatContract float64 ParseFloat floatEncoder ->
  JSONFromValue float64 ParseFloat floatEncoder input = (out, None) ->
  Forall (fun c => 0x20 <= byteZ c) (list_ascii_of_string (String out)).
Proof.
  intros Hcontract H.
  exact (proj2 (JSONFromValue_clean float64 ParseFloat floatEncoder Hcontract
                  input out H)).
Qed.

(** The sample text, which ends with a line feed, at
    [JSONFromValue_returns_no_control_byte]. *)
Lemma JSONFromValue_returns_no_control_byte_sample :
  Forall (fun c => 0x20 <= byteZ c)
    (list_ascii_of_string
       (String (fst (JSONFromValue _ literalParseFloat literalFloatEncoder
                       sampleText)))).
Proof.
  apply (JSONFromValue_returns_no_control_byte (list ascii) literalParseFloat
           literalFloatEncoder sampleText).
  - exact literal_contract.
  - vm_compute. reflexivity.
Defined.

(** [JSONConcat] of lists of arguments put end to end is [JSONConcat]
    of the [JSONConcat] of each list: nesting calls changes nothing. *)
Theorem JSONConcat_flattens (jsonss : list (list JSON)) :
  JSONConcat (List.concat jsonss) = JSONConcat (map JSONConcat jsonss).
Proof.
  apply JSON_eq. rewrite !JSONConcat_String.
  induction jsonss as [| js jsonss IH]; [reflexivity |].
  cbn [List.concat map concatStrings].
  now rewrite map_app, concatStrings_app, IH, JSONConcat_String.
Qed.

(** A byte occurs in [JSONConcat(jsons...).String()] exactly when it
    occurs in the [String()] of one of [jsons]: nothing is added,
    nothing is dropped. *)
Theorem JSONConcat_occurs (ch : ascii) (jsons : list JSON) :
  occurs ch (String (JSONConcat jsons))
  <-> exists j, In j jsons /\ occurs ch (String j).
Proof.
  rewrite JSONConcat_String. unfold occurs.
  induction jsons as [| j jsons IH]; cbn [map concatStrings].
  - split; [intros [] | intros (j & [] & _)].
  - rewrite list_ascii_of_string_app, in_app_iff, IH. split.
    + intros [H | (j' & Hin & H)];
        [exists j; split; [now left | exact H]
        | exists j'; split; [now right | exact H]].
    + intros (j' & [<- | Hin] & H); [now left | right; now exists j'].
Qed.

(** When the [String()] of every argument is well-formed UTF-8,
    [JSONConcat(jsons...).String()] is valid UTF-8. *)
Theorem JSONConcat_keeps_valid_UTF8 (jsons : list JSON) :
  Forall (fun j => exists rs,
            utf8.wellFormed (list_ascii_of_string (String j)) rs) jsons ->
  utf8.ValidString (list_ascii_of_string (String (JSONConcat jsons))) = true.
Proof.
  intros Hall. rewrite JSONConcat_String.
  assert (exists rs,
            utf8.wellFormed
              (list_ascii_of_string (concatStrings (map String jsons))) rs)
    as (rs & Hwf).
  { induction Hall as [| j jsons (r1 & H1) _ (r2 & H2)];
      cbn [map concatStrings].
    - exists []. constructor.
    - exists (r1 ++ r2). rewrite list_ascii_of_string_app.
      now apply wellFormed_app. }
  exact (wellFormed_ValidString _ rs Hwf).
Qed.

(** Two texts of two bytes each, one rune of two bytes and two ASCII
    bytes, at [JSONConcat_keeps_valid_UTF8]. *)
Lemma JSONConcat_keeps_valid_UTF8_sample :
  utf8.ValidString
    (list_ascii_of_string
       (String (JSONConcat
                  [mkJSON (string_of_list_ascii ["195"%char; "169"%char]);
                   EmptyObjectJSON]))) = true.
Proof.
  apply JSONConcat_keeps_valid_UTF8.
  constructor; [| constructor; [| constructor]].
  - exists [233]. cbn [String str].
    rewrite list_ascii_of_string_of_list_ascii.
    change ["195"%char; "169"%char] with (["195"%char; "169"%char] ++ []).
    constructor; [| constructor].
    apply (utf8.wf2 "195"%char "169"%char); vm_compute; split; discriminate.
  - exists [123; 125]. apply (ascii_wellFormed (list_ascii_of_string "{}")).
    repeat constructor; vm_compute; discriminate.
Defined.

(** The text [JSONFromValue] returns with a nil error has neither
    U+2028 nor U+2029 among its code points: the encoder writes the two
    separators, which break JavaScript string literals, as escapes.
    ([strconv] is taken by its contract.) *)
Theorem JSONFromValue_escapes_line_separators (float64 : Type)
  (ParseFloat : list ascii -> option float64)
  (floatEncoder : float64 -> option (list ascii))
  (input : string) (out : JSON) :
  floatContract float64 ParseFloat floatEncoder ->
  JSONFromValue float64 ParseFloat floatEncoder input = (out, None) ->
  Forall (fun r => r <> 0x2028 /\ r <> 0x2029)
    (utf8.runes (list_ascii_of_string (String out))).
Proof.
  intros Hcontract H.
  destruct (JSONFromValue_clean float64 ParseFloat floatEncoder Hcontract
              input out H) as ((rs & Hwf & Hsep) & _).
  now rewrite (runes_wellFormed _ rs Hwf).
Qed.

(** A string that holds U+2028 (the bytes E2 80 A8), at
    [JSONFromValue_escapes_line_separators]. *)
Lemma JSONFromValue_escapes_line_separators_sample :
  Forall (fun r => r <> 0x2028 /\ r <> 0x2029)
    (utf8.runes
       (list_ascii_of_string
          (String (fst (JSONFromValue _ literalParseFloat literalFloatEncoder
                          (string_of_list_ascii
                             [json.dquote; "226"%char; "128"%char;
                              "168"%char; json.dquote])))))).
Proof.
  apply (JSONFromValue_escapes_line_separators (list ascii) literalParseFloat
           literalFloatEncoder
           (string_of_list_ascii
              [json.dquote; "226"%char; "128"%char; "168"%char;
               json.dquote])).
  - exact literal_contract.
  - vm_compute. reflexivity.
Defined.

(** [JSONConcat] of values that [JSONFromValue] returned with a nil
    error has none of the bytes [<], [>] and [&] in its [String()].
    ([strconv] is taken by its contract.) *)
Theorem JSONConcat_of_JSONFromValue_escapes_HTML (float64 : Type)
  (ParseFloat : list ascii -> option float64)
  (floatEncoder : float64 -> option (list ascii)) (jsons : list JSON) :
  floatContract float64 ParseFloat floatEncoder ->
  Forall (fun j => exists input,
            JSONFromValue float64 ParseFloat floatEncoder input = (j, None))
    jsons ->
  Forall (fun ch => ch <> "<"%char /\ ch <> ">"%char /\ ch <> "&"%char)
    (list_ascii_of_string (String (JSONConcat jsons))).
Proof.
  intros Hcontract Hall. rewrite JSONConcat_String.
  induction Hall as [| j jsons (input & Hj) _ IH]; cbn [map concatStrings];
    [constructor |].
  rewrite list_ascii_of_string_app. apply Forall_app. split; [| exact IH].
  destruct (JSONFromValue_success float64 ParseFloat floatEncoder Hcontract
              input j Hj)
    as (x & c & _ & Hout & (_ & _ & _ & _ & Hs) & _).
  rewrite Hout. eapply Forall_impl; [| exact Hs].
  exact isHTMLChar_false.
Qed.

(** What [JSONFromValue] returns for the sample text, twice, at
    [JSONConcat_of_JSONFromValue_escapes_HTML]. *)
Lemma JSONConcat_of_JSONFromValue_escapes_HTML_sample :
  Forall (fun ch => ch <> "<"%char /\ ch <> ">"%char /\ ch <> "&"%char)
    (list_ascii_of_string
       (String
          (JSONConcat
             [fst (JSONFromValue _ literalParseFloat literalFloatEncoder
                     sampleText);
              fst (JSONFromValue _ literalParseFloat literalFloatEncoder
                     sampleText)]))).
Proof.
  apply (JSONConcat_of_JSONFromValue_escapes_HTML (list ascii)
           literalParseFloat literalFloatEncoder).
  - exact literal_contract.
  - repeat constructor; exists sampleText; vm_compute; reflexivity.
Defined.

Lemma build_nestedArray (float64 : Type)
  (ParseFloat : list ascii -> option float64) (n : nat)
  (saved : option json.error) :
  grammar.build float64 ParseFloat (nestedArray n) saved
  = (nestedSlice float64 n, saved).
Proof.
  induction n as [| n IH]; [reflexivity |].
  cbn [nestedArray nestedSlice].
  now rewrite build_CArray, buildElements_ELast, IH.
Qed.

Lemma encode_nestedSlice (float64 : Type)
  (floatEncoder : float64 -> option (list ascii)) (n : nat) :
  json.encode float64 floatEncoder (nestedSlice float64 n)
  = inr (grammar.render (nestedArray n)).
Proof.
  induction n as [| n IH]; [reflexivity |].
  cbn [nestedArray nestedSlice].
  rewrite encode_Slice. cbn [json.encodeList]. rewrite IH.
  rewrite render_CArray, renderElements_ELast. cbn [app].
  now rewrite !app_nil_r.
Qed.

(** Arrays nested up to 10000 deep, with nothing else, are accepted and
    returned as they are: the limit on the nesting is exactly 10000. *)
Theorem JSONFromValue_accepts_nesting_up_to_limit (float64 : Type)
  (ParseFloat : list ascii -> option float64)
  (floatEncoder : float64 -> option (list ascii)) (n : nat) :
  Z.of_nat (S n) <= json.maxNestingDepth ->
  JSONFromValue float64 ParseFloat floatEncoder
    (string_of_list_ascii (grammar.render (nestedArray n)))
  = (mkJSON (string_of_list_ascii (grammar.render (nestedArray n))), None).
Proof.
  intros Hn. unfold JSONFromValue.
  rewrite list_ascii_of_string_of_list_ascii.
  rewrite <- (app_nil_r (grammar.render (nestedArray n))) at 1.
  change (grammar.render (nestedArray n) ++ [])
    with (grammar.text [] (nestedArray n) []).
  rewrite (Unmarshal_complete float64 ParseFloat [] (nestedArray n) []);
    [| constructor | apply wf_nestedArray | constructor
     | now rewrite depth_nestedArray].
  rewrite build_nestedArray. unfold json.Marshal.
  now rewrite encode_nestedSlice.
Qed.

(** 10000 arrays, one inside the other, at
    [JSONFromValue_accepts_nesting_up_to_limit]. *)
Lemma JSONFromValue_accepts_nesting_up_to_limit_sample :
  JSONFromValue _ literalParseFloat literalFloatEncoder
    (string_of_list_ascii (grammar.render (nestedArray 9999)))
  = (mkJSON (string_of_list_ascii (grammar.render (nestedArray 9999))), None).
Proof.
  apply (JSONFromValue_accepts_nesting_up_to_limit (list ascii)
           literalParseFloat literalFloatEncoder 9999).
  vm_compute. discriminate.
Defined.

(** The text returned is a canonical form of the value decoded: for
    two inputs that [JSONFromValue] accepts, the results are equal
    exactly when [Unmarshal] stores the same value for both.
    ([strconv] is taken by its contract.) *)
Theorem JSONFromValue_canonical (float64 : Type)
  (ParseFloat : list ascii -> option float64)
  (floatEncoder : float64 -> option (list ascii))
  (a b : string) (ja jb : JSON) :
  floatContract float64 ParseFloat floatEncoder ->
  JSONFromValue float64 ParseFloat floatEncoder a = (ja, None) ->
  JSONFromValue float64 ParseFloat floatEncoder b = (jb, None) ->
  ja = jb
  <-> fst (json.Unmarshal float64 ParseFloat (list_ascii_of_string a))
      = fst (json.Unmarshal float64 ParseFloat (list_ascii_of_string b)).
Proof.
  intros Hcontract Ha Hb.
  destruct (JSONFromValue_success float64 ParseFloat floatEncoder Hcontract
              a ja Ha) as (xa & ca & Hua & Houta & (Hea & _) & _ & Hra).
  destruct (JSONFromValue_success float64 ParseFloat floatEncoder Hcontract
              b jb Hb) as (xb & cb & Hub & Houtb & (Heb & _) & _ & Hrb).
  rewrite Hua, Hub. cbn [fst]. split.
  - intros ->. rewrite Houtb in Houta. rewrite Houta in Hrb.
    rewrite Hrb in Hra. now injection Hra.
  - intros ->. apply JSON_eq.
    rewrite <- (string_of_list_ascii_of_string (String ja)),
      <- (string_of_list_ascii_of_string (String jb)).
    rewrite Houta, Houtb. f_equal. congruence.
Qed.

(** The sample text and what is returned for it, two texts of one
    value, at [JSONFromValue_canonical]. *)
Lemma JSONFromValue_canonical_sample :
  fst (JSONFromValue _ literalParseFloat literalFloatEncoder sampleText)
  = fst (JSONFromValue _ literalParseFloat literalFloatEncoder
           (String (fst (JSONFromValue _ literalParseFloat
                           literalFloatEncoder sampleText))))
  <-> fst (json.Unmarshal _ literalParseFloat
             (list_ascii_of_string sampleText))
      = fst (json.Unmarshal _ literalParseFloat
               (list_ascii_of_string
                  (String (fst (JSONFromValue _ literalParseFloat
                                  literalFloatEncoder sampleText))))).
Proof.
  apply (JSONFromValue_canonical (list ascii) literalParseFloat
           literalFloatEncoder).
  - exact literal_contract.
  - vm_compute. reflexivity.
  - vm_compute. reflexivity.
Defined.

